(** * Normalized GraphQL result cache: field keys, store writer, graph writer

    A shallow embedding of the store utilities ([storeUtils]), of the store
    writer ([writeToStore]) and of the graph writer ([graph/write.ts]),
    together with the properties of the cache that rest on them.

    JavaScript objects whose property order is observable (argument objects
    passed to [JSON.stringify], store objects enumerated by [Object.keys]) are
    association lists in property order; the normalized cache, which is only
    ever indexed, assigned and deleted by key, is a [gmap].  A property list
    holds the own enumerable properties of a plain object, one whose
    prototype is [Object.prototype].  The reads of the variables and of the
    result data go on to the prototype when the object has no such property
    of its own: a plain object takes the members of [Object.prototype], and
    what arrays, strings, numbers, booleans and functions take from their
    prototypes is the runtime's.  The cache and its store objects, the
    fragment map, the graph and the data of the graph writer are read by
    their own keys.  Property names are GraphQL names and store keys, none
    of them an array index, so that property order is insertion order. *)

From Stdlib Require Import String Ascii List Arith Bool DecimalString.
From stdpp Require Import base option list strings gmap.

Local Open Scope string_scope.
Local Open Scope nat_scope.
Local Open Scope list_scope.
Set Warnings "-register-all".

(** ** JavaScript values *)

(** A JS number is carried by the text [Number.prototype.toString] prints
    for it ([1], [1.5], [1e+21], [NaN], [Infinity], ...); [0] and [-0], which
    print alike and are [===], are one value. *)
Inductive Prim : Type :=
| PUndefined
| PNull
| PBool (b : bool)
| PNumber (repr : string)
| PString (s : string).

(** [JObject] is a plain object, by its own enumerable properties.
    [JFunction] is a built-in function of the runtime, named by the member
    that holds it, and [JObjectPrototype] is [Object.prototype]: the two
    kinds of value a read reaches through the prototype of a plain object. *)
Inductive JSValue : Type :=
| JPrim (p : Prim)
| JArray (items : list JSValue)
| JObject (props : list (string * JSValue))
| JFunction (name : string)
| JObjectPrototype.

Definition undefined : JSValue := JPrim PUndefined.
Definition null : JSValue := JPrim PNull.

Definition isNaN (repr : string) : bool := String.eqb repr "NaN".

Definition isFinite (repr : string) : bool :=
  negb (isNaN repr || String.eqb repr "Infinity" || String.eqb repr "-Infinity").

(** [a === b] on primitives. *)
Definition strictEq (a b : Prim) : bool :=
  match a, b with
  | PUndefined, PUndefined => true
  | PNull, PNull => true
  | PBool x, PBool y => Bool.eqb x y
  | PNumber x, PNumber y => String.eqb x y && negb (isNaN x)
  | PString x, PString y => String.eqb x y
  | _, _ => false
  end.

(** lodash [isObject]: arrays, objects and functions, not [null]. *)
Definition isObject (v : JSValue) : bool :=
  match v with
  | JPrim _ => false
  | _ => true
  end.

Definition isNull (v : JSValue) : bool :=
  match v with
  | JPrim PNull => true
  | _ => false
  end.

Definition isUndefined (v : JSValue) : bool :=
  match v with
  | JPrim PUndefined => true
  | _ => false
  end.

(** ** Objects as ordered property lists *)

Section Props.
Context {V : Type}.

(** [o[k]]; [None] stands for [undefined]. *)
Fixpoint lookupProp (o : list (string * V)) (k : string) : option V :=
  match o with
  | [] => None
  | (k', v) :: rest => if String.eqb k' k then Some v else lookupProp rest k
  end.

(** [o[k] = v]: an existing property keeps its place, a new one goes last. *)
Fixpoint setProp (o : list (string * V)) (k : string) (v : V) : list (string * V) :=
  match o with
  | [] => [(k, v)]
  | (k', v') :: rest =>
      if String.eqb k' k then (k, v) :: rest else (k', v') :: setProp rest k v
  end.

(** [assign(target, source)]: every own property of [source], in order. *)
Definition assignInto (target source : list (string * V)) : list (string * V) :=
  fold_left (fun acc kv => setProp acc (fst kv) (snd kv)) source target.

(** [Object.keys(o)]. *)
Definition keys (o : list (string * V)) : list string := map fst o.

(** [delete o[k]]. *)
Fixpoint deleteProp (o : list (string * V)) (k : string) : list (string * V) :=
  match o with
  | [] => []
  | (k', v) :: rest =>
      if String.eqb k' k then rest else (k', v) :: deleteProp rest k
  end.
End Props.

Definition Obj : Type := list (string * JSValue).

(** ** Object.prototype *)

(** The names under which [Object.prototype] holds a function. *)
Definition Object_prototype_functions : list string :=
  ["constructor"; "__defineGetter__"; "__defineSetter__"; "hasOwnProperty";
   "__lookupGetter__"; "__lookupSetter__"; "isPrototypeOf"; "propertyIsEnumerable";
   "toString"; "valueOf"; "toLocaleString"].

(** [o[k]] for a plain object [o] that has no own property [k]: the
    function [Object.prototype] holds under [k]; for [__proto__], whose
    accessor gives the prototype of [o], [Object.prototype] itself;
    [undefined] for any other name. *)
Definition inheritedMember (k : string) : JSValue :=
  if String.eqb k "__proto__" then JObjectPrototype
  else if existsb (String.eqb k) Object_prototype_functions then JFunction k
  else undefined.

(** [o[k]] for a plain object [o]. *)
Definition getMember (o : Obj) (k : string) : JSValue :=
  default (inheritedMember k) (lookupProp o k).

(** [o[k] = v] for a plain object [o].  The name [__proto__], unless [o]
    has a property of that name of its own, reaches the accessor of
    [Object.prototype]: the assignment makes no property.  (It sets the
    prototype of [o] when [v] is an object or [null]; the list keeps the own
    properties, which are what [JSON.stringify] prints, and what follows
    takes [o] for a plain object still.) *)
Definition assignProp (o : Obj) (k : string) (v : JSValue) : Obj :=
  match lookupProp o k with
  | None => if String.eqb k "__proto__" then o else setProp o k v
  | Some _ => setProp o k v
  end.

(** ** JSON.stringify *)

Definition DQ : string := String (ascii_of_nat 34) EmptyString.
Definition BS : string := String (ascii_of_nat 92) EmptyString.

Definition hexDigit (n : nat) : ascii :=
  ascii_of_nat (if n <? 10 then 48 + n else 87 + n).

(** QuoteJSONString on one code unit. *)
Definition escapeChar (c : ascii) : string :=
  let n := nat_of_ascii c in
  if n =? 34 then BS +:+ DQ
  else if n =? 92 then BS +:+ BS
  else if n =? 8 then BS +:+ "b"
  else if n =? 9 then BS +:+ "t"
  else if n =? 10 then BS +:+ "n"
  else if n =? 12 then BS +:+ "f"
  else if n =? 13 then BS +:+ "r"
  else if n <? 32 then
    BS +:+ "u00" +:+ String (hexDigit (n / 16)) (String (hexDigit (n mod 16)) EmptyString)
  else String c EmptyString.

Fixpoint escapeString (s : string) : string :=
  match s with
  | EmptyString => EmptyString
  | String c rest => escapeChar c +:+ escapeString rest
  end.

Definition quote (s : string) : string := DQ +:+ escapeString s +:+ DQ.

Fixpoint joinComma (l : list string) : string :=
  match l with
  | [] => EmptyString
  | [x] => x
  | x :: rest => x +:+ "," +:+ joinComma rest
  end.

(** [JSON.stringify(v)], for a value none of whose objects has a [toJSON]
    method, as data has none; [None] is the [undefined] it returns for
    [undefined] and for a function.  An object leaves out the properties for
    which it returns [undefined], an array prints [null] for such elements.
    [Object.prototype] has no enumerable property. *)
Fixpoint stringify (v : JSValue) : option string :=
  match v with
  | JPrim PUndefined => None
  | JFunction _ => None
  | JObjectPrototype => Some "{}"
  | JPrim PNull => Some "null"
  | JPrim (PBool b) => Some (if b then "true" else "false")
  | JPrim (PNumber r) => Some (if isFinite r then r else "null")
  | JPrim (PString s) => Some (quote s)
  | JArray items =>
      Some ("[" +:+ joinComma (map (fun x => default "null" (stringify x)) items) +:+ "]")
  | JObject props =>
      let member (kv : string * JSValue) : list string :=
        match stringify (snd kv) with
        | Some s => [quote (fst kv) +:+ ":" +:+ s]
        | None => []
        end in
      Some ("{" +:+ joinComma (flat_map member props) +:+ "}")
  end.

(** The text a template literal interpolates for [JSON.stringify(v)]. *)
Definition JSON_stringify (v : JSValue) : string :=
  default "undefined" (stringify v).

(** ** Document AST (the part of graphql's AST the cache consumes) *)

(** [ValueNode], by [kind].  [OtherValue] stands for any kind the encoder
    has no case for. *)
Inductive ValueNode : Type :=
| IntValue (value : string)
| FloatValue (value : string)
| StringValue (value : string)
| BooleanValue (value : bool)
| ObjectValue (fields : list (string * ValueNode))
| Variable_ (name : string)
| ListValue (values : list ValueNode)
| EnumValue (value : string)
| OtherValue (kind : string).

Definition ArgumentNode : Type := (string * ValueNode)%type.
Definition DirectiveNode : Type := (string * list ArgumentNode)%type.

(** The parts of a [FieldNode] other than its selection set.  [arguments]
    is empty when the node has none. *)
Record FieldNode : Type := mkField {
  alias : option string;
  name : string;
  arguments : list ArgumentNode;
  directives : list DirectiveNode;
}.

Inductive SelectionNode : Type :=
| Field (field : FieldNode) (selectionSet : option (list SelectionNode))
| InlineFragment (directives : list DirectiveNode) (selectionSet : list SelectionNode)
| FragmentSpread (name : string) (directives : list DirectiveNode).

Definition SelectionSet : Type := list SelectionNode.

(** ** Errors *)

(** What the store writer throws.  [OutOfFuel] is no JavaScript error: it
    is how a run that exhausts its fuel (a recursion that does not end) shows
    in the model. *)
Inductive Error : Type :=
| UnsupportedArgumentKind (name kind : string)
| MissingFragment (name : string)
| IdentityViolation
| IdentityOverwrite (existingId : string)
| TypeError
| OutOfFuel.

Inductive Result (E A : Type) : Type :=
| Ok (a : A)
| Err (e : E).
Arguments Ok {E A} a.
Arguments Err {E A} e.

Definition bindR {E A B : Type} (r : Result E A) (k : A -> Result E B) : Result E B :=
  match r with
  | Ok a => k a
  | Err e => Err e
  end.

Notation "'letR' x ':=' r 'in' k" := (bindR r (fun x => k))
  (at level 10, x name, r at level 100, k at level 200).

(** ** storeUtils: the field-key encoder *)

Section FieldKey.
(** [Number(text)] on the text of an int or float literal. *)
Variable Number : string -> string.
(** The variable environment; [None] when the caller passes none. *)
Variable variables : option Obj.

(** [(variables || {})[name]]. *)
Definition variableValue (name : string) : JSValue :=
  getMember (default [] variables) name.

(** Under the name [__proto__] the read of the list branch gives the
    prototype of [nestedArgArrayObj], where the model has
    [Object.prototype] whatever the assignment has set; the array read so
    is assigned to [__proto__] in its turn and makes no property. *)
Fixpoint valueToObjectRepresentation (argObj : Obj) (name : string) (value : ValueNode)
  : Result Error Obj :=
  match value with
  | IntValue v | FloatValue v => Ok (assignProp argObj name (JPrim (PNumber (Number v))))
  | BooleanValue b => Ok (assignProp argObj name (JPrim (PBool b)))
  | StringValue s => Ok (assignProp argObj name (JPrim (PString s)))
  | ObjectValue fields =>
      let fix each (fields : list (string * ValueNode)) (nestedArgObj : Obj) : Result Error Obj :=
        match fields with
        | [] => Ok nestedArgObj
        | obj :: rest =>
            letR nestedArgObj' := valueToObjectRepresentation nestedArgObj (fst obj) (snd obj) in
            each rest nestedArgObj'
        end in
      letR nestedArgObj := each fields [] in
      Ok (assignProp argObj name (JObject nestedArgObj))
  | Variable_ v => Ok (assignProp argObj name (variableValue v))
  | ListValue values =>
      let fix each (values : list ValueNode) : Result Error (list JSValue) :=
        match values with
        | [] => Ok []
        | listValue :: rest =>
            letR nestedArgArrayObj := valueToObjectRepresentation [] name listValue in
            letR items := each rest in
            Ok (getMember nestedArgArrayObj name :: items)
        end in
      letR items := each values in
      Ok (assignProp argObj name (JArray items))
  | EnumValue v => Ok (assignProp argObj name (JPrim (PString v)))
  | OtherValue kind => Err (UnsupportedArgumentKind name kind)
  end.

(** The [forEach] of [storeKeyNameFromField] over the arguments. *)
Fixpoint argumentsToObject (args : list ArgumentNode) (argObj : Obj) : Result Error Obj :=
  match args with
  | [] => Ok argObj
  | (name, value) :: rest =>
      letR argObj' := valueToObjectRepresentation argObj name value in
      argumentsToObject rest argObj'
  end.

Definition storeKeyNameFromFieldNameAndArgs (fieldName : string) (args : option Obj) : string :=
  match args with
  | Some args => fieldName +:+ "(" +:+ JSON_stringify (JObject args) +:+ ")"
  | None => fieldName
  end.

Definition storeKeyNameFromField (field : FieldNode) : Result Error string :=
  match arguments field with
  | [] => Ok (name field)
  | args =>
      letR argObj := argumentsToObject args [] in
      Ok (storeKeyNameFromFieldNameAndArgs (name field) (Some argObj))
  end.

Definition resultKeyNameFromField (field : FieldNode) : string :=
  match alias field with
  | Some a => a
  | None => name field
  end.
End FieldKey.

(** ** The normalized cache *)

(** [StoreValue]: a scalar stored as it is, a wrapped JSON blob
    [{type: 'json', json}], an [IdValue] [{type: 'id', id, generated}], or
    the array of ids and [null]s the writer stores for a list. *)
Inductive StoreValue : Type :=
| SVPrim (p : Prim)
| SVJson (json : JSValue)
| SVId (id : string) (generated : bool)
| SVList (ids : list (option string)).

Definition StoreObject : Type := list (string * StoreValue).

(** A store object together with its identity: [ref] tells apart two
    objects with the same properties.  The writer never changes a store
    object once made; it replaces it by a new one. *)
Record Entity : Type := mkEntity {
  ref : nat;
  fields : StoreObject;
}.

Abbreviation NormalizedCache := (gmap string Entity).

(** The mutable state of a write: the cache object and the next unused
    object identity. *)
Record Store : Type := mkStore {
  cache : NormalizedCache;
  nextRef : nat;
}.

(** ** Writes as state passing with exceptions

    A thrown error leaves the assignments made before it in the store, so the
    state is returned on both outcomes. *)

Definition StateM (S E A : Type) : Type := S -> S * Result E A.

Definition ret {S E A : Type} (a : A) : StateM S E A := fun st => (st, Ok a).

Definition throw {S E A : Type} (e : E) : StateM S E A := fun st => (st, Err e).

Definition bind {S E A B : Type} (m : StateM S E A) (k : A -> StateM S E B)
  : StateM S E B :=
  fun st =>
    match m st with
    | (st', Ok a) => k a st'
    | (st', Err e) => (st', Err e)
    end.

Notation "'letM' x ':=' m 'in' k" := (bind m (fun x => k))
  (at level 10, x name, m at level 100, k at level 200).
Notation "m ';;' k" := (bind m (fun _ => k))
  (at level 100, k at level 200, right associativity).

Definition liftR {S E A : Type} (r : Result E A) : StateM S E A := fun st => (st, r).

Fixpoint forEach {S E A : Type} (l : list A) (f : A -> StateM S E unit) : StateM S E unit :=
  match l with
  | [] => ret tt
  | x :: rest => f x ;; forEach rest f
  end.

(** The monad of the store writer. *)
Definition M : Type -> Type := StateM Store Error.

Definition getStore : M NormalizedCache := fun st => (st, Ok (cache st)).

(** [store[id] = obj] for an object [obj] just made. *)
Definition storeAssign (id : string) (obj : StoreObject) : M unit :=
  fun st =>
    (mkStore (<[id := mkEntity (nextRef st) obj]> (cache st)) (S (nextRef st)), Ok tt).

(** [delete store[id]]. *)
Definition storeDelete (id : string) : M unit :=
  fun st => (mkStore (delete id (cache st)) (nextRef st), Ok tt).

(** ** Property access on result data *)

Definition string_of_nat (n : nat) : string := NilEmpty.string_of_uint (Nat.to_uint n).

Fixpoint indexOfKey {A : Type} (l : list A) (i : nat) (k : string) : option A :=
  match l with
  | [] => None
  | x :: rest => if String.eqb (string_of_nat i) k then Some x else indexOfKey rest (S i) k
  end.

Definition lengthOf {A : Type} (l : list A) : JSValue :=
  JPrim (PNumber (string_of_nat (length l))).

(** [o[k]] on result data: a [TypeError] on [undefined] and [null];
    otherwise the own property (of an array and of a string, the elements and
    [length]), and when there is none the member the prototype gives.  For a
    plain object and for [Object.prototype] that is the member of
    [Object.prototype]; for the other values it is [builtinMember o k], the
    member [o] takes from the prototype of its kind in the runtime
    ([undefined] when the prototypes have nothing of that name). *)
Definition getProp (builtinMember : JSValue -> string -> JSValue)
    (o : JSValue) (k : string) : Result Error JSValue :=
  match o with
  | JPrim PUndefined | JPrim PNull => Err TypeError
  | JPrim (PString s) =>
      match indexOfKey (list_ascii_of_string s) 0 k with
      | Some c => Ok (JPrim (PString (String c EmptyString)))
      | None =>
          if String.eqb k "length" then Ok (lengthOf (list_ascii_of_string s))
          else Ok (builtinMember o k)
      end
  | JArray items =>
      match indexOfKey items 0 k with
      | Some item => Ok item
      | None => if String.eqb k "length" then Ok (lengthOf items) else Ok (builtinMember o k)
      end
  | JObject props => Ok (getMember props k)
  | JObjectPrototype => Ok (if String.eqb k "__proto__" then null else inheritedMember k)
  | JPrim _ | JFunction _ => Ok (builtinMember o k)
  end.

(** ** writeToStore *)

(** [id[0] === '$']. *)
Definition isGeneratedId (id : string) : bool :=
  match id with
  | String c _ => Ascii.eqb c "$"
  | EmptyString => false
  end.

(** [assign({}, a, b)]. *)
Definition assign (a b : StoreObject) : StoreObject :=
  assignInto (assignInto [] a) b.

(** [storeValue !== existing] negated, for a [storeValue] made by the
    write in progress: only primitives can be [===] to what the store holds,
    an object just made is identical to no object of the store.  [None] is a
    property the store object does not have. *)
Definition sameStoreValue (storeValue : StoreValue) (existing : option StoreValue) : bool :=
  match storeValue, existing with
  | SVPrim p, Some (SVPrim q) => strictEq p q
  | SVPrim PUndefined, None => true
  | _, _ => false
  end.

(** The id [if (semanticId)] lets through: neither [null] nor empty. *)
Definition truthy (semanticId : option string) : option string :=
  match semanticId with
  | Some (String c s) => Some (String c s)
  | _ => None
  end.

Fixpoint mergeWithGenerated (fuel : nat) (generatedKey realKey : string) : M unit :=
  match fuel with
  | O => throw OutOfFuel
  | S fuel' =>
      letM store := getStore in
      match store !! generatedKey with
      | None => throw TypeError
      | Some generated =>
          let real := store !! realKey in
          forEach (keys (fields generated)) (fun key =>
            let value := lookupProp (fields generated) key in
            match real with
            | None => throw TypeError
            | Some real =>
                let realValue := lookupProp (fields real) key in
                match value, realValue with
                | Some (SVId id _), Some (SVId realId _) =>
                    if isGeneratedId id then mergeWithGenerated fuel' id realId else ret tt
                | _, _ => ret tt
                end;;
                storeDelete generatedKey;;
                storeAssign realKey (assign (fields generated) (fields real))
            end)
      end
  end.

Section Writer.
(** The members that values other than plain objects take from the
    prototypes of the runtime, as [getProp] reads them. *)
Variable builtinMember : JSValue -> string -> JSValue.
Variable Number : string -> string.
(** [shouldInclude] of [queries/directives]: whether the directives of a
    selection let it through under the variables. *)
Variable shouldInclude : SelectionNode -> option Obj -> bool.
Variable variables : option Obj.
(** [dataIdFromObject]; [None] when the caller passes [null], and a result
    of [None] when the callback returns [null] or [undefined]. *)
Variable dataIdFromObject : option (JSValue -> option string).
Variable fragmentMap : gmap string SelectionSet.

(** The callback's id for [value], when there is a callback and the id it
    returns is truthy. *)
Definition semanticIdOf (value : JSValue) : option string :=
  match dataIdFromObject with
  | Some idGetter => truthy (idGetter value)
  | None => None
  end.

(** The [forEach] of the array branch of [writeFieldToStore]; returns
    [thisIdList]. *)
Fixpoint writeItems (rec : string -> JSValue -> SelectionSet -> M unit)
    (dataId storeFieldName : string) (selectionSet : SelectionSet)
    (items : list JSValue) (index : nat) : M (list (option string)) :=
  match items with
  | [] => ret []
  | item :: rest =>
      letM pushed :=
        (if isNull item then ret None
         else
           let itemDataId :=
             dataId +:+ "." +:+ storeFieldName +:+ "." +:+ string_of_nat index in
           let itemDataId := default itemDataId (semanticIdOf item) in
           rec itemDataId item selectionSet;;
           ret (Some itemDataId)) in
      letM thisIdList := writeItems rec dataId storeFieldName selectionSet rest (S index) in
      ret (pushed :: thisIdList)
  end.

(** The id of a nested object and whether it is generated: the first half
    of the object branch of [writeFieldToStore]. *)
Definition objectDataId (dataId storeFieldName : string) (value : JSValue)
  : M (string * bool) :=
  let valueDataId := dataId +:+ "." +:+ storeFieldName in
  let valueDataId :=
    if isGeneratedId valueDataId then valueDataId else "$" +:+ valueDataId in
  match semanticIdOf value with
  | Some semanticId =>
      if isGeneratedId semanticId then throw IdentityViolation
      else ret (semanticId, false)
  | None => ret (valueDataId, true)
  end.

(** The check of the object branch against what the slot holds: throws
    when a generated id would replace a real one, and returns
    [generatedKey] when [shouldMerge] is set.  The test
    [store[dataId][storeFieldName] !== storeValue] that guards it holds
    whenever [store[dataId]] is there, [storeValue] being an object just
    made. *)
Definition checkOverwrite (dataId storeFieldName : string) (generated : bool)
  : M (option string) :=
  letM store := getStore in
  match store !! dataId with
  | Some obj =>
      match lookupProp (fields obj) storeFieldName with
      | Some (SVId escapedId escapedGenerated) =>
          if generated && negb escapedGenerated then throw (IdentityOverwrite escapedId)
          else if escapedGenerated then ret (Some escapedId)
          else ret None
      | _ => ret None
      end
  | None => ret None
  end.

(** The end of [writeFieldToStore]: [newStoreObj], the merge, and the
    conditional assignment of [store[dataId]]. *)
Definition storeField (fuel : nat) (dataId storeFieldName : string)
    (storeValue : StoreValue) (generatedKey : option string) : M unit :=
  letM store := getStore in
  let newStoreObj :=
    assign (default [] (fields <$> store !! dataId)) [(storeFieldName, storeValue)] in
  match generatedKey, storeValue with
  | Some generatedKey, SVId id _ => mergeWithGenerated fuel generatedKey id
  | _, _ => ret tt
  end;;
  letM store := getStore in
  match store !! dataId with
  | Some obj =>
      if sameStoreValue storeValue (lookupProp (fields obj) storeFieldName) then ret tt
      else storeAssign dataId newStoreObj
  | None => storeAssign dataId newStoreObj
  end.

Definition writeFieldToStore (fuel : nat)
    (rec : string -> JSValue -> SelectionSet -> M unit)
    (field : FieldNode) (selectionSet : option SelectionSet)
    (value : JSValue) (dataId : string) : M unit :=
  letM storeFieldName := liftR (storeKeyNameFromField Number variables field) in
  let leaf :=
    match value with
    | JPrim p => storeField fuel dataId storeFieldName (SVPrim p) None
    | _ => storeField fuel dataId storeFieldName (SVJson value) None
    end in
  match selectionSet with
  | None => leaf
  | Some selectionSet =>
      if isNull value then leaf
      else
        match value with
        | JArray items =>
            letM thisIdList := writeItems rec dataId storeFieldName selectionSet items 0 in
            storeField fuel dataId storeFieldName (SVList thisIdList) None
        | _ =>
            letM valueId := objectDataId dataId storeFieldName value in
            let valueDataId := fst valueId in
            let generated := snd valueId in
            rec valueDataId value selectionSet;;
            letM generatedKey := checkOverwrite dataId storeFieldName generated in
            storeField fuel dataId storeFieldName (SVId valueDataId generated) generatedKey
        end
  end.

(** The body of the [forEach] of [writeSelectionSetToStore]. *)
Definition writeSelection (fuel : nat)
    (rec : string -> JSValue -> SelectionSet -> M unit)
    (dataId : string) (result : JSValue) (selection : SelectionNode) : M unit :=
  let included := shouldInclude selection variables in
  match selection with
  | Field field selectionSet =>
      let resultFieldKey := resultKeyNameFromField field in
      letM value := liftR (getProp builtinMember result resultFieldKey) in
      if negb (isUndefined value)
      then writeFieldToStore fuel rec field selectionSet value dataId
      else ret tt
  | InlineFragment _ selectionSet =>
      if included then rec dataId result selectionSet else ret tt
  | FragmentSpread name _ =>
      match fragmentMap !! name with
      | None => throw (MissingFragment name)
      | Some fragment =>
          if included then rec dataId result fragment else ret tt
      end
  end.

(** One unit of fuel per nested call; a chain of fragment spreads that
    never ends is the only recursion the document does not bound. *)
Fixpoint writeSelectionSetToStore (fuel : nat) (dataId : string) (result : JSValue)
    (selectionSet : SelectionSet) : M unit :=
  match fuel with
  | O => throw OutOfFuel
  | S fuel' =>
      forEach selectionSet
        (writeSelection fuel' (writeSelectionSetToStore fuel') dataId result)
  end.
End Writer.

(** ** graph/write.ts: the graph writer *)

Module Graph.

(** A [GraphReference]: an id or [null], or an array of references. *)
Inductive GraphReference : Type :=
| RefId (id : option string)
| RefList (items : list GraphReference).

Record GraphDataNode : Type := mkNode {
  scalars : gmap string JSValue;
  references : gmap string GraphReference;
}.

Abbreviation GraphData := (gmap string GraphDataNode).

(** The data [writeToGraph] returns: field data as it came, arrays, and
    objects carrying their store id under the non-enumerable [ID_KEY]. *)
Inductive NextData : Type :=
| Raw (v : JSValue)
| NextArray (items : list NextData)
| NextObject (idKey : option string) (props : list (string * NextData)).

(** [NoDataForField] is the error thrown with [_partialWrite] set. *)
Inductive GraphError : Type :=
| NoDataForField (fieldName : string)
| ExpectedCompositeField (fieldName : string)
| ExpectedCompositeItem
| FragmentNotFound (fragmentName : string)
| GraphOutOfFuel.

Definition _partialWrite (error : GraphError) : bool :=
  match error with
  | NoDataForField _ => true
  | _ => false
  end.

Definition G : Type -> Type := StateM GraphData GraphError.

(** [try { body } catch (error) { if (!error._partialWrite) throw error }]
    around a fragment: what [body] did to the graph before it threw stays
    done. *)
Definition catchPartialWrite {A : Type} (body : G A) (otherwise : A) : G A :=
  fun graph =>
    match body graph with
    | (graph', Err error) =>
        if _partialWrite error then (graph', Ok otherwise) else (graph', Err error)
    | done => done
    end.

(** [id && f(id)]. *)
Definition andId (id : option string) (f : string -> string) : option string :=
  match id with
  | Some (String c s) => Some (f (String c s))
  | other => other
  end.

Definition emptyNode : GraphDataNode := mkNode ∅ ∅.

(** The node of [id] is made when the graph has none. *)
Definition initNode (id : option string) : G unit :=
  fun graph =>
    match id with
    | Some id =>
        match graph !! id with
        | Some _ => (graph, Ok tt)
        | None => (<[id := emptyNode]> graph, Ok tt)
        end
    | None => (graph, Ok tt)
    end.

(** [if (node) node.scalars[fieldKey] = fieldData]. *)
Definition setScalar (id : option string) (fieldKey : string) (fieldData : JSValue) : G unit :=
  fun graph =>
    match id with
    | Some id =>
        (alter (fun node => mkNode (<[fieldKey := fieldData]> (scalars node)) (references node))
           id graph, Ok tt)
    | None => (graph, Ok tt)
    end.

(** [if (node) node.references[fieldKey] = reference]. *)
Definition setReference (id : option string) (fieldKey : string)
    (reference : GraphReference) : G unit :=
  fun graph =>
    match id with
    | Some id =>
        (alter (fun node => mkNode (scalars node) (<[fieldKey := reference]> (references node)))
           id graph, Ok tt)
    | None => (graph, Ok tt)
    end.

Definition maybeAddTypeName (id : string) (data : Obj) : string :=
  match lookupProp data "__typename" with
  | Some (JPrim (PString typeName)) => id +:+ ":" +:+ typeName
  | _ => id
  end.

Fixpoint mapIndexed {A B : Type} (l : list A) (i : nat) (f : nat -> A -> G B) : G (list B) :=
  match l with
  | [] => ret []
  | x :: rest =>
      letM y := f i x in
      letM ys := mapIndexed rest (S i) f in
      ret (y :: ys)
  end.

Fixpoint foldSelections {A B : Type} (l : list A) (acc : B) (f : B -> A -> G B) : G B :=
  match l with
  | [] => ret acc
  | x :: rest =>
      letM acc' := f acc x in
      foldSelections rest acc' f
  end.

Section Write.
(** [getFieldKey(field, variables)] of [./common], at the variables of
    the write. *)
Variable getFieldKey : FieldNode -> string.
(** [getDataID]: [Some] when it returns a string. *)
Variable getDataID : JSValue -> option string.
Variable fragments : gmap string SelectionSet.

Definition objectID (id : option string) (path : string) (data : JSValue) (props : Obj)
  : option string :=
  match getDataID data with
  | Some dataID => Some ("(" +:+ dataID +:+ ")")
  | None => andId id (fun id => maybeAddTypeName (id +:+ path) props)
  end.

(** Data that is [Object.prototype] goes the way of an object, one
    without a property of its own. *)
Fixpoint writeArrayToStore
    (writeToGraph : option string -> Obj -> SelectionSet -> G NextData)
    (fuel : nat) (id : option string) (data : list JSValue)
    (selectionSet : SelectionSet) : G (GraphReference * NextData) :=
  match fuel with
  | O => throw GraphOutOfFuel
  | S fuel' =>
      letM written :=
        mapIndexed data 0 (fun i itemData =>
          let itemPath := "[" +:+ string_of_nat i +:+ "]" in
          match itemData with
          | JArray items =>
              writeArrayToStore writeToGraph fuel'
                (andId id (fun id => id +:+ itemPath)) items selectionSet
          | JPrim PNull => ret (RefId None, Raw null)
          | JPrim _ | JFunction _ => throw ExpectedCompositeItem
          | JObject props =>
              let itemID := objectID id itemPath itemData props in
              letM nextItemData := writeToGraph itemID props selectionSet in
              ret (RefId itemID, nextItemData)
          | JObjectPrototype =>
              let itemID := objectID id itemPath itemData [] in
              letM nextItemData := writeToGraph itemID [] selectionSet in
              ret (RefId itemID, nextItemData)
          end) in
      ret (RefList (map fst written), NextArray (map snd written))
  end.

(** The body of the [forEach] of [writeToGraph]; [nextData] is the
    object under construction. *)
Definition writeSelection (fuel : nat)
    (writeToGraph : option string -> Obj -> SelectionSet -> G NextData)
    (id : option string) (data : Obj)
    (nextData : list (string * NextData)) (selection : SelectionNode)
  : G (list (string * NextData)) :=
  let writeFragment (selectionSet : SelectionSet) :=
    catchPartialWrite
      (letM fragmentData := writeToGraph id data selectionSet in
       match fragmentData with
       | NextObject _ props => ret (assignInto nextData props)
       | _ => ret nextData
       end)
      nextData in
  match selection with
  | Field field fieldSelectionSet =>
      let fieldName := resultKeyNameFromField field in
      let fieldData := default undefined (lookupProp data fieldName) in
      let fieldKey := getFieldKey field in
      if isUndefined fieldData then throw (NoDataForField fieldName)
      else
        match fieldSelectionSet with
        | None =>
            setScalar id fieldKey fieldData;;
            ret (setProp nextData fieldName (Raw fieldData))
        | Some fieldSelectionSet =>
            match fieldData with
            | JPrim PNull =>
                setReference id fieldKey (RefId None);;
                ret (setProp nextData fieldName (Raw null))
            | JPrim _ | JFunction _ => throw (ExpectedCompositeField fieldName)
            | JArray items =>
                letM written :=
                  writeArrayToStore writeToGraph fuel
                    (andId id (fun id => id +:+ "." +:+ fieldKey)) items fieldSelectionSet in
                setReference id fieldKey (fst written);;
                ret (setProp nextData fieldName (snd written))
            | JObject props =>
                let fieldID := objectID id ("." +:+ fieldKey) fieldData props in
                setReference id fieldKey (RefId fieldID);;
                letM nextFieldData := writeToGraph fieldID props fieldSelectionSet in
                ret (setProp nextData fieldName nextFieldData)
            | JObjectPrototype =>
                let fieldID := objectID id ("." +:+ fieldKey) fieldData [] in
                setReference id fieldKey (RefId fieldID);;
                letM nextFieldData := writeToGraph fieldID [] fieldSelectionSet in
                ret (setProp nextData fieldName nextFieldData)
            end
        end
  | FragmentSpread fragmentName _ =>
      match fragments !! fragmentName with
      | None => throw (FragmentNotFound fragmentName)
      | Some fragment => writeFragment fragment
      end
  | InlineFragment _ selectionSet => writeFragment selectionSet
  end.

Fixpoint writeToGraph (fuel : nat) (id : option string) (data : Obj)
    (selectionSet : SelectionSet) : G NextData :=
  match fuel with
  | O => throw GraphOutOfFuel
  | S fuel' =>
      initNode id;;
      letM nextData :=
        foldSelections selectionSet []
          (writeSelection fuel' (writeToGraph fuel') id data) in
      ret (NextObject id nextData)
  end.
End Write.

End Graph.

(** ** The optimistic layer stack *)

Module Optimistic.

(** Modelled from the spec: the store of the layer stack, a mapping from
    entity id to entity, an entity being a mapping from field key to store
    value (the implementation of the stack is not among the sources). *)
Abbreviation EntityFields := (gmap string StoreValue).
(** Modelled from the spec: the store, a mapping from entity id to
    entity. *)
Abbreviation FlatStore := (gmap string EntityFields).

(** Modelled from the spec: an optimistic layer, the diff of one
    speculative write tagged with its mutation id, with the write function
    kept for replay.  The write function reads the effective store below
    the layer and returns the diff it writes. *)
Record Layer : Type := mkLayer {
  mutationId : string;
  writeFn : FlatStore -> FlatStore;
  diff : FlatStore;
}.

(** Modelled from the spec: the base store and the ordered layers over
    it, the most recently pushed layer first. *)
Record Stack : Type := mkStack {
  base : FlatStore;
  layers : list Layer;
}.

(** Modelled from the spec: [lower ⊕ upper], the upper store shadowing
    the lower one field by field. *)
Definition overlay (upper lower : FlatStore) : FlatStore :=
  union_with (fun upperFields lowerFields => Some (upperFields ∪ lowerFields)) upper lower.

(** Modelled from the spec: the effective store
    [base ⊕ layer1 ⊕ ... ⊕ layern], later layers shadowing earlier ones. *)
Fixpoint effectiveOver (base : FlatStore) (layers : list Layer) : FlatStore :=
  match layers with
  | [] => base
  | top :: below => overlay (diff top) (effectiveOver base below)
  end.

Definition effective (s : Stack) : FlatStore := effectiveOver (base s) (layers s).

(** Modelled from the spec: [read(id, field)] scans the layers top to
    bottom, the first layer defining [(id, field)] wins, otherwise the base
    is read. *)
Fixpoint readOver (base : FlatStore) (layers : list Layer) (id field : string)
  : option StoreValue :=
  match layers with
  | [] => base !! id ≫= (.!! field)
  | top :: below =>
      match diff top !! id ≫= (.!! field) with
      | Some v => Some v
      | None => readOver base below id field
      end
  end.

Definition read (s : Stack) (id field : string) : option StoreValue :=
  readOver (base s) (layers s) id field.

(** Modelled from the spec: [record(mutationId, writeFn)] applies
    [writeFn] to a fresh diff over the current effective store and pushes
    the result as a new layer tagged with [mutationId]. *)
Definition recordOptimistic (m : string) (f : FlatStore -> FlatStore) (s : Stack) : Stack :=
  mkStack (base s) (mkLayer m f (f (effective s)) :: layers s).

(** Modelled from the spec: the layers above the layer tagged [m] (top
    first) and the layers below it, scanning from the top; [None] when no
    layer carries the tag. *)
Fixpoint splitAtLayer (m : string) (layers : list Layer)
  : option (list Layer * list Layer) :=
  match layers with
  | [] => None
  | top :: below =>
      if String.eqb (mutationId top) m then Some ([], below)
      else
        match splitAtLayer m below with
        | Some (above, below') => Some (top :: above, below')
        | None => None
        end
  end.

(** Modelled from the spec: the rebase, which runs the recorded write
    functions of the layers again, in the order they were pushed, each over
    the effective store under it. *)
Definition rebase (base : FlatStore) (below above : list Layer) : list Layer :=
  fold_left
    (fun under layer =>
       mkLayer (mutationId layer) (writeFn layer) (writeFn layer (effectiveOver base under))
         :: under)
    (rev above) below.

(** Modelled from the spec: [remove(mutationId)] drops the matching layer
    and rebases all layers above it. *)
Definition removeOptimistic (m : string) (s : Stack) : Stack :=
  match splitAtLayer m (layers s) with
  | Some (above, below) => mkStack (base s) (rebase (base s) below above)
  | None => s
  end.

End Optimistic.

(** ** Concrete documents, results and callbacks *)

(** [Number] on a literal written the way [toString] prints its value. *)
Definition canonicalNumber (text : string) : string := text.

(** A runtime whose other prototypes add nothing to [Object.prototype]. *)
Definition objectMembers (o : JSValue) (k : string) : JSValue := inheritedMember k.

(** [shouldInclude] on selections that carry no directive. *)
Definition includeAll (selection : SelectionNode) (variables : option Obj) : bool := true.

(** The [dataIdFromObject] of the optimistic tests:
    [obj.__typename + obj.id] when both are there. *)
Definition typenameAndId (obj : JSValue) : option string :=
  match obj with
  | JObject props =>
      match lookupProp props "id", lookupProp props "__typename" with
      | Some (JPrim (PString id)), Some (JPrim (PString typeName)) =>
          if negb (String.eqb id EmptyString) && negb (String.eqb typeName EmptyString)
          then Some (typeName +:+ id) else None
      | _, _ => None
      end
  | _ => None
  end.

Definition str (s : string) : JSValue := JPrim (PString s).

Definition scalarField (fieldName : string) : SelectionNode :=
  Field (mkField None fieldName [] []) None.

Definition objectField (fieldName : string) (selectionSet : SelectionSet) : SelectionNode :=
  Field (mkField None fieldName [] []) (Some selectionSet).

Definition emptyStore : Store := mkStore ∅ 0.

(** [f(a: "x", b: "y")] and [f(b: "y", a: "x")]. *)
Definition fieldAB : FieldNode :=
  mkField None "f" [("a", StringValue "x"); ("b", StringValue "y")] [].
Definition fieldBA : FieldNode :=
  mkField None "f" [("b", StringValue "y"); ("a", StringValue "x")] [].

(** [f(b: "y", __proto__: "z", a: "x")]. *)
Definition fieldProtoBA : FieldNode :=
  mkField None "f"
    [("b", StringValue "y"); ("__proto__", StringValue "z"); ("a", StringValue "x")] [].

(** [f(x: $__proto__)], and variables that do not bind [__proto__]. *)
Definition fieldProtoVariable : FieldNode :=
  mkField None "f" [("x", Variable_ "__proto__")] [].
Definition someVariables : option Obj := Some [("w", str "bound")].

(** A field with no selection set whose value is an object: stored as a
    JSON blob. *)
Definition blobField : FieldNode := mkField None "settings" [] [].
Definition blobValue : JSValue := JObject [("theme", str "dark")].
Definition writeBlob : M unit :=
  writeFieldToStore canonicalNumber None None 1
    (writeSelectionSetToStore objectMembers canonicalNumber includeAll None None ∅ 1)
    blobField None blobValue "ROOT_QUERY".

(** A scalar field. *)
Definition writeName : M unit :=
  writeFieldToStore canonicalNumber None None 1
    (writeSelectionSetToStore objectMembers canonicalNumber includeAll None None ∅ 1)
    (mkField None "name" [] []) None (str "A") "ROOT_QUERY".

(** [{ user { name friend { name } } }], written first without ids and then
    with them (scenario 3 of the spec, one level deeper). *)
Definition userQuery : SelectionSet :=
  [objectField "user"
     [scalarField "id"; scalarField "__typename"; scalarField "name";
      objectField "friend" [scalarField "id"; scalarField "__typename"; scalarField "name"]]].

Definition userWithoutId : JSValue :=
  JObject [("user", JObject [("name", str "Ada");
                             ("friend", JObject [("name", str "Bob")])])].

Definition userValueWithId : JSValue :=
  JObject [("id", str "42"); ("__typename", str "User"); ("name", str "Ada L.");
           ("friend", JObject [("id", str "7"); ("__typename", str "User");
                               ("name", str "Bob")])].

Definition userWithId : JSValue := JObject [("user", userValueWithId)].

Definition writeUsers (fuel : nat) : string -> JSValue -> SelectionSet -> M unit :=
  writeSelectionSetToStore objectMembers canonicalNumber includeAll None (Some typenameAndId) ∅ fuel.

(** The store after the write without ids. *)
Definition storeWithGeneratedUser : Store :=
  fst (writeUsers 5 "ROOT_QUERY" userWithoutId userQuery emptyStore).

Definition userFieldNode : FieldNode := mkField None "user" [] [].
Definition userSelectionSet : SelectionSet :=
  [scalarField "id"; scalarField "__typename"; scalarField "name";
   objectField "friend" [scalarField "id"; scalarField "__typename"; scalarField "name"]].

(** The write of the [user] field with ids over that store. *)
Definition writeUserWithId : M unit :=
  writeFieldToStore canonicalNumber None (Some typenameAndId) 4 (writeUsers 4)
    userFieldNode (Some userSelectionSet) userValueWithId "ROOT_QUERY".

(** The store after the write with ids, and the write without ids over
    it (scenario 4 of the spec). *)
Definition storeWithRealUser : Store :=
  fst (writeUsers 5 "ROOT_QUERY" userWithId userQuery emptyStore).

Definition userValueWithoutId : JSValue :=
  JObject [("name", str "Ada"); ("friend", JObject [("name", str "Bob")])].

Definition writeUserWithoutId : M unit :=
  writeFieldToStore canonicalNumber None (Some typenameAndId) 4 (writeUsers 4)
    userFieldNode (Some userSelectionSet) userValueWithoutId "ROOT_QUERY".

(** [{ todos { text } }] over a list with one item that has no id. *)
Definition todosField : FieldNode := mkField None "todos" [] [].
Definition todosValue : JSValue := JArray [JObject [("text", str "hi")]].

Definition writeTodos (dataIdFromObject : option (JSValue -> option string)) : M unit :=
  writeFieldToStore canonicalNumber None dataIdFromObject 2
    (writeSelectionSetToStore objectMembers canonicalNumber includeAll None dataIdFromObject ∅ 2)
    todosField (Some [scalarField "text"]) todosValue "ROOT_QUERY".

(** A [dataIdFromObject] that returns an id beginning with [$]. *)
Definition dollarId (obj : JSValue) : option string := Some "$Todo3".

(** The same [todos] value as a single nested object. *)
Definition writeTodo (dataIdFromObject : option (JSValue -> option string)) : M unit :=
  writeFieldToStore canonicalNumber None dataIdFromObject 2
    (writeSelectionSetToStore objectMembers canonicalNumber includeAll None dataIdFromObject ∅ 2)
    (mkField None "todo" [] []) (Some [scalarField "text"])
    (JObject [("text", str "hi")]) "ROOT_QUERY".

(** ** Notions used to state the properties *)

(** The ids [writeItems] returns for [items], the first of them at
    position [index]. *)
Fixpoint itemIds (dataIdFromObject : option (JSValue -> option string))
    (dataId storeFieldName : string) (items : list JSValue) (index : nat)
  : list (option string) :=
  match items with
  | [] => []
  | item :: rest =>
      (if isNull item then None
       else Some (default (dataId +:+ "." +:+ storeFieldName +:+ "." +:+ string_of_nat index)
                    (semanticIdOf dataIdFromObject item)))
        :: itemIds dataIdFromObject dataId storeFieldName rest (S index)
  end.

(** The argument names that make a property of the argument object: all
    but [__proto__]. *)
Definition propertyNames (names : list string) : list string :=
  List.filter (fun n => negb (String.eqb n "__proto__")) names.

(** The merge that [mergeWithGenerated] descends into at the field [key]
    of the store objects [generated] and [real]: the ids of a generated
    reference of [generated] and of the reference [real] has at [key]. *)
Definition mergedField (generated real : StoreObject) (key : string)
  : option (string * string) :=
  match lookupProp generated key, lookupProp real key with
  | Some (SVId id _), Some (SVId realId _) =>
      if isGeneratedId id then Some (id, realId) else None
  | _, _ => None
  end.

(** One turn of the loop of [mergeWithGenerated], with [merge] for the
    nested call. *)
Definition mergeTurn (merge : string -> string -> M unit) (generatedKey realKey : string)
    (generated real : StoreObject) (key : string) : M unit :=
  match mergedField generated real key with
  | Some (id, realId) => merge id realId
  | None => ret tt
  end;;
  storeDelete generatedKey;;
  storeAssign realKey (assign generated real).

(** The pairs of ids, generated and real, that the merge of [generatedKey]
    into [realKey] merges over the cache [c], itself first and then the
    pairs of the merges it descends into, in the order of the calls, down to
    [depth] calls. *)
Fixpoint mergePairs (depth : nat) (c : NormalizedCache) (generatedKey realKey : string)
  : list (string * string) :=
  match depth with
  | O => []
  | S depth' =>
      (generatedKey, realKey) ::
      match c !! generatedKey, c !! realKey with
      | Some generated, Some real =>
          flat_map (fun key =>
                      match mergedField (fields generated) (fields real) key with
                      | Some (id, realId) => mergePairs depth' c id realId
                      | None => []
                      end)
            (keys (fields generated))
      | _, _ => []
      end
  end.

(** The ids of a list of pairs. *)
Definition pairIds (pairs : list (string * string)) : list string :=
  flat_map (fun pair => [fst pair; snd pair]) pairs.

(** The merge of [generatedKey] into [realKey] finds what it needs, within
    [depth] calls: both entities are in the cache, the generated one with a
    field at least, and so it is for every merge it descends into. *)
Fixpoint mergeable (depth : nat) (c : NormalizedCache) (generatedKey realKey : string)
  : bool :=
  match depth with
  | O => false
  | S depth' =>
      match c !! generatedKey, c !! realKey with
      | Some generated, Some real =>
          match fields generated with
          | [] => false
          | _ =>
              forallb (fun key =>
                         match mergedField (fields generated) (fields real) key with
                         | Some (id, realId) => mergeable depth' c id realId
                         | None => true
                         end)
                (keys (fields generated))
          end
      | _, _ => false
      end
  end.

(** What the merges of [pairs] make of the cache [c]: in [c'] the
    generated entity of every pair is gone and the real entity of the pair
    holds the fields the two have in [c]; the entities of no pair are as
    they were. *)
Definition absorbs (pairs : list (string * string)) (c c' : NormalizedCache) : Prop :=
  (forall generatedKey realKey generated real,
     (generatedKey, realKey) ∈ pairs ->
     c !! generatedKey = Some generated -> c !! realKey = Some real ->
     c' !! generatedKey = None /\
     fields <$> c' !! realKey = Some (assign (fields generated) (fields real))) /\
  (forall id, id ∉ pairIds pairs -> c' !! id = c !! id).

(** [getFieldKey] on fields without arguments, and a [getDataID] that
    names no id (the default of [writeToGraph]). *)
Definition fieldNameKey (field : FieldNode) : string := name field.
Definition noDataID (data : JSValue) : option string := None.

(** [{ c ... { a b } d }] over data that has [a], [c] and [d] but no [b]. *)
Definition partialSelectionSet : SelectionSet :=
  [scalarField "c"; InlineFragment [] [scalarField "a"; scalarField "b"]; scalarField "d"].
Definition partialData : Obj := [("a", str "1"); ("c", str "3"); ("d", str "4")].

Definition writePartial : Graph.G Graph.NextData :=
  Graph.writeToGraph fieldNameKey noDataID ∅ 3 (Some "ROOT") partialData partialSelectionSet.

(** ** Notions used to state further properties *)

(** The value nodes the field-key encoder has a case for, all the way
    down. *)
Fixpoint supportedValue (value : ValueNode) : bool :=
  match value with
  | ObjectValue fields => forallb (fun obj => supportedValue (snd obj)) fields
  | ListValue values => forallb supportedValue values
  | OtherValue _ => false
  | _ => true
  end.

(** A value node with its enum values written as strings. *)
Fixpoint enumAsString (value : ValueNode) : ValueNode :=
  match value with
  | EnumValue v => StringValue v
  | ObjectValue fields => ObjectValue (map (fun obj => (fst obj, enumAsString (snd obj))) fields)
  | ListValue values => ListValue (map enumAsString values)
  | other => other
  end.

(** A string without an opening parenthesis, as every GraphQL name is. *)
Fixpoint noParen (s : string) : bool :=
  match s with
  | EmptyString => true
  | String c rest => negb (Ascii.eqb c "(") && noParen rest
  end.

Definition hexValue (c : ascii) : nat :=
  let n := nat_of_ascii c in
  if n <? 58 then n - 48 else n - 87.

(** Reading back what [escapeString] writes. *)
Fixpoint unescapeString (s : string) : string :=
  match s with
  | EmptyString => EmptyString
  | String c rest =>
      if nat_of_ascii c =? 92 then
        match rest with
        | EmptyString => EmptyString
        | String d rest' =>
            let n := nat_of_ascii d in
            if n =? 117 then
              match rest' with
              | String _ (String _ (String h (String l rest''))) =>
                  String (ascii_of_nat (16 * hexValue h + hexValue l)) (unescapeString rest'')
              | _ => EmptyString
              end
            else
              String (ascii_of_nat
                        (if n =? 98 then 8 else if n =? 116 then 9 else if n =? 110 then 10
                         else if n =? 102 then 12 else if n =? 114 then 13 else n))
                (unescapeString rest')
        end
      else String c (unescapeString rest)
  end.

(** What the store holds at a field of an entity. *)
Definition slot (st : Store) (dataId key : string) : option StoreValue :=
  (fields <$> cache st !! dataId) ≫= (fun obj => lookupProp obj key).

(** A run that did not stop for want of fuel. *)
Definition settled {A : Type} (outcome : Store * Result Error A) : Prop :=
  snd outcome <> Err OutOfFuel.

(** A node that keeps the keys of another, and a graph that keeps the
    nodes of another. *)
Definition nodeGrows (node node' : Graph.GraphDataNode) : Prop :=
  (forall k, is_Some (Graph.scalars node !! k) -> is_Some (Graph.scalars node' !! k)) /\
  (forall k, is_Some (Graph.references node !! k) -> is_Some (Graph.references node' !! k)).

Definition graphGrows (graph graph' : gmap string Graph.GraphDataNode) : Prop :=
  forall id node,
    graph !! id = Some node -> exists node', graph' !! id = Some node' /\ nodeGrows node node'.

(** A step of the graph writer that takes every graph to a graph related
    to it by [R]. *)
Definition keeps {A : Type} (R : relation (gmap string Graph.GraphDataNode))
    (m : Graph.G A) : Prop :=
  forall graph graph' r, m graph = (graph', r) -> R graph graph'.

(** A step of the graph writer whose outcome does not depend on the
    graph. *)
Definition oblivious {A : Type} (m : Graph.G A) : Prop :=
  forall graph1 graph2, snd (m graph1) = snd (m graph2).

(** [{ user { name } }] over a [user] object that has none of the fields
    selected, and the store after its first write. *)
Definition noFields : JSValue := JObject [].

Definition writeUserWithoutFields : M unit :=
  writeFieldToStore canonicalNumber None None 2
    (writeSelectionSetToStore objectMembers canonicalNumber includeAll None None ∅ 2)
    userFieldNode (Some [scalarField "name"]) noFields "ROOT_QUERY".

Definition storeWithDanglingUser : Store := fst (writeUserWithoutFields emptyStore).

(** * Properties *)

(** ** Property lists *)

Section PropsFacts.
Context {V : Type}.
Implicit Types (o : list (string * V)) (k : string) (v : V).

Lemma lookupProp_setProp_eq o k v : lookupProp (setProp o k v) k = Some v.
Proof.
  induction o as [|[k' v'] o IH]; simpl.
  - by rewrite String.eqb_refl.
  - destruct (String.eqb k' k) eqn:E; simpl.
    + by rewrite String.eqb_refl.
    + by rewrite E.
Qed.

Lemma lookupProp_setProp_ne o k k' v :
  k ≠ k' -> lookupProp (setProp o k v) k' = lookupProp o k'.
Proof.
  intros Hne. induction o as [|[k0 v0] o IH]; simpl.
  - destruct (String.eqb k k') eqn:E; [|done].
    by apply String.eqb_eq in E.
  - destruct (String.eqb k0 k) eqn:E; simpl.
    + apply String.eqb_eq in E. subst k0.
      destruct (String.eqb k k') eqn:E'; [|done].
      by apply String.eqb_eq in E'.
    + by rewrite IH.
Qed.

Lemma lookupProp_assignInto target source k :
  lookupProp (assignInto target source) k =
    match lookupProp (rev source) k return option V with
    | Some v => Some v
    | None => lookupProp target k
    end.
Proof.
  unfold assignInto. revert target.
  induction source as [|[k0 v0] source IH]; intros target; simpl; [done|].
  rewrite IH. clear IH.
  assert (Hrev : forall (l : list (string * V)),
    lookupProp (l ++ [(k0, v0)]) k =
      match lookupProp l k return option V with
      | Some v => Some v
      | None => if String.eqb k0 k then Some v0 else None
      end).
  { induction l as [|[k1 v1] l IHl]; simpl; [done|].
    destruct (String.eqb k1 k); [done|apply IHl]. }
  rewrite Hrev. destruct (lookupProp (rev source) k); [done|].
  destruct (String.eqb k0 k) eqn:E.
  - apply String.eqb_eq in E. subst. apply lookupProp_setProp_eq.
  - apply lookupProp_setProp_ne. intros ->. by rewrite String.eqb_refl in E.
Qed.

Lemma lookupProp_None_rev o k : lookupProp o k = None -> lookupProp (rev o) k = None.
Proof.
  induction o as [|[k0 v0] o IH]; simpl; [done|].
  destruct (String.eqb k0 k) eqn:E; [done|]. intros H.
  specialize (IH H). revert IH. generalize (rev o). intros l.
  induction l as [|[k1 v1] l IHl]; simpl; [by rewrite E|].
  destruct (String.eqb k1 k); [done|]. apply IHl.
Qed.

Lemma lookupProp_rev_is_Some o k :
  is_Some (lookupProp (rev o) k) <-> is_Some (lookupProp o k).
Proof.
  split; intros [v Hv].
  - destruct (lookupProp o k) eqn:E; [by eexists|].
    apply lookupProp_None_rev in E. congruence.
  - destruct (lookupProp (rev o) k) eqn:E; [by eexists|].
    apply lookupProp_None_rev in E. rewrite rev_involutive in E. congruence.
Qed.

Lemma keys_setProp_new o k v :
  k ∉ keys o -> keys (setProp o k v) = keys o ++ [k].
Proof.
  unfold keys. induction o as [|[k0 v0] o IH]; simpl; [done|].
  intros Hk. apply not_elem_of_cons in Hk as [Hne Hk].
  destruct (String.eqb k0 k) eqn:E.
  - apply String.eqb_eq in E. congruence.
  - simpl. by rewrite IH.
Qed.

Lemma lookupProp_In_keys o k : k ∈ keys o -> is_Some (lookupProp o k).
Proof.
  unfold keys. induction o as [|[k0 v0] o IH]; simpl.
  - intros H. by apply elem_of_nil in H.
  - intros H. destruct (String.eqb k0 k) eqn:E; [by eexists|].
    apply elem_of_cons in H as [->|H]; [by rewrite String.eqb_refl in E|by apply IH].
Qed.
Lemma lookupProp_app (a b : list (string * V)) k :
  lookupProp (a ++ b) k =
    match lookupProp a k return option V with
    | Some v => Some v
    | None => lookupProp b k
    end.
Proof.
  induction a as [|[k1 v1] a IH]; simpl; [done|].
  destruct (String.eqb k1 k); [done|apply IH].
Qed.

Lemma lookupProp_not_key o k : k ∉ keys o -> lookupProp o k = None.
Proof.
  intros Hk. destruct (lookupProp o k) as [v|] eqn:E; [|done].
  destruct Hk. unfold keys. clear -E.
  induction o as [|[k0 v0] o IH]; simpl in *; [done|].
  destruct (String.eqb k0 k) eqn:Ek.
  - apply String.eqb_eq in Ek. subst. left.
  - right. by apply IH.
Qed.

(** In an object, whose keys are distinct, the order of search does not
    matter. *)
Lemma lookupProp_rev_NoDup o k : NoDup (keys o) -> lookupProp (rev o) k = lookupProp o k.
Proof.
  unfold keys. induction o as [|[k0 v0] o IH]; simpl; [done|].
  intros Hnd. apply NoDup_cons in Hnd as [Hk0 Hnd].
  rewrite lookupProp_app, IH by done. simpl.
  destruct (String.eqb k0 k) eqn:E.
  - apply String.eqb_eq in E. subst. by rewrite lookupProp_not_key.
  - by destruct (lookupProp o k).
Qed.
End PropsFacts.

(** ** The field-key encoder *)

Lemma lookupProp_assignProp_ne (o : Obj) k k' v :
  k ≠ k' -> lookupProp (assignProp o k v) k' = lookupProp o k'.
Proof.
  intros Hne. unfold assignProp.
  destruct (lookupProp o k); [by apply lookupProp_setProp_ne|].
  destruct (String.eqb k "__proto__"); [done|by apply lookupProp_setProp_ne].
Qed.

(** A name the object does not have makes a new last property, unless it
    is [__proto__], which makes none. *)
Lemma keys_assignProp_new (o : Obj) k v :
  k ∉ keys o -> keys (assignProp o k v) = keys o ++ propertyNames [k].
Proof.
  intros Hk. unfold assignProp, propertyNames. rewrite (lookupProp_not_key o k Hk).
  cbn [List.filter]. destruct (String.eqb k "__proto__"); cbn [negb].
  - by rewrite app_nil_r.
  - by apply keys_setProp_new.
Qed.

Section FieldKeyFacts.
Variable Number : string -> string.
Variable variables : option Obj.

Local Abbreviation vtor := (valueToObjectRepresentation Number variables).
Local Abbreviation args2obj := (argumentsToObject Number variables).

(** A conversion that succeeds makes one assignment, of a value that
    does not depend on the object it is made on. *)
Lemma valueToObjectRepresentation_assigns argObj name value o :
  vtor argObj name value = Ok o ->
  exists val, o = assignProp argObj name val /\
    forall argObj', vtor argObj' name value = Ok (assignProp argObj' name val).
Proof.
  destruct value; simpl; intros H;
    try (injection H as <-; eexists; split; reflexivity);
    try discriminate.
  - match type of H with bindR ?r _ = _ => destruct r as [nested|e] eqn:E end;
      simpl in H; [|discriminate].
    injection H as <-. exists (JObject nested). by split.
  - match type of H with bindR ?r _ = _ => destruct r as [items|e] eqn:E end;
      simpl in H; [|discriminate].
    injection H as <-. exists (JArray items). by split.
Qed.

(** Whether a conversion fails does not depend on the object either. *)
Lemma valueToObjectRepresentation_Err argObj argObj' name value e :
  vtor argObj name value = Err e -> vtor argObj' name value = Err e.
Proof.
  destruct value; simpl; intros H; try discriminate; try done.
  - match type of H with bindR ?r _ = _ => destruct r as [nested|e'] eqn:E end;
      simpl in H; [discriminate|]. done.
  - match type of H with bindR ?r _ = _ => destruct r as [items|e'] eqn:E end;
      simpl in H; [discriminate|]. done.
Qed.

(** With pairwise distinct argument names, the properties of the argument
    object stand in the order the arguments are written, an argument named
    [__proto__] making none. *)
Lemma argumentsToObject_keys args argObj o :
  args2obj args argObj = Ok o ->
  NoDup (keys argObj ++ map fst args) ->
  keys o = keys argObj ++ propertyNames (map fst args).
Proof.
  revert argObj. induction args as [|[n v] args IH]; intros argObj.
  - cbn. intros [= <-] _. by rewrite app_nil_r.
  - cbn [argumentsToObject map fst].
    destruct (vtor argObj n v) as [argObj'|e] eqn:E; cbn [bindR]; [|discriminate].
    intros Hrest Hnd.
    apply valueToObjectRepresentation_assigns in E as (val & -> & _).
    assert (Hn : n ∉ keys argObj).
    { apply NoDup_app in Hnd as (_ & Hdisj & _). intros Hin.
      apply (Hdisj n Hin). left. }
    assert (Hsplit : propertyNames (n :: map fst args) =
                       propertyNames [n] ++ propertyNames (map fst args)).
    { unfold propertyNames. cbn [List.filter]. by destruct (negb _). }
    rewrite Hsplit, app_assoc, <- (keys_assignProp_new argObj n val) by done.
    apply IH; [done|]. rewrite (keys_assignProp_new argObj n val) by done.
    unfold propertyNames. cbn [List.filter].
    destruct (negb (String.eqb n "__proto__")).
    + by rewrite <- app_assoc.
    + rewrite app_nil_r. apply NoDup_app in Hnd as (Hk & Hdisj & Hargs).
      apply NoDup_app. split; [done|]. split.
      * intros k Hin Hin'. apply (Hdisj k Hin). by right.
      * by apply NoDup_cons in Hargs as [_ ?].
Qed.

Lemma storeKeyNameFromField_no_arguments field :
  arguments field = [] -> storeKeyNameFromField Number variables field = Ok (name field).
Proof. unfold storeKeyNameFromField. by intros ->. Qed.

Lemma storeKeyNameFromField_nonempty field :
  arguments field ≠ [] ->
  storeKeyNameFromField Number variables field =
    bindR (args2obj (arguments field) [])
      (fun argObj => Ok (storeKeyNameFromFieldNameAndArgs (name field) (Some argObj))).
Proof. unfold storeKeyNameFromField. by destruct (arguments field). Qed.

Lemma storeKeyNameFromField_arguments field argObj :
  arguments field ≠ [] ->
  args2obj (arguments field) [] = Ok argObj ->
  storeKeyNameFromField Number variables field =
    Ok (name field +:+ "(" +:+ JSON_stringify (JObject argObj) +:+ ")").
Proof.
  unfold storeKeyNameFromField. destruct (arguments field) as [|a args]; [done|].
  intros _ H. by rewrite H.
Qed.
End FieldKeyFacts.




(** ** Unbound variables in arguments *)

Section DeleteFacts.
Context {V : Type}.
Implicit Types (o : list (string * V)) (k : string) (v : V).

Lemma deleteProp_setProp_ne o n x v :
  n ≠ x -> deleteProp (setProp o n v) x = setProp (deleteProp o x) n v.
Proof.
  intros Hne. assert (Hnx : String.eqb n x = false) by by apply String.eqb_neq.
  induction o as [|[k0 v0] o IH]; simpl.
  - by rewrite Hnx.
  - destruct (String.eqb k0 n) eqn:En; simpl.
    + apply String.eqb_eq in En. subst k0. by rewrite Hnx; simpl; rewrite String.eqb_refl.
    + destruct (String.eqb k0 x) eqn:Ex; simpl; [done|]. by rewrite En, IH.
Qed.

Lemma deleteProp_absent o x : lookupProp o x = None -> deleteProp o x = o.
Proof.
  induction o as [|[k0 v0] o IH]; simpl; [done|].
  destruct (String.eqb k0 x); [done|]. intros H. by rewrite IH.
Qed.

Lemma lookupProp_deleteProp_ne o n x :
  n ≠ x -> lookupProp (deleteProp o x) n = lookupProp o n.
Proof.
  intros Hne. induction o as [|[k0 v0] o IH]; simpl; [done|].
  destruct (String.eqb k0 x) eqn:Ex; simpl.
  - apply String.eqb_eq in Ex. subst k0.
    destruct (String.eqb x n) eqn:En; [|done].
    apply String.eqb_eq in En. by subst.
  - by rewrite IH.
Qed.

Lemma setProp_same o x v : lookupProp o x = Some v -> setProp o x v = o.
Proof.
  induction o as [|[k0 v0] o IH]; simpl; [done|].
  destruct (String.eqb k0 x) eqn:E.
  - apply String.eqb_eq in E. by intros [= ->]; subst.
  - intros H. by rewrite IH.
Qed.
End DeleteFacts.

(** The members [JSON.stringify] prints for the properties of an object. *)
Lemma stringify_JObject props :
  stringify (JObject props) =
    Some ("{" +:+ joinComma (flat_map (fun kv : string * JSValue =>
            match stringify (snd kv) with
            | Some s => [quote (fst kv) +:+ ":" +:+ s]
            | None => []
            end) props) +:+ "}").
Proof. reflexivity. Qed.

(** [JSON.stringify] leaves out a property whose value is [undefined]. *)
Lemma stringify_omits_undefined props x :
  lookupProp props x = Some undefined ->
  stringify (JObject props) = stringify (JObject (deleteProp props x)).
Proof.
  intros H. rewrite !stringify_JObject.
  set (member := fun kv : string * JSValue => _).
  assert (flat_map member props = flat_map member (deleteProp props x)) as ->; [|done].
  induction props as [|[k0 v0] props IH]; [done|].
  cbn [lookupProp deleteProp flat_map] in H |- *.
  destruct (String.eqb k0 x).
  - injection H as ->. reflexivity.
  - cbn [flat_map]. by rewrite IH.
Qed.

Lemma stringify_setProp_undefined props x :
  stringify (JObject (setProp props x undefined)) = stringify (JObject (deleteProp props x)).
Proof.
  rewrite (stringify_omits_undefined _ x) by apply lookupProp_setProp_eq.
  f_equal. f_equal. clear.
  induction props as [|[k0 v0] props IH]; simpl.
  - by rewrite String.eqb_refl.
  - destruct (String.eqb k0 x) eqn:E; simpl.
    + by rewrite String.eqb_refl.
    + by rewrite E, IH.
Qed.

Lemma deleteProp_assignProp_ne (o : Obj) n x v :
  n ≠ x -> deleteProp (assignProp o n v) x = assignProp (deleteProp o x) n v.
Proof.
  intros Hne. unfold assignProp. rewrite lookupProp_deleteProp_ne by done.
  destruct (lookupProp o n); [by apply deleteProp_setProp_ne|].
  destruct (String.eqb n "__proto__"); [done|by apply deleteProp_setProp_ne].
Qed.

(** [JSON.stringify] prints an object to which [undefined] is assigned as
    it prints the object without the property. *)
Lemma stringify_assignProp_undefined (props : Obj) x :
  stringify (JObject (assignProp props x undefined)) =
    stringify (JObject (deleteProp props x)).
Proof.
  unfold assignProp. destruct (lookupProp props x) eqn:E;
    [apply stringify_setProp_undefined|].
  destruct (String.eqb x "__proto__"); [|apply stringify_setProp_undefined].
  by rewrite deleteProp_absent.
Qed.

Section UnboundVariable.
Variable Number : string -> string.
Variable variables : option Obj.

Local Abbreviation vtor := (valueToObjectRepresentation Number variables).
Local Abbreviation args2obj := (argumentsToObject Number variables).

Lemma argumentsToObject_app args1 args2 argObj :
  args2obj (args1 ++ args2) argObj = bindR (args2obj args1 argObj) (args2obj args2).
Proof.
  revert argObj. induction args1 as [|[n v] args1 IH]; intros argObj; simpl; [done|].
  destruct (vtor argObj n v); simpl; [apply IH|done].
Qed.

(** Arguments named otherwise than [x] leave [x] as it is. *)
Lemma argumentsToObject_lookup_other args argObj o x :
  x ∉ map fst args -> args2obj args argObj = Ok o -> lookupProp o x = lookupProp argObj x.
Proof.
  revert argObj. induction args as [|[n v] args IH]; intros argObj Hx; simpl.
  - by intros [= <-].
  - simpl in Hx. apply not_elem_of_cons in Hx as [Hne Hx].
    destruct (vtor argObj n v) as [argObj'|e] eqn:E; simpl; [|discriminate].
    intros Hrest. apply valueToObjectRepresentation_assigns in E as (val & -> & _).
    rewrite (IH _ Hx Hrest). by apply lookupProp_assignProp_ne.
Qed.

(** Two runs over the same arguments, none named [x], from objects that
    differ by the property [x] alone: the results differ by [x] alone. *)
Lemma argumentsToObject_deleteProp args argObj x :
  x ∉ map fst args ->
  match args2obj args argObj, args2obj args (deleteProp argObj x) with
  | Ok o1, Ok o2 => o2 = deleteProp o1 x
  | Err e1, Err e2 => e1 = e2
  | _, _ => False
  end.
Proof.
  revert argObj. induction args as [|[n v] args IH]; intros argObj Hx; simpl; [done|].
  simpl in Hx. apply not_elem_of_cons in Hx as [Hne Hx].
  destruct (vtor argObj n v) as [argObj'|e] eqn:E; simpl.
  - apply valueToObjectRepresentation_assigns in E as (val & -> & Hany).
    rewrite Hany. simpl. rewrite <- deleteProp_assignProp_ne by done. by apply IH.
  - by rewrite (valueToObjectRepresentation_Err _ _ _ (deleteProp argObj x) _ _ _ E).
Qed.

(** An argument whose value is a variable that reads as [undefined] can
    be struck from the field without changing its key, as long as other
    arguments remain. *)
Lemma storeKeyNameFromField_strike_unbound al fieldName dirs pre post x v :
  variableValue variables v = undefined ->
  x ∉ map fst (pre ++ post) -> pre ++ post ≠ [] ->
  storeKeyNameFromField Number variables
    (mkField al fieldName (pre ++ (x, Variable_ v) :: post) dirs) =
  storeKeyNameFromField Number variables (mkField al fieldName (pre ++ post) dirs).
Proof.
  intros Hv Hx Hne.
  rewrite !storeKeyNameFromField_nonempty; simpl; [|done|by destruct pre].
  rewrite !argumentsToObject_app. simpl.
  rewrite map_app in Hx. apply not_elem_of_app in Hx as [Hpre Hpost].
  destruct (args2obj pre []) as [o|e] eqn:Eo; simpl; [|done].
  rewrite Hv.
  assert (Hox : lookupProp o x = None)
    by (by rewrite (argumentsToObject_lookup_other _ _ _ _ Hpre Eo)).
  unfold assignProp. rewrite Hox. destruct (String.eqb x "__proto__"); [done|].
  pose proof (argumentsToObject_deleteProp post (setProp o x undefined) x Hpost) as Hrel.
  assert (Hdel : deleteProp (setProp o x undefined) x = o).
  { clear -Hox. induction o as [|[k0 v0] o IH]; simpl in *.
    - by rewrite String.eqb_refl.
    - destruct (String.eqb k0 x) eqn:E; [done|]. simpl. rewrite E. by rewrite IH. }
  rewrite Hdel in Hrel.
  destruct (args2obj post (setProp o x undefined)) as [o1|e1] eqn:E1,
           (args2obj post o) as [o2|e2]; simpl; try done; [|by subst].
  subst o2. unfold storeKeyNameFromFieldNameAndArgs, JSON_stringify.
  rewrite (stringify_omits_undefined o1 x); [done|].
  rewrite (argumentsToObject_lookup_other _ _ _ _ Hpost E1).
  apply lookupProp_setProp_eq.
Qed.
End UnboundVariable.




(** ** Sequencing *)

Lemma forEach_app {S E A : Type} (l1 l2 : list A) (f : A -> StateM S E unit) (st : S) :
  forEach (l1 ++ l2) f st =
    match forEach l1 f st with
    | (st', Ok _) => forEach l2 f st'
    | (st', Err e) => (st', Err e)
    end.
Proof.
  revert st. induction l1 as [|x l1 IH]; intros st; [reflexivity|].
  cbn [app forEach]. unfold bind.
  destruct (f x st) as [st' [[]|e]]; [apply IH|reflexivity].
Qed.

(** ** Fields the result does not have *)

Section SkippedField.
Variable builtinMember : JSValue -> string -> JSValue.
Variable Number : string -> string.
Variable shouldInclude : SelectionNode -> option Obj -> bool.
Variable variables : option Obj.
Variable dataIdFromObject : option (JSValue -> option string).
Variable fragmentMap : gmap string SelectionSet.

Local Abbreviation writeSel :=
  (writeSelection builtinMember Number shouldInclude variables dataIdFromObject fragmentMap).
Local Abbreviation writeSet :=
  (writeSelectionSetToStore builtinMember Number shouldInclude variables dataIdFromObject fragmentMap).

Lemma writeSelection_undefined fuel rec dataId result field selectionSet st :
  getProp builtinMember result (resultKeyNameFromField field) = Ok undefined ->
  writeSel fuel rec dataId result (Field field selectionSet) st = (st, Ok tt).
Proof. intros H. unfold writeSelection, bind, liftR. by rewrite H. Qed.

Lemma writeSelectionSetToStore_skip fuel dataId result field selectionSet pre post st :
  getProp builtinMember result (resultKeyNameFromField field) = Ok undefined ->
  writeSet fuel dataId result (pre ++ Field field selectionSet :: post) st =
    writeSet fuel dataId result (pre ++ post) st.
Proof.
  intros H. destruct fuel as [|fuel]; simpl; [done|].
  rewrite !forEach_app.
  destruct (forEach pre _ st) as [st' [[]|e]]; [|done].
  cbn [forEach]. unfold bind at 1. by rewrite writeSelection_undefined.
Qed.
End SkippedField.

(** C10.  A field whose response key (alias, else name) is [undefined] in
    the result is skipped: its step of the selection loop returns normally
    and leaves the whole store as it was, and the write of a selection set
    is the write of the selection set without that field. *)
Theorem undefined_result_field_skipped
    (builtinMember : JSValue -> string -> JSValue)
    (Number : string -> string) (shouldInclude : SelectionNode -> option Obj -> bool)
    (variables : option Obj) (dataIdFromObject : option (JSValue -> option string))
    (fragmentMap : gmap string SelectionSet)
    (dataId : string) (result : JSValue) (field : FieldNode)
    (selectionSet : option SelectionSet) :
  getProp builtinMember result (resultKeyNameFromField field) = Ok undefined ->
  (forall fuel rec st,
     writeSelection builtinMember Number shouldInclude variables dataIdFromObject fragmentMap
       fuel rec dataId result (Field field selectionSet) st = (st, Ok tt)) /\
  (forall fuel pre post st,
     writeSelectionSetToStore builtinMember Number shouldInclude variables dataIdFromObject fragmentMap
       fuel dataId result (pre ++ Field field selectionSet :: post) st =
     writeSelectionSetToStore builtinMember Number shouldInclude variables dataIdFromObject fragmentMap
       fuel dataId result (pre ++ post) st).
Proof.
  intros H. split.
  - intros. by apply writeSelection_undefined.
  - intros. by apply writeSelectionSetToStore_skip.
Qed.

Lemma undefined_result_field_skipped_witness :
  writeSelectionSetToStore objectMembers canonicalNumber includeAll None None ∅ 3 "ROOT_QUERY"
    (JObject [("name", str "A")]) [scalarField "age"; scalarField "name"] emptyStore =
  writeSelectionSetToStore objectMembers canonicalNumber includeAll None None ∅ 3 "ROOT_QUERY"
    (JObject [("name", str "A")]) [scalarField "name"] emptyStore.
Proof.
  assert (H : getProp objectMembers (JObject [("name", str "A")])
                (resultKeyNameFromField (mkField None "age" [] [])) = Ok undefined)
    by reflexivity.
  exact (proj2 (undefined_result_field_skipped objectMembers canonicalNumber includeAll None None ∅
                  "ROOT_QUERY" (JObject [("name", str "A")]) (mkField None "age" [] []) None H)
           3 [] [scalarField "name"] emptyStore).
Defined.

(** ** Writing a field twice *)

Section AssignFacts.
Context {V : Type}.
Implicit Types (o : list (string * V)) (k : string) (v : V).

Lemma setProp_new o k v : k ∉ keys o -> setProp o k v = o ++ [(k, v)].
Proof.
  unfold keys. induction o as [|[k0 v0] o IH]; simpl; [done|].
  intros Hk. apply not_elem_of_cons in Hk as [Hne Hk].
  destruct (String.eqb k0 k) eqn:E.
  - apply String.eqb_eq in E. congruence.
  - by rewrite IH.
Qed.

Lemma keys_setProp_old o k v : k ∈ keys o -> keys (setProp o k v) = keys o.
Proof.
  unfold keys. induction o as [|[k0 v0] o IH]; simpl.
  - intros H. by apply elem_of_nil in H.
  - intros H. destruct (String.eqb k0 k) eqn:E; simpl.
    + apply String.eqb_eq in E. by subst.
    + apply elem_of_cons in H as [->|H]; [by rewrite String.eqb_refl in E|].
      by rewrite IH.
Qed.

Lemma NoDup_keys_setProp o k v : NoDup (keys o) -> NoDup (keys (setProp o k v)).
Proof.
  intros Hnd. destruct (decide (k ∈ keys o)) as [Hin|Hout].
  - by rewrite keys_setProp_old.
  - rewrite keys_setProp_new by done. apply NoDup_app. split; [done|]. split.
    + intros x Hx Hk. apply list_elem_of_singleton in Hk. by subst.
    + apply NoDup_singleton.
Qed.

Lemma NoDup_keys_assignInto (target source : list (string * V)) :
  NoDup (keys target) -> NoDup (keys (assignInto target source)).
Proof.
  unfold assignInto. revert target.
  induction source as [|[k v] source IH]; intros target Hnd; simpl; [done|].
  apply IH. by apply NoDup_keys_setProp.
Qed.

(** Copying an object with distinct keys into an empty one gives it back. *)
Lemma assignInto_NoDup (target source : list (string * V)) :
  NoDup (keys (target ++ source)) -> assignInto target source = target ++ source.
Proof.
  unfold assignInto. revert target.
  induction source as [|[k v] source IH]; intros target Hnd; simpl.
  - by rewrite app_nil_r.
  - assert (Hk : k ∉ keys target).
    { unfold keys in *. rewrite map_app in Hnd.
      apply NoDup_app in Hnd as (_ & Hdisj & _).
      intros Hin. apply (Hdisj k Hin). simpl. left. }
    rewrite setProp_new by done. rewrite IH; rewrite <- app_assoc; done.
Qed.

Lemma assignInto_singleton o k v : assignInto o [(k, v)] = setProp o k v.
Proof. reflexivity. Qed.
End AssignFacts.

Lemma NoDup_keys_assign (a b : StoreObject) : NoDup (keys (assign a b)).
Proof. unfold assign. do 2 apply NoDup_keys_assignInto. apply NoDup_nil_2. Qed.

Lemma lookupProp_assign_singleton (a : StoreObject) k v :
  lookupProp (assign a [(k, v)]) k = Some v.
Proof. unfold assign. rewrite assignInto_singleton. apply lookupProp_setProp_eq. Qed.

(** [assign({}, assign({}, a, {k: v}), {k: v})] has the properties of
    [assign({}, a, {k: v})]. *)
Lemma assign_singleton_twice (a : StoreObject) k v :
  assign (assign a [(k, v)]) [(k, v)] = assign a [(k, v)].
Proof.
  unfold assign at 1. rewrite assignInto_singleton.
  rewrite (assignInto_NoDup []) by apply NoDup_keys_assign. simpl.
  apply setProp_same, lookupProp_assign_singleton.
Qed.

Arguments sameStoreValue : simpl never.
Arguments assign : simpl never.

(** [storeField] when there is nothing to merge. *)
Lemma storeField_None fuel dataId key storeValue st :
  storeField fuel dataId key storeValue None st =
    match cache st !! dataId with
    | Some obj =>
        if sameStoreValue storeValue (lookupProp (fields obj) key) then (st, Ok tt)
        else storeAssign dataId (assign (fields obj) [(key, storeValue)]) st
    | None => storeAssign dataId (assign [] [(key, storeValue)]) st
    end.
Proof.
  unfold storeField, bind, getStore, ret. cbn [fst snd].
  destruct (cache st !! dataId) as [obj|]; cbn [fmap option_fmap option_map default];
    [destruct (sameStoreValue _ _)|]; reflexivity.
Qed.

Lemma sameStoreValue_object storeValue existing :
  match storeValue with SVPrim _ => False | _ => True end ->
  sameStoreValue storeValue existing = false.
Proof. by destruct storeValue. Qed.

Section WriteTwice.
Variable Number : string -> string.
Variable variables : option Obj.
Variable dataIdFromObject : option (JSValue -> option string).

Lemma storeField_prim_twice fuel dataId key p st st1 :
  strictEq p p = true ->
  storeField fuel dataId key (SVPrim p) None st = (st1, Ok tt) ->
  storeField fuel dataId key (SVPrim p) None st1 = (st1, Ok tt).
Proof.
  intros Hp. rewrite !storeField_None.
  assert (Hnew : forall a, sameStoreValue (SVPrim p)
                  (lookupProp (assign a [(key, SVPrim p)]) key) = true).
  { intros a. rewrite lookupProp_assign_singleton. unfold sameStoreValue.
    rewrite Hp. by destruct p. }
  destruct (cache st !! dataId) as [obj|] eqn:E.
  - destruct (sameStoreValue _ _) eqn:Es.
    + intros [= <-]. by rewrite E, Es.
    + intros [= <-]. cbn [cache]. rewrite lookup_insert_eq. cbn [fields].
      by rewrite Hnew.
  - intros [= <-]. cbn [cache]. rewrite lookup_insert_eq. cbn [fields].
    by rewrite Hnew.
Qed.

Lemma storeField_json_twice fuel dataId key json st st1 :
  storeField fuel dataId key (SVJson json) None st = (st1, Ok tt) ->
  exists st2,
    storeField fuel dataId key (SVJson json) None st1 = (st2, Ok tt) /\
    fields <$> cache st2 !! dataId = fields <$> cache st1 !! dataId /\
    ref <$> cache st1 !! dataId = Some (nextRef st) /\
    ref <$> cache st2 !! dataId = Some (S (nextRef st)).
Proof.
  rewrite !storeField_None.
  assert (Hst1 : forall a, st1 = mkStore
            (<[dataId := mkEntity (nextRef st) (assign a [(key, SVJson json)])]> (cache st))
            (S (nextRef st)) ->
          exists st2,
            match cache st1 !! dataId with
            | Some obj =>
                if sameStoreValue (SVJson json) (lookupProp (fields obj) key)
                then (st1, Ok tt)
                else storeAssign dataId (assign (fields obj) [(key, SVJson json)]) st1
            | None => storeAssign dataId (assign [] [(key, SVJson json)]) st1
            end = (st2, Ok tt) /\
            fields <$> cache st2 !! dataId = fields <$> cache st1 !! dataId /\
            ref <$> cache st1 !! dataId = Some (nextRef st) /\
            ref <$> cache st2 !! dataId = Some (S (nextRef st))).
  { intros a ->. cbn [cache]. rewrite lookup_insert_eq. cbn [fields].
    rewrite sameStoreValue_object by done.
    eexists. split; [reflexivity|]. cbn [cache nextRef]. rewrite !lookup_insert_eq.
    cbn [fmap option_fmap option_map fields ref].
    by rewrite assign_singleton_twice. }
  destruct (cache st !! dataId) as [obj|] eqn:E.
  - rewrite sameStoreValue_object by done. intros [= <-]. by eapply Hst1.
  - intros [= <-]. by eapply Hst1.
Qed.
End WriteTwice.

Section WriteLeaf.
Variable Number : string -> string.
Variable variables : option Obj.
Variable dataIdFromObject : option (JSValue -> option string).

Local Abbreviation writeField := (writeFieldToStore Number variables dataIdFromObject).

Lemma writeFieldToStore_key_error fuel rec field selectionSet value dataId st e :
  storeKeyNameFromField Number variables field = Err e ->
  writeField fuel rec field selectionSet value dataId st = (st, Err e).
Proof. intros H. unfold writeFieldToStore, bind, liftR. by rewrite H. Qed.

(** The first two branches of [writeFieldToStore]: no selection set, or a
    [null] value. *)
Lemma writeFieldToStore_leaf fuel rec field selectionSet value dataId key st :
  storeKeyNameFromField Number variables field = Ok key ->
  selectionSet = None \/ isNull value = true ->
  writeField fuel rec field selectionSet value dataId st =
    storeField fuel dataId key
      (match value with JPrim p => SVPrim p | _ => SVJson value end) None st.
Proof.
  intros Hkey Hleaf. unfold writeFieldToStore, bind at 1, liftR. rewrite Hkey.
  destruct selectionSet as [selectionSet|].
  - destruct Hleaf as [|Hnull]; [done|]. rewrite Hnull. by destruct value.
  - by destruct value.
Qed.
End WriteLeaf.

(** C7, as the code has it.  Writing the same leaf value at the same field
    of the same entity a second time leaves the store as it is, object
    identities included, when the value is a primitive that is [===] to
    itself (anything but [NaN]).  When the value is an object or an array,
    stored as a JSON blob, the second write puts a new object with the same
    properties in the place of the entity. *)
Theorem leaf_write_twice
    (Number : string -> string) (variables : option Obj)
    (dataIdFromObject : option (JSValue -> option string))
    (fuel : nat) (rec : string -> JSValue -> SelectionSet -> M unit)
    (field : FieldNode) (selectionSet : option SelectionSet)
    (value : JSValue) (dataId : string) (st st1 : Store) :
  selectionSet = None \/ isNull value = true ->
  writeFieldToStore Number variables dataIdFromObject fuel rec field selectionSet
    value dataId st = (st1, Ok tt) ->
  (forall p, value = JPrim p -> strictEq p p = true ->
     writeFieldToStore Number variables dataIdFromObject fuel rec field selectionSet
       value dataId st1 = (st1, Ok tt)) /\
  (isObject value = true ->
     exists st2,
       writeFieldToStore Number variables dataIdFromObject fuel rec field selectionSet
         value dataId st1 = (st2, Ok tt) /\
       fields <$> cache st2 !! dataId = fields <$> cache st1 !! dataId /\
       ref <$> cache st1 !! dataId = Some (nextRef st) /\
       ref <$> cache st2 !! dataId = Some (S (nextRef st))).
Proof.
  intros Hleaf Hfirst.
  destruct (storeKeyNameFromField Number variables field) as [key|e] eqn:Hkey.
  - rewrite writeFieldToStore_leaf with (key := key) in Hfirst by done. split.
    + intros p -> Hp.
      rewrite writeFieldToStore_leaf with (key := key) by done.
      by apply storeField_prim_twice with st.
    + intros Hobj.
      assert (Hjson : match value with JPrim p => SVPrim p | _ => SVJson value end
                      = SVJson value) by by destruct value.
      rewrite Hjson in Hfirst.
      destruct (storeField_json_twice _ _ _ _ _ _ Hfirst) as (st2 & H2 & Hrest).
      exists st2. split; [|done].
      rewrite writeFieldToStore_leaf with (key := key) by done. by rewrite Hjson.
  - rewrite writeFieldToStore_key_error with (e := e) in Hfirst by done. done.
Qed.

Lemma leaf_write_twice_witness :
  writeName (fst (writeName emptyStore)) = (fst (writeName emptyStore), Ok tt).
Proof.
  assert (Hfirst : writeName emptyStore = (fst (writeName emptyStore), Ok tt))
    by (vm_compute; reflexivity).
  exact (proj1 (leaf_write_twice canonicalNumber None None 1 _ (mkField None "name" [] [])
                  None (str "A") "ROOT_QUERY" emptyStore _ (or_introl eq_refl) Hfirst)
           (PString "A") eq_refl eq_refl).
Defined.

(** C7, as stated, fails: the second write of the same JSON blob replaces
    the entity, so neither the cache nor the entity is the object it was. *)
Lemma write_twice_reference_counterexample :
  exists st1 st2,
    writeBlob emptyStore = (st1, Ok tt) /\
    writeBlob st1 = (st2, Ok tt) /\
    cache st2 <> cache st1 /\
    ref <$> cache st2 !! "ROOT_QUERY" <> ref <$> cache st1 !! "ROOT_QUERY".
Proof.
  exists (fst (writeBlob emptyStore)), (fst (writeBlob (fst (writeBlob emptyStore)))).
  split; [vm_compute; reflexivity|]. split; [vm_compute; reflexivity|].
  assert (Href : ref <$> cache (fst (writeBlob (fst (writeBlob emptyStore)))) !! "ROOT_QUERY"
                 <> ref <$> cache (fst (writeBlob emptyStore)) !! "ROOT_QUERY")
    by (vm_compute; discriminate).
  split; [|exact Href]. intros Heq. apply Href. by rewrite Heq.
Qed.

(** ** Reconciliation: mergeWithGenerated *)

Arguments storeAssign : simpl never.
Arguments storeDelete : simpl never.

Lemma bind_Ok {S E A B : Type} (m : StateM S E A) (k : A -> StateM S E B) st st' b :
  bind m k st = (st', Ok b) ->
  exists stm a, m st = (stm, Ok a) /\ k a stm = (st', Ok b).
Proof.
  unfold bind. destruct (m st) as [stm [a|e]]; [|discriminate]. intros H. by exists stm, a.
Qed.

Lemma forEach_snoc_Ok {S E A : Type} (l : list A) (x : A) (f : A -> StateM S E unit) st st' :
  forEach (l ++ [x]) f st = (st', Ok tt) ->
  exists stm, forEach l f st = (stm, Ok tt) /\ f x stm = (st', Ok tt).
Proof.
  rewrite forEach_app. destruct (forEach l f st) as [stm [[]|e]]; [|discriminate].
  cbn [forEach]. intros H. apply bind_Ok in H as (stx & [] & Hx & Hret).
  injection Hret as <-. by exists stm.
Qed.

Lemma forEach_step_Ok {S E A : Type} (l : list A) (x : A) (f : A -> StateM S E unit) st st' :
  forEach l f st = (st', Ok tt) -> x ∈ l ->
  exists sa sb, f x sa = (sb, Ok tt).
Proof.
  revert st. induction l as [|y l IH]; intros st H Hin.
  - by apply elem_of_nil in Hin.
  - cbn [forEach] in H. apply bind_Ok in H as (stm & [] & Hy & Hrest).
    apply elem_of_cons in Hin as [->|Hin]; [by exists st, stm|by eapply IH].
Qed.

Lemma forEach_total {S E A : Type} (l : list A) (f : A -> StateM S E unit) st :
  (forall x st, x ∈ l -> exists st', f x st = (st', Ok tt)) ->
  exists st', forEach l f st = (st', Ok tt).
Proof.
  revert st. induction l as [|y l IH]; intros st Hf.
  - by exists st.
  - destruct (Hf y st) as [stm Hy]; [left|].
    destruct (IH stm) as [st' Hrest]; [intros; apply Hf; by right|].
    exists st'. cbn [forEach]. unfold bind. by rewrite Hy.
Qed.

Lemma forEach_avoids {S E A : Type} (P : E -> Prop) (l : list A)
    (f : A -> StateM S E unit) st :
  (forall x st e, snd (f x st) = Err e -> ~ P e) ->
  forall e, snd (forEach l f st) = Err e -> ~ P e.
Proof.
  intros Hf. revert st. induction l as [|y l IH]; intros st e; [done|].
  cbn [forEach]. unfold bind. destruct (f y st) as [stm [[]|e']] eqn:Hy.
  - apply IH.
  - cbn [snd]. intros [= <-]. apply (Hf y st). by rewrite Hy.
Qed.

Lemma lookupProp_Some_keys {V : Type} (o : list (string * V)) k v :
  lookupProp o k = Some v -> k ∈ keys o.
Proof.
  unfold keys. induction o as [|[k0 v0] o IH]; simpl; [done|].
  destruct (String.eqb k0 k) eqn:E.
  - apply String.eqb_eq in E. subst. intros _. left.
  - intros H. right. by apply IH.
Qed.

(** One turn of the loop of [mergeWithGenerated], for the objects
    [generated] and [real] read before the loop. *)
Lemma mergeWithGenerated_S fuel generatedKey realKey st :
  mergeWithGenerated (S fuel) generatedKey realKey st =
    match cache st !! generatedKey with
    | None => (st, Err TypeError)
    | Some generated =>
        forEach (keys (fields generated)) (fun key =>
          match cache st !! realKey with
          | None => throw TypeError
          | Some real =>
              match lookupProp (fields generated) key, lookupProp (fields real) key with
              | Some (SVId id _), Some (SVId realId _) =>
                  if isGeneratedId id then mergeWithGenerated fuel id realId else ret tt
              | _, _ => ret tt
              end;;
              storeDelete generatedKey;;
              storeAssign realKey (assign (fields generated) (fields real))
          end) st
    end.
Proof.
  cbn [mergeWithGenerated]. unfold bind at 1, getStore.
  by destruct (cache st !! generatedKey).
Qed.

(** No error of a merge is the overwrite error. *)
Lemma mergeWithGenerated_not_overwrite fuel generatedKey realKey st e :
  snd (mergeWithGenerated fuel generatedKey realKey st) = Err e ->
  ~ (exists existingId, e = IdentityOverwrite existingId).
Proof.
  revert generatedKey realKey st e.
  induction fuel as [|fuel IH]; intros generatedKey realKey st e.
  - cbn. intros [= <-] [? ?]. discriminate.
  - rewrite mergeWithGenerated_S.
    destruct (cache st !! generatedKey) as [generated|];
      [|cbn; intros [= <-] [? ?]; discriminate].
    revert e.
    apply (forEach_avoids (fun e => exists existingId, e = IdentityOverwrite existingId)).
    intros key s e.
    destruct (cache st !! realKey) as [real|];
      [|cbn; intros [= <-] [? ?]; discriminate].
    unfold bind.
    match goal with |- context [(match ?c with (_, _) => _ end)] =>
      destruct c as [st1 [[]|e1]] eqn:Hsub end.
    + cbn. discriminate.
    + cbn [snd]. intros [= <-].
      destruct (lookupProp (fields generated) key) as [[| |id g|]|];
        try (cbn in Hsub; discriminate).
      destruct (lookupProp (fields real) key) as [[| |realId rg|]|];
        try (cbn in Hsub; discriminate).
      destruct (isGeneratedId id); [|cbn in Hsub; discriminate].
      apply (IH id realId s). by rewrite Hsub.
Qed.

(** What a merge that returns has done to the two entities: the generated
    one is gone, the real one holds [assign({}, generated, real)]. *)
Lemma mergeWithGenerated_absorbs fuel generatedKey realKey st st' generated real :
  cache st !! generatedKey = Some generated ->
  cache st !! realKey = Some real ->
  fields generated <> [] ->
  generatedKey <> realKey ->
  mergeWithGenerated fuel generatedKey realKey st = (st', Ok tt) ->
  cache st' !! generatedKey = None /\
  fields <$> cache st' !! realKey = Some (assign (fields generated) (fields real)).
Proof.
  intros Hg Hr Hne Hkeys. destruct fuel as [|fuel]; [discriminate|].
  rewrite mergeWithGenerated_S, Hg, Hr.
  assert (Hlast : exists l x, keys (fields generated) = l ++ [x]).
  { unfold keys. destruct (fields generated) as [|kv o] using rev_ind; [done|].
    exists (map fst o), (fst kv). by rewrite map_app. }
  destruct Hlast as (l & x & ->). intros H.
  apply forEach_snoc_Ok in H as (stm & _ & Hx).
  apply bind_Ok in Hx as (s1 & [] & _ & Hx).
  apply bind_Ok in Hx as (s2 & [] & Hdel & Hx).
  unfold storeDelete in Hdel. injection Hdel as <-.
  unfold storeAssign in Hx. injection Hx as <-. cbn [cache]. split.
  - rewrite lookup_insert_ne by done. apply lookup_delete_eq.
  - by rewrite lookup_insert_eq.
Qed.

(** The merge of two entities runs the merge of the entities their fields
    refer to, wherever the generated entity refers to a generated id and the
    real entity has a reference at the same field. *)
Lemma mergeWithGenerated_recursive fuel generatedKey realKey st st' generated real
    key id g realId rg :
  cache st !! generatedKey = Some generated ->
  cache st !! realKey = Some real ->
  mergeWithGenerated fuel generatedKey realKey st = (st', Ok tt) ->
  lookupProp (fields generated) key = Some (SVId id g) ->
  isGeneratedId id = true ->
  lookupProp (fields real) key = Some (SVId realId rg) ->
  exists fuel' sa sb,
    fuel = S fuel' /\ mergeWithGenerated fuel' id realId sa = (sb, Ok tt).
Proof.
  intros Hg Hr H Hv Hgen Hrv. destruct fuel as [|fuel]; [discriminate|].
  rewrite mergeWithGenerated_S, Hg, Hr in H.
  apply forEach_step_Ok with (x := key) in H as (sa & sb & Hstep);
    [|by eapply lookupProp_Some_keys].
  rewrite Hv, Hrv, Hgen in Hstep.
  apply bind_Ok in Hstep as (s1 & [] & Hsub & _).
  by exists fuel, sa, s1.
Qed.

Lemma forEach_ext_Ok {S E A : Type} (l : list A) (f g : A -> StateM S E unit) st st' :
  (forall x s s', f x s = (s', Ok tt) -> g x s = (s', Ok tt)) ->
  forEach l f st = (st', Ok tt) -> forEach l g st = (st', Ok tt).
Proof.
  intros Hfg. revert st. induction l as [|y l IH]; intros st; [done|].
  cbn [forEach]. intros H. apply bind_Ok in H as (stm & [] & Hy & Hrest).
  unfold bind. rewrite (Hfg _ _ _ Hy). by apply IH.
Qed.

(** A merge that returns on some fuel returns the same on more. *)
Lemma mergeWithGenerated_fuel_mono fuel generatedKey realKey st st' :
  mergeWithGenerated fuel generatedKey realKey st = (st', Ok tt) ->
  mergeWithGenerated (S fuel) generatedKey realKey st = (st', Ok tt).
Proof.
  revert generatedKey realKey st st'.
  induction fuel as [|fuel IH]; intros generatedKey realKey st st'; [discriminate|].
  rewrite (mergeWithGenerated_S (S fuel)), (mergeWithGenerated_S fuel).
  destruct (cache st !! generatedKey) as [generated|]; [|done].
  apply forEach_ext_Ok. intros key s s'.
  destruct (cache st !! realKey) as [real|]; [|done].
  intros H. apply bind_Ok in H as (s1 & [] & Hsub & Hrest).
  unfold bind at 1.
  assert (Hsub' : (match lookupProp (fields generated) key, lookupProp (fields real) key with
                   | Some (SVId id _), Some (SVId realId _) =>
                       if isGeneratedId id then mergeWithGenerated (S fuel) id realId
                       else ret tt
                   | _, _ => ret tt
                   end) s = (s1, Ok tt)).
  { destruct (lookupProp (fields generated) key) as [[| |id g|]|]; try done.
    destruct (lookupProp (fields real) key) as [[| |realId rg|]|]; try done.
    destruct (isGeneratedId id); [by apply IH|done]. }
  by rewrite Hsub'.
Qed.

(** A merge that has no entity to descend into returns, on any fuel but
    none. *)
Lemma mergeWithGenerated_flat_returns fuel generatedKey realKey st generated real :
  cache st !! generatedKey = Some generated ->
  cache st !! realKey = Some real ->
  (forall key id g realId rg,
     lookupProp (fields generated) key = Some (SVId id g) ->
     lookupProp (fields real) key = Some (SVId realId rg) ->
     isGeneratedId id = false) ->
  exists st', mergeWithGenerated (S fuel) generatedKey realKey st = (st', Ok tt).
Proof.
  intros Hg Hr Hflat. rewrite mergeWithGenerated_S, Hg, Hr.
  apply forEach_total. intros key s _.
  assert (Hsub : (match lookupProp (fields generated) key, lookupProp (fields real) key with
                  | Some (SVId id _), Some (SVId realId _) =>
                      if isGeneratedId id then mergeWithGenerated fuel id realId else ret tt
                  | _, _ => ret tt
                  end) s = (s, Ok tt)).
  { destruct (lookupProp (fields generated) key) as [[| |id g|]|] eqn:Hv; try done.
    destruct (lookupProp (fields real) key) as [[| |realId rg|]|] eqn:Hrv; try done.
    by rewrite (Hflat key id g realId rg). }
  unfold bind at 1. rewrite Hsub. by eexists.
Qed.

(** ** The merge of a tree of entities *)

Lemma forEach_ext {S E A : Type} (l : list A) (f g : A -> StateM S E unit) st :
  (forall x s, f x s = g x s) -> forEach l f st = forEach l g st.
Proof.
  intros Hfg. revert st. induction l as [|y l IH]; intros st; [done|].
  cbn [forEach]. unfold bind. rewrite Hfg.
  destruct (g y st) as [s [[]|e]]; [apply IH|done].
Qed.

(** The loop of [mergeWithGenerated], turn by turn. *)
Lemma mergeWithGenerated_turns fuel generatedKey realKey st generated real :
  cache st !! generatedKey = Some generated ->
  cache st !! realKey = Some real ->
  mergeWithGenerated (S fuel) generatedKey realKey st =
    forEach (keys (fields generated))
      (mergeTurn (mergeWithGenerated fuel) generatedKey realKey
         (fields generated) (fields real)) st.
Proof.
  intros Hg Hr. rewrite mergeWithGenerated_S, Hg. apply forEach_ext. intros key s.
  rewrite Hr. unfold mergeTurn, mergedField.
  destruct (lookupProp (fields generated) key) as [[| |id g|]|]; try reflexivity.
  destruct (lookupProp (fields real) key) as [[| |realId rg|]|]; try reflexivity.
  by destruct (isGeneratedId id).
Qed.

Lemma mergeable_S depth (c : NormalizedCache) generatedKey realKey :
  mergeable (S depth) c generatedKey realKey = true ->
  exists generated real,
    c !! generatedKey = Some generated /\ c !! realKey = Some real /\
    fields generated <> [] /\
    forallb (fun key =>
               match mergedField (fields generated) (fields real) key with
               | Some (id, realId) => mergeable depth c id realId
               | None => true
               end) (keys (fields generated)) = true.
Proof.
  cbn [mergeable]. destruct (c !! generatedKey) as [generated|]; [|done].
  destruct (c !! realKey) as [real|]; [|done].
  intros H. exists generated, real. split; [done|]. split; [done|]. split.
  - intros E. by rewrite E in H.
  - by destruct (fields generated).
Qed.

Lemma pairIds_app l1 l2 : pairIds (l1 ++ l2) = pairIds l1 ++ pairIds l2.
Proof. apply flat_map_app. Qed.

Lemma pairIds_elem generatedKey realKey pairs :
  (generatedKey, realKey) ∈ pairs ->
  generatedKey ∈ pairIds pairs /\ realKey ∈ pairIds pairs.
Proof.
  induction pairs as [|[g0 r0] pairs IH]; [by intros ?%elem_of_nil|].
  intros [[= -> ->]|Hin]%elem_of_cons; cbn.
  - split; [left|right; left].
  - destruct (IH Hin). split; by do 2 right.
Qed.

(** The pairs of a merge, and whether it finds what it needs, depend on
    the entities of the pairs alone. *)
Lemma mergePairs_agree depth :
  forall (c1 c2 : NormalizedCache) generatedKey realKey,
    (forall id, id ∈ pairIds (mergePairs depth c1 generatedKey realKey) ->
       c2 !! id = c1 !! id) ->
    mergePairs depth c2 generatedKey realKey = mergePairs depth c1 generatedKey realKey /\
    mergeable depth c2 generatedKey realKey = mergeable depth c1 generatedKey realKey.
Proof.
  induction depth as [|depth IH]; intros c1 c2 g r Hagree; [done|].
  cbn [mergePairs mergeable] in *. unfold pairIds in Hagree. cbn [flat_map fst snd app] in Hagree.
  rewrite (Hagree g) by left. rewrite (Hagree r) by (right; left).
  destruct (c1 !! g) as [ge|]; [|done]. destruct (c1 !! r) as [re|]; [|done].
  assert (Hks : forall ks,
            (forall id,
               id ∈ pairIds (flat_map
                               (fun key =>
                                  match mergedField (fields ge) (fields re) key with
                                  | Some (id, realId) => mergePairs depth c1 id realId
                                  | None => []
                                  end) ks) -> c2 !! id = c1 !! id) ->
            flat_map (fun key =>
                        match mergedField (fields ge) (fields re) key with
                        | Some (id, realId) => mergePairs depth c2 id realId
                        | None => []
                        end) ks =
            flat_map (fun key =>
                        match mergedField (fields ge) (fields re) key with
                        | Some (id, realId) => mergePairs depth c1 id realId
                        | None => []
                        end) ks /\
            forallb (fun key =>
                       match mergedField (fields ge) (fields re) key with
                       | Some (id, realId) => mergeable depth c2 id realId
                       | None => true
                       end) ks =
            forallb (fun key =>
                       match mergedField (fields ge) (fields re) key with
                       | Some (id, realId) => mergeable depth c1 id realId
                       | None => true
                       end) ks).
  { induction ks as [|key ks IHks]; [done|]. cbn [flat_map forallb]. intros Hin.
    rewrite pairIds_app in Hin.
    destruct IHks as [-> ->]; [intros id Hid; apply Hin, elem_of_app; by right|].
    destruct (mergedField (fields ge) (fields re) key) as [[id realId]|]; [|done].
    destruct (IH c1 c2 id realId) as [-> ->]; [|done].
    intros id' Hid. apply Hin, elem_of_app. by left. }
  destruct (Hks (keys (fields ge))) as [-> ->]; [|done].
  intros id Hid. apply Hagree. by do 2 right.
Qed.

Section MergeTree.
Variable depth : nat.
Hypothesis merge_tree : forall generatedKey realKey st,
mergeable depth (cache st) generatedKey realKey = true ->
NoDup (pairIds (mergePairs depth (cache st) generatedKey realKey)) ->
exists st',
  mergeWithGenerated depth generatedKey realKey st = (st', Ok tt) /\
  absorbs (mergePairs depth (cache st) generatedKey realKey) (cache st) (cache st').

(** The loop of a merge whose nested merges do what [merge_tree] says:
  [c0] is the cache before the loop, [s] the store before the turns of the
  keys [ks]. *)
Lemma mergeTurns_tree g r (ge re : StoreObject) (c0 : NormalizedCache) ks :
forall s,
  NoDup (g :: r :: pairIds (flat_map
                              (fun key =>
                                 match mergedField ge re key with
                                 | Some (id, realId) => mergePairs depth c0 id realId
                                 | None => []
                                 end) ks)) ->
  (forall id,
     id ∈ pairIds (flat_map
                     (fun key =>
                        match mergedField ge re key with
                        | Some (id, realId) => mergePairs depth c0 id realId
                        | None => []
                        end) ks) -> cache s !! id = c0 !! id) ->
  forallb (fun key =>
             match mergedField ge re key with
             | Some (id, realId) => mergeable depth c0 id realId
             | None => true
             end) ks = true ->
  exists s',
    forEach ks (mergeTurn (mergeWithGenerated depth) g r ge re) s = (s', Ok tt) /\
    (forall g' r' ge' re',
       (g', r') ∈ flat_map (fun key =>
                              match mergedField ge re key with
                              | Some (id, realId) => mergePairs depth c0 id realId
                              | None => []
                              end) ks ->
       c0 !! g' = Some ge' -> c0 !! r' = Some re' ->
       cache s' !! g' = None /\
       fields <$> cache s' !! r' = Some (assign (fields ge') (fields re'))) /\
    (forall id,
       id ∉ g :: r :: pairIds (flat_map
                                 (fun key =>
                                    match mergedField ge re key with
                                    | Some (id, realId) => mergePairs depth c0 id realId
                                    | None => []
                                    end) ks) -> cache s' !! id = cache s !! id) /\
    (ks <> [] ->
     cache s' !! g = None /\ fields <$> cache s' !! r = Some (assign ge re)).
Proof.
induction ks as [|key ks IHks]; intros s Hnd Hagree Hok.
- exists s. split; [done|]. split; [by intros ? ? ? ? ?%elem_of_nil|]. by split.
- cbn [flat_map forallb] in *. apply andb_prop in Hok as [Hkey Hok].
  rewrite pairIds_app in *.
  set (pairs1 := match mergedField ge re key with
                 | Some (id, realId) => mergePairs depth c0 id realId
                 | None => []
                 end) in *.
  set (pairs2 := flat_map _ ks) in *.
  apply NoDup_cons in Hnd as [Hg Hnd]. apply NoDup_cons in Hnd as [Hr Hnd].
  apply NoDup_app in Hnd as (Hnd1 & Hdisj & Hnd2).
  apply not_elem_of_cons in Hg as [Hgr Hg].
  apply not_elem_of_app in Hg as [Hg1 Hg2], Hr as [Hr1 Hr2].
  assert (Hchild : exists s1,
            mergeTurn (mergeWithGenerated depth) g r ge re key s =
              (mkStore (<[r := mkEntity (nextRef s1) (assign ge re)]> (delete g (cache s1)))
                 (S (nextRef s1)), Ok tt) /\
            (forall g' r' ge' re',
               (g', r') ∈ pairs1 -> c0 !! g' = Some ge' -> c0 !! r' = Some re' ->
               cache s1 !! g' = None /\
               fields <$> cache s1 !! r' = Some (assign (fields ge') (fields re'))) /\
            (forall id, id ∉ pairIds pairs1 -> cache s1 !! id = cache s !! id)).
  { subst pairs1. unfold mergeTurn. destruct (mergedField ge re key) as [[id realId]|].
    - destruct (mergePairs_agree depth c0 (cache s) id realId) as [Hp Hm].
      { intros id' Hid. apply Hagree, elem_of_app. by left. }
      destruct (merge_tree id realId s) as (s1 & Hrun & Hpairs & Hframe);
        [by rewrite Hm|by rewrite Hp|].
      rewrite Hp in Hpairs, Hframe. exists s1.
      split; [unfold bind; by rewrite Hrun|]. split; [|done].
      intros g' r' ge' re' Hin Hg' Hr'. destruct (pairIds_elem _ _ _ Hin) as [Hing Hinr].
      apply (Hpairs g' r' ge' re' Hin).
      + rewrite Hagree; [done|]. apply elem_of_app. by left.
      + rewrite Hagree; [done|]. apply elem_of_app. by left.
    - exists s. split; [done|]. split; [by intros ? ? ? ? ?%elem_of_nil|done]. }
  destruct Hchild as (s1 & Hturn & Hpairs1 & Hframe1).
  set (s2 := mkStore (<[r := mkEntity (nextRef s1) (assign ge re)]> (delete g (cache s1)))
               (S (nextRef s1))) in *.
  assert (Hs2 : forall id, id <> g -> id <> r -> cache s2 !! id = cache s1 !! id).
  { intros id Hig Hir. subst s2. cbn [cache].
    rewrite lookup_insert_ne by done. by rewrite lookup_delete_ne. }
  destruct (IHks s2) as (s' & Hrest & Hpairs2 & Hframe2 & Hlast).
  { apply NoDup_cons. split; [by apply not_elem_of_cons|]. by apply NoDup_cons. }
  { intros id Hid. rewrite Hs2.
    - rewrite Hframe1; [apply Hagree, elem_of_app; by right|].
      intros Hid1. by apply (Hdisj id Hid1).
    - by intros ->.
    - by intros ->. }
  { done. }
  exists s'. split; [cbn [forEach]; unfold bind at 1; by rewrite Hturn|]. split; [|split].
  + intros g' r' ge' re' [Hin|Hin]%elem_of_app Hg' Hr'; [|by apply (Hpairs2 g' r' ge' re')].
    destruct (pairIds_elem _ _ _ Hin) as [Hing Hinr].
    destruct (Hpairs1 g' r' ge' re' Hin Hg' Hr') as [Hgone Hmerged].
    assert (Hout : forall id, id ∈ pairIds pairs1 -> cache s' !! id = cache s1 !! id).
    { intros id Hid. rewrite Hframe2.
      - apply Hs2; by intros ->.
      - intros [->|[->|Hid2]%elem_of_cons]%elem_of_cons; [done|done|].
        by apply (Hdisj id Hid). }
    by rewrite !Hout.
  + intros id Hid. apply not_elem_of_cons in Hid as [Hig Hid].
    apply not_elem_of_cons in Hid as [Hir Hid].
    apply not_elem_of_app in Hid as [Hid1 Hid2].
    rewrite Hframe2.
    * rewrite Hs2 by done. by apply Hframe1.
    * apply not_elem_of_cons. split; [done|]. by apply not_elem_of_cons.
  + intros _. destruct ks as [|key' ks'].
    * injection Hrest as <-. subst s2. cbn [cache].
      rewrite lookup_insert_ne by done. rewrite lookup_delete_eq.
      by rewrite lookup_insert_eq.
    * by apply Hlast.
Qed.
End MergeTree.

(** A merge that finds what it needs, over entities each of which is in
    one pair only, returns, and has then merged every pair: the generated
    entities are gone, the real ones hold the fields of both, and nothing
    else has changed. *)
Lemma mergeWithGenerated_tree fuel :
  forall generatedKey realKey st,
    mergeable fuel (cache st) generatedKey realKey = true ->
    NoDup (pairIds (mergePairs fuel (cache st) generatedKey realKey)) ->
    exists st',
      mergeWithGenerated fuel generatedKey realKey st = (st', Ok tt) /\
      absorbs (mergePairs fuel (cache st) generatedKey realKey) (cache st) (cache st').
Proof.
  induction fuel as [|fuel IH]; intros g r st Hm Hnd; [done|].
  apply mergeable_S in Hm as (ge & re & Hg & Hr & Hne & Hok).
  cbn [mergePairs] in *. rewrite Hg, Hr in *.
  unfold pairIds in Hnd. cbn [flat_map fst snd app] in Hnd.
  rewrite (mergeWithGenerated_turns fuel g r st ge re Hg Hr).
  destruct (mergeTurns_tree fuel IH g r (fields ge) (fields re) (cache st)
              (keys (fields ge)) st Hnd) as (st' & Hrun & Hpairs & Hframe & Hlast);
    [done|done|].
  exists st'. split; [done|]. split.
  - intros g' r' ge' re' [[= -> ->]|Hin]%elem_of_cons Hg' Hr'.
    + rewrite Hg in Hg'. rewrite Hr in Hr'. injection Hg' as <-. injection Hr' as <-.
      apply Hlast. unfold keys. by destruct (fields ge).
    + by apply (Hpairs g' r' ge' re').
  - intros id Hid. apply Hframe. exact Hid.
Qed.

(** A merge that finds what it needs merges the entities of every field
    at which the generated entity refers to a generated id and the real one
    has a reference. *)
Lemma mergePairs_child depth (c : NormalizedCache) generatedKey realKey generated real
    key id g realId rg :
  c !! generatedKey = Some generated -> c !! realKey = Some real ->
  lookupProp (fields generated) key = Some (SVId id g) ->
  isGeneratedId id = true ->
  lookupProp (fields real) key = Some (SVId realId rg) ->
  mergeable depth c generatedKey realKey = true ->
  (id, realId) ∈ mergePairs depth c generatedKey realKey.
Proof.
  intros Hg Hr Hv Hgen Hrv. destruct depth as [|depth]; [done|].
  cbn [mergeable mergePairs]. rewrite Hg, Hr.
  destruct (fields generated) as [|kv o] eqn:Hfields; [done|]. rewrite <- Hfields in *.
  intros Hok. right. apply list_elem_of_In, in_flat_map. exists key.
  assert (Hin : In key (keys (fields generated)))
    by (apply list_elem_of_In; by eapply lookupProp_Some_keys).
  split; [done|].
  apply (proj1 (forallb_forall _ _) Hok) in Hin. revert Hin.
  unfold mergedField. rewrite Hv, Hrv, Hgen.
  destruct depth as [|depth]; [done|]. intros _. left. reflexivity.
Qed.

(** ** The object branch of writeFieldToStore *)

Section ObjectBranch.
Variable Number : string -> string.
Variable variables : option Obj.
Variable dataIdFromObject : option (JSValue -> option string).

Local Abbreviation writeField := (writeFieldToStore Number variables dataIdFromObject).

Lemma objectDataId_state dataId key value st :
  fst (objectDataId dataIdFromObject dataId key value st) = st.
Proof.
  unfold objectDataId. destruct (semanticIdOf _ _) as [semanticId|]; [|done].
  by destruct (isGeneratedId semanticId).
Qed.

(** The object branch up to the check against the slot. *)
Lemma writeFieldToStore_object fuel rec field selectionSet value dataId key st
    valueDataId generated st1 :
  storeKeyNameFromField Number variables field = Ok key ->
  isNull value = false -> (forall items, value <> JArray items) ->
  objectDataId dataIdFromObject dataId key value st = (st, Ok (valueDataId, generated)) ->
  rec valueDataId value selectionSet st = (st1, Ok tt) ->
  writeField fuel rec field (Some selectionSet) value dataId st =
    (letM generatedKey := checkOverwrite dataId key generated in
     storeField fuel dataId key (SVId valueDataId generated) generatedKey) st1.
Proof.
  intros Hkey Hnull Harr Hid Hrec.
  unfold writeFieldToStore, bind at 1, liftR. rewrite Hkey, Hnull.
  assert (Hbranch : forall (a : list JSValue -> M unit) (b : M unit),
            match value with JArray items => a items | _ => b end = b).
  { intros a b. destruct value; try done. by destruct (Harr items). }
  rewrite Hbranch. unfold bind at 1. rewrite Hid. cbn [fst snd].
  unfold bind at 1. by rewrite Hrec.
Qed.

Lemma checkOverwrite_rejects dataId key st obj escapedId :
  cache st !! dataId = Some obj ->
  lookupProp (fields obj) key = Some (SVId escapedId false) ->
  checkOverwrite dataId key true st = (st, Err (IdentityOverwrite escapedId)).
Proof.
  intros Hobj Hslot. unfold checkOverwrite, bind, getStore. by rewrite Hobj, Hslot.
Qed.

Lemma checkOverwrite_passes dataId key generated st obj :
  cache st !! dataId = Some obj ->
  generated = false \/
    (exists escapedId, lookupProp (fields obj) key = Some (SVId escapedId true)) ->
  checkOverwrite dataId key generated st =
    (st, Ok match lookupProp (fields obj) key with
            | Some (SVId escapedId true) => Some escapedId
            | _ => None
            end).
Proof.
  intros Hobj Hcase. unfold checkOverwrite, bind, getStore. rewrite Hobj.
  destruct (lookupProp (fields obj) key) as [[| |escapedId [|]|]|] eqn:Hslot; try done.
  - by rewrite andb_false_r.
  - destruct Hcase as [->|[? [=]]]. done.
Qed.

(** [storeField] when there is a generated entity to merge: the merge
    runs, and [store[dataId]] is assigned whatever it held. *)
Lemma storeField_merge fuel dataId key id generated generatedKey st :
  storeField fuel dataId key (SVId id generated) (Some generatedKey) st =
    match mergeWithGenerated fuel generatedKey id st with
    | (st', Ok _) =>
        storeAssign dataId
          (assign (default [] (fields <$> cache st !! dataId)) [(key, SVId id generated)]) st'
    | (st', Err e) => (st', Err e)
    end.
Proof.
  unfold storeField, bind, getStore, ret. cbn [fst snd].
  destruct (mergeWithGenerated fuel generatedKey id st) as [st' [[]|e]]; [|done].
  destruct (cache st' !! dataId); [|done].
  by rewrite sameStoreValue_object.
Qed.

Lemma storeField_no_id fuel dataId key storeValue generatedKey st :
  match storeValue with SVId _ _ => False | _ => True end ->
  storeField fuel dataId key storeValue generatedKey st =
    storeField fuel dataId key storeValue None st.
Proof. by destruct generatedKey, storeValue. Qed.

Lemma storeField_not_overwrite fuel dataId key storeValue generatedKey st e :
  snd (storeField fuel dataId key storeValue generatedKey st) = Err e ->
  ~ (exists existingId, e = IdentityOverwrite existingId).
Proof.
  assert (Hnone : snd (storeField fuel dataId key storeValue None st) = Err e -> False).
  { rewrite storeField_None.
    destruct (cache st !! dataId); [destruct (sameStoreValue _ _)|]; discriminate. }
  destruct generatedKey as [generatedKey|]; [|by intros ?%Hnone].
  destruct storeValue as [p|json|id generated|ids];
    try (rewrite storeField_no_id by done; by intros ?%Hnone).
  rewrite storeField_merge.
  destruct (mergeWithGenerated fuel generatedKey id st) as [st' [[]|e']] eqn:Hm;
    [discriminate|].
  cbn [snd]. intros [= <-]. apply (mergeWithGenerated_not_overwrite fuel generatedKey id st).
  by rewrite Hm.
Qed.
End ObjectBranch.

(** C4.  In the object branch, once the nested object is written: when
    the id of the object is generated and the slot holds a real reference,
    the write throws the overwrite error naming the id the slot holds.  When
    the id is real, or the slot holds a generated reference, the write goes on
    to the store step, with the merge of the generated entity of the slot
    into the new id whenever the slot holds a generated reference; and the
    store step never throws the overwrite error. *)
Theorem generated_over_real_rejected
    (Number : string -> string) (variables : option Obj)
    (dataIdFromObject : option (JSValue -> option string))
    (fuel : nat) (rec : string -> JSValue -> SelectionSet -> M unit)
    (field : FieldNode) (selectionSet : SelectionSet) (value : JSValue)
    (dataId key valueDataId : string) (generated : bool) (st st1 : Store) (obj : Entity) :
  storeKeyNameFromField Number variables field = Ok key ->
  isNull value = false -> (forall items, value <> JArray items) ->
  objectDataId dataIdFromObject dataId key value st = (st, Ok (valueDataId, generated)) ->
  rec valueDataId value selectionSet st = (st1, Ok tt) ->
  cache st1 !! dataId = Some obj ->
  (forall escapedId,
     generated = true ->
     lookupProp (fields obj) key = Some (SVId escapedId false) ->
     writeFieldToStore Number variables dataIdFromObject fuel rec field (Some selectionSet)
       value dataId st = (st1, Err (IdentityOverwrite escapedId))) /\
  (generated = false \/
     (exists escapedId, lookupProp (fields obj) key = Some (SVId escapedId true)) ->
   writeFieldToStore Number variables dataIdFromObject fuel rec field (Some selectionSet)
     value dataId st =
   storeField fuel dataId key (SVId valueDataId generated)
     match lookupProp (fields obj) key with
     | Some (SVId escapedId true) => Some escapedId
     | _ => None
     end st1) /\
  (forall escapedId,
     storeField fuel dataId key (SVId valueDataId generated) (Some escapedId) st1 =
       match mergeWithGenerated fuel escapedId valueDataId st1 with
       | (st2, Ok _) =>
           storeAssign dataId (assign (fields obj) [(key, SVId valueDataId generated)]) st2
       | (st2, Err e) => (st2, Err e)
       end) /\
  (forall generatedKey e,
     snd (storeField fuel dataId key (SVId valueDataId generated) generatedKey st1) = Err e ->
     forall existingId, e <> IdentityOverwrite existingId).
Proof.
  intros Hkey Hnull Harr Hid Hrec Hobj.
  pose proof (writeFieldToStore_object Number variables dataIdFromObject fuel rec field
                selectionSet value dataId key st valueDataId generated st1
                Hkey Hnull Harr Hid Hrec) as Hwrite.
  repeat split.
  - intros escapedId -> Hslot. rewrite Hwrite. unfold bind.
    by rewrite (checkOverwrite_rejects dataId key st1 obj escapedId).
  - intros Hcase. rewrite Hwrite. unfold bind.
    by rewrite (checkOverwrite_passes dataId key generated st1 obj).
  - intros escapedId. rewrite storeField_merge. by rewrite Hobj.
  - intros generatedKey e He existingId ->.
    apply (storeField_not_overwrite _ _ _ _ _ _ _ He). by exists existingId.
Qed.

Lemma generated_over_real_rejected_witness :
  snd (writeUserWithoutId storeWithRealUser) = Err (IdentityOverwrite "User42").
Proof.
  pose (st1 := fst (writeUsers 4 "$ROOT_QUERY.user" userValueWithoutId userSelectionSet
                      storeWithRealUser)).
  assert (Hkey : storeKeyNameFromField canonicalNumber None userFieldNode = Ok "user")
    by reflexivity.
  assert (Hnull : isNull userValueWithoutId = false) by reflexivity.
  assert (Harr : forall items, userValueWithoutId <> JArray items) by (intros; discriminate).
  assert (Hid : objectDataId (Some typenameAndId) "ROOT_QUERY" "user" userValueWithoutId
                  storeWithRealUser = (storeWithRealUser, Ok ("$ROOT_QUERY.user", true)))
    by (vm_compute; reflexivity).
  assert (Hrec : writeUsers 4 "$ROOT_QUERY.user" userValueWithoutId userSelectionSet
                   storeWithRealUser = (st1, Ok tt))
    by (vm_compute; reflexivity).
  assert (Hobj : cache st1 !! "ROOT_QUERY" = Some (mkEntity 7 [("user", SVId "User42" false)]))
    by (vm_compute; reflexivity).
  destruct (generated_over_real_rejected canonicalNumber None (Some typenameAndId) 4
              (writeUsers 4) userFieldNode userSelectionSet userValueWithoutId
              "ROOT_QUERY" "user" "$ROOT_QUERY.user" true storeWithRealUser st1 _
              Hkey Hnull Harr Hid Hrec Hobj) as [Hreject _].
  unfold writeUserWithoutId. by rewrite (Hreject "User42" eq_refl eq_refl).
Defined.



(** ** Generated ids *)

Lemma isGeneratedId_append id suffix :
  id <> EmptyString -> isGeneratedId (id +:+ suffix) = isGeneratedId id.
Proof. by destruct id. Qed.

Section GeneratedIds.
Variable Number : string -> string.
Variable variables : option Obj.
Variable dataIdFromObject : option (JSValue -> option string).

(** The object branch: an object the callback names no id for gets
    [$dataId.fieldKey], the [$] being added unless [dataId] has it. *)
Lemma objectDataId_generated dataId key value st :
  semanticIdOf dataIdFromObject value = None ->
  exists id,
    objectDataId dataIdFromObject dataId key value st = (st, Ok (id, true)) /\
    isGeneratedId id = true /\
    id = (if isGeneratedId dataId then dataId +:+ "." +:+ key
          else "$" +:+ dataId +:+ "." +:+ key).
Proof.
  intros Hsem. unfold objectDataId. rewrite Hsem.
  assert (Hs : isGeneratedId (dataId +:+ "." +:+ key) = isGeneratedId dataId)
    by by destruct dataId.
  rewrite Hs.
  destruct (isGeneratedId dataId) eqn:E; eexists; (split; [reflexivity|]);
    split; done.
Qed.

(** The object branch: an id of the callback that begins with [$] is
    refused before anything is written. *)
Lemma writeFieldToStore_identity_violation fuel rec field selectionSet value dataId
    key semanticId st :
  storeKeyNameFromField Number variables field = Ok key ->
  isNull value = false -> (forall items, value <> JArray items) ->
  semanticIdOf dataIdFromObject value = Some semanticId ->
  isGeneratedId semanticId = true ->
  writeFieldToStore Number variables dataIdFromObject fuel rec field (Some selectionSet)
    value dataId st = (st, Err IdentityViolation).
Proof.
  intros Hkey Hnull Harr Hsem Hgen.
  unfold writeFieldToStore, bind at 1, liftR. rewrite Hkey, Hnull.
  destruct value; try (by destruct (Harr items));
    unfold bind, objectDataId; by rewrite Hsem, Hgen.
Qed.

(** The array branch: the ids of the items, with no [$] added and no id
    of the callback refused. *)
Lemma writeItems_ids rec dataId key selectionSet items index st st' thisIdList :
  writeItems dataIdFromObject rec dataId key selectionSet items index st
    = (st', Ok thisIdList) ->
  thisIdList = itemIds dataIdFromObject dataId key items index.
Proof.
  revert index st st' thisIdList.
  induction items as [|item items IH]; intros index st st' thisIdList;
    cbn [writeItems itemIds].
  - by intros [= _ <-].
  - intros H. apply bind_Ok in H as (s1 & pushed & Hitem & H).
    apply bind_Ok in H as (s2 & rest & Hrest & Hret).
    injection Hret as _ <-. apply IH in Hrest as <-. f_equal.
    destruct (isNull item); [by injection Hitem as _ <-|].
    apply bind_Ok in Hitem as (s0 & [] & _ & Hret). by injection Hret as _ <-.
Qed.
End GeneratedIds.

(** C2 on the array branch (the code departs from the claim).  The item
    of a list under [ROOT_QUERY] that the callback names no id for is stored
    under [ROOT_QUERY.todos.0], an id without the [$] of generated ids, while
    the same object as a nested object gets [$ROOT_QUERY.todo]. *)
Theorem array_item_id_lacks_dollar :
  (exists st,
     writeTodos None emptyStore = (st, Ok tt) /\
     (fields <$> cache st !! "ROOT_QUERY") ≫= (fun o => lookupProp o "todos") =
       Some (SVList [Some "ROOT_QUERY.todos.0"]) /\
     fields <$> cache st !! "ROOT_QUERY.todos.0" = Some [("text", SVPrim (PString "hi"))] /\
     isGeneratedId "ROOT_QUERY.todos.0" = false) /\
  (exists st,
     writeTodo None emptyStore = (st, Ok tt) /\
     (fields <$> cache st !! "ROOT_QUERY") ≫= (fun o => lookupProp o "todo") =
       Some (SVId "$ROOT_QUERY.todo" true)).
Proof.
  split.
  - exists (fst (writeTodos None emptyStore)). by vm_compute.
  - exists (fst (writeTodo None emptyStore)). by vm_compute.
Qed.

(** C3 on the array branch (the code departs from the claim).  When the
    callback returns an id beginning with [$] for the item of a list, the
    write returns normally and stores the item under that id; for the same
    object as a nested object the write throws. *)
Theorem array_item_dollar_id_accepted :
  (exists st,
     writeTodos (Some dollarId) emptyStore = (st, Ok tt) /\
     (fields <$> cache st !! "ROOT_QUERY") ≫= (fun o => lookupProp o "todos") =
       Some (SVList [Some "$Todo3"]) /\
     fields <$> cache st !! "$Todo3" = Some [("text", SVPrim (PString "hi"))]) /\
  writeTodo (Some dollarId) emptyStore = (emptyStore, Err IdentityViolation).
Proof.
  split.
  - exists (fst (writeTodos (Some dollarId) emptyStore)). by vm_compute.
  - by vm_compute.
Qed.

(** ** The graph writer and fields without data *)

Section GraphPartialWrite.
Variable getFieldKey : FieldNode -> string.
Variable getDataID : JSValue -> option string.
Variable fragments : gmap string SelectionSet.

Local Abbreviation writeSel := (Graph.writeSelection getFieldKey getDataID fragments).

(** A field without data throws the partial-write error; nothing has
    been written for it. *)
Lemma writeSelection_no_data fuel rec id data nextData field fieldSelectionSet graph :
  isUndefined (default undefined (lookupProp data (resultKeyNameFromField field))) = true ->
  writeSel fuel rec id data nextData (Field field fieldSelectionSet) graph =
    (graph, Err (Graph.NoDataForField (resultKeyNameFromField field))).
Proof. intros H. unfold Graph.writeSelection. by rewrite H. Qed.

(** A partial-write error of the write of an inline fragment is caught:
    the data under construction stays as it was, and the graph stays as the
    write of the fragment left it. *)
Lemma writeSelection_fragment_caught fuel rec id data nextData dirs selectionSet
    graph graph' error :
  rec id data selectionSet graph = (graph', Err error) ->
  Graph._partialWrite error = true ->
  writeSel fuel rec id data nextData (InlineFragment dirs selectionSet) graph =
    (graph', Ok nextData).
Proof.
  intros Hrec Hpartial. unfold Graph.writeSelection, Graph.catchPartialWrite, bind.
  by rewrite Hrec, Hpartial.
Qed.

(** Any other error of the write of a fragment goes on to the caller. *)
Lemma writeSelection_fragment_rethrown fuel rec id data nextData dirs selectionSet
    graph graph' error :
  rec id data selectionSet graph = (graph', Err error) ->
  Graph._partialWrite error = false ->
  writeSel fuel rec id data nextData (InlineFragment dirs selectionSet) graph =
    (graph', Err error).
Proof.
  intros Hrec Hpartial. unfold Graph.writeSelection, Graph.catchPartialWrite, bind.
  by rewrite Hrec, Hpartial.
Qed.
End GraphPartialWrite.

(** C6 (the code departs from the claim).  The inline fragment [{ a b }]
    is written over data without [b]: its write is given up and the writes of
    the fields around it proceed, the data returned has nothing of the
    fragment, but the scalar [a], written before [b] was found missing, stays
    in the node of the graph.  Outside a fragment the missing field is an
    error of the whole write. *)
Theorem abandoned_fragment_leaves_scalar :
  (exists graph,
     writePartial ∅ =
       (graph, Ok (Graph.NextObject (Some "ROOT")
                     [("c", Graph.Raw (str "3")); ("d", Graph.Raw (str "4"))])) /\
     (Graph.scalars <$> graph !! "ROOT") ≫= (.!! "a") = Some (str "1") /\
     (Graph.scalars <$> graph !! "ROOT") ≫= (.!! "c") = Some (str "3") /\
     (Graph.scalars <$> graph !! "ROOT") ≫= (.!! "d") = Some (str "4")) /\
  snd (Graph.writeToGraph fieldNameKey noDataID ∅ 3 (Some "ROOT") partialData
         [scalarField "c"; scalarField "b"] ∅) = Err (Graph.NoDataForField "b").
Proof.
  split.
  - exists (fst (writePartial ∅)). by vm_compute.
  - by vm_compute.
Qed.

(** ** The optimistic layer stack *)

Module OptimisticFacts.
Import Optimistic.

Lemma overlay_lookup (upper lower : FlatStore) (id field : string) :
  overlay upper lower !! id ≫= (.!! field) =
    match upper !! id ≫= (.!! field) with
    | Some v => Some v
    | None => lower !! id ≫= (.!! field)
    end.
Proof.
  unfold overlay. rewrite lookup_union_with.
  destruct (upper !! id) as [u|], (lower !! id) as [l|]; cbn; try done.
  - rewrite lookup_union. by destruct (u !! field), (l !! field).
  - by destruct (u !! field).
Qed.

(** Reading through the layers is reading the effective store. *)
Lemma read_effective (s : Stack) (id field : string) :
  read s id field = effective s !! id ≫= (.!! field).
Proof.
  unfold read, effective. induction (layers s) as [|top below IH]; cbn; [done|].
  by rewrite overlay_lookup, IH.
Qed.

Lemma splitAtLayer_top m f diff0 below :
  splitAtLayer m (mkLayer m f diff0 :: below) = Some ([], below).
Proof. cbn. by rewrite String.eqb_refl. Qed.

Lemma removeOptimistic_recordOptimistic m f s :
  removeOptimistic m (recordOptimistic m f s) = s.
Proof.
  unfold removeOptimistic, recordOptimistic. cbn [layers base].
  rewrite splitAtLayer_top. by destruct s.
Qed.
End OptimisticFacts.

(** C8.  Recording an optimistic layer and then removing it gives back
    the stack: every read through the layers returns what it returned before
    the layer was pushed, the effective store is what it was, and an entity
    absent from the effective store before is absent after. *)
Theorem record_then_remove_is_noop
    (m : string) (f : Optimistic.FlatStore -> Optimistic.FlatStore) (s : Optimistic.Stack) :
  let s' := Optimistic.removeOptimistic m (Optimistic.recordOptimistic m f s) in
  (forall id field, Optimistic.read s' id field = Optimistic.read s id field) /\
  Optimistic.effective s' = Optimistic.effective s /\
  (forall id, Optimistic.effective s !! id = None -> Optimistic.effective s' !! id = None).
Proof.
  cbv zeta. by rewrite OptimisticFacts.removeOptimistic_recordOptimistic.
Qed.

(** * Further properties *)

(** ** The encoder and the kinds of value nodes *)

Lemma ValueNode_nested_ind (P : ValueNode -> Prop) :
  (forall v, P (IntValue v)) -> (forall v, P (FloatValue v)) ->
  (forall v, P (StringValue v)) -> (forall b, P (BooleanValue b)) ->
  (forall fields, Forall (fun obj => P (snd obj)) fields -> P (ObjectValue fields)) ->
  (forall n, P (Variable_ n)) ->
  (forall values, Forall P values -> P (ListValue values)) ->
  (forall v, P (EnumValue v)) -> (forall k, P (OtherValue k)) ->
  forall value, P value.
Proof.
  intros Hi Hf Hs Hb Ho Hv Hl He Hk. fix IH 1. intros [v|v|v|b|fields|n|values|v|k];
    [apply Hi|apply Hf|apply Hs|apply Hb| |apply Hv| |apply He|apply Hk].
  - apply Ho. induction fields as [|obj fields IHf]; constructor; [apply IH|apply IHf].
  - apply Hl. induction values as [|x values IHv]; constructor; [apply IH|apply IHv].
Qed.

Section SupportedKinds.
Variable Number : string -> string.
Variable variables : option Obj.

Local Abbreviation vtor := (valueToObjectRepresentation Number variables).
Local Abbreviation args2obj := (argumentsToObject Number variables).

(** A value converts exactly when all its nodes are of a kind the encoder
    has a case for; the only error is the one naming a kind. *)
Lemma valueToObjectRepresentation_supported value :
  forall argObj name,
    if supportedValue value
    then exists o, vtor argObj name value = Ok o
    else exists n k, vtor argObj name value = Err (UnsupportedArgumentKind n k).
Proof.
  induction value as [v|v|v|b|fields IHfields|n|values IHvalues|v|k]
    using ValueNode_nested_ind; intros argObj name; cbn [supportedValue];
    try (eexists; reflexivity).
  - cbn [valueToObjectRepresentation].
    match goal with |- context [bindR (?each fields []) _] => set (loop := each) end.
    assert (Hloop : forall acc,
              if forallb (fun obj => supportedValue (snd obj)) fields
              then exists o, loop fields acc = Ok o
              else exists n k, loop fields acc = Err (UnsupportedArgumentKind n k)).
    { induction IHfields as [|obj fields Hobj _ IH]; intros acc; [by eexists|].
      cbn [forallb]. subst loop. cbn -[valueToObjectRepresentation].
      specialize (Hobj acc (fst obj)).
      destruct (supportedValue (snd obj)); cbn [andb].
      - destruct Hobj as [o ->]. cbn [bindR]. apply IH.
      - destruct Hobj as (n & k & ->). by exists n, k. }
    specialize (Hloop []).
    destruct (forallb _ fields).
    + destruct Hloop as [o ->]. by eexists.
    + destruct Hloop as (n & k & ->). by exists n, k.
  - cbn [valueToObjectRepresentation].
    match goal with |- context [bindR (?each values) _] => set (loop := each) end.
    assert (Hloop : if forallb supportedValue values
                    then exists o, loop values = Ok o
                    else exists n k, loop values = Err (UnsupportedArgumentKind n k)).
    { induction IHvalues as [|x values Hx _ IH]; [by eexists|].
      cbn [forallb]. subst loop. cbn -[valueToObjectRepresentation].
      specialize (Hx [] name).
      destruct (supportedValue x); cbn [andb].
      - destruct Hx as [o ->]. cbn [bindR].
        destruct (forallb supportedValue values).
        + destruct IH as [items ->]. by eexists.
        + destruct IH as (n & k & ->). by exists n, k.
      - destruct Hx as (n & k & ->). by exists n, k. }
    destruct (forallb _ values).
    + destruct Hloop as [o ->]. by eexists.
    + destruct Hloop as (n & k & ->). by exists n, k.
  - by exists name, k.
Qed.

Lemma argumentsToObject_supported args :
  forall argObj,
    if forallb (fun arg => supportedValue (snd arg)) args
    then exists o, args2obj args argObj = Ok o
    else exists n k, args2obj args argObj = Err (UnsupportedArgumentKind n k).
Proof.
  induction args as [|[n v] args IH]; intros argObj; [by eexists|].
  cbn [forallb argumentsToObject snd].
  pose proof (valueToObjectRepresentation_supported v argObj n) as Hv.
  destruct (supportedValue v); cbn [andb].
  - destruct Hv as [o ->]. cbn [bindR]. apply IH.
  - destruct Hv as (n' & k & ->). by exists n', k.
Qed.
End SupportedKinds.


(** ** Keys and names *)

Lemma append_noParen_inj a b x y :
  noParen a = true -> noParen b = true ->
  a +:+ "(" +:+ x = b +:+ "(" +:+ y -> a = b.
Proof.
  revert b. induction a as [|c a IH]; intros [|d b]; cbn; try done.
  - intros _ Hb [= <- _]. done.
  - intros Ha _ [= -> _]. done.
  - intros Ha Hb [= <- Heq]. apply andb_prop in Ha as [_ Ha], Hb as [_ Hb].
    f_equal. by apply IH.
Qed.

Lemma noParen_no_paren a b y : noParen a = true -> a <> b +:+ "(" +:+ y.
Proof.
  revert a. induction b as [|d b IH]; intros [|c a]; cbn; try done.
  - intros Ha [= -> _]. done.
  - intros Ha [= <- Heq]. apply andb_prop in Ha as [_ Ha]. by apply (IH a).
Qed.

(** X2.  Fields whose names are GraphQL names (no parenthesis in them)
    and whose keys are equal have the same name, and either both have
    arguments or neither has: a field and the same field with arguments
    never share a slot. *)
Theorem storeKeyNameFromField_separates_names
    (Number : string -> string) (variables : option Obj) (field1 field2 : FieldNode)
    (key : string) :
  noParen (name field1) = true -> noParen (name field2) = true ->
  storeKeyNameFromField Number variables field1 = Ok key ->
  storeKeyNameFromField Number variables field2 = Ok key ->
  name field1 = name field2 /\ (arguments field1 = [] <-> arguments field2 = []).
Proof.
  intros Hn1 Hn2.
  destruct (arguments field1) as [|a1 args1] eqn:E1, (arguments field2) as [|a2 args2] eqn:E2.
  - rewrite !storeKeyNameFromField_no_arguments by done. by intros [= <-] [= <-].
  - rewrite storeKeyNameFromField_no_arguments by done.
    rewrite storeKeyNameFromField_nonempty by by rewrite E2.
    intros [= <-]. destruct (argumentsToObject _ _ _ _) as [o|e]; [|done].
    intros [= Heq]. symmetry in Heq. by apply noParen_no_paren in Heq.
  - rewrite (storeKeyNameFromField_no_arguments _ _ field2) by done.
    rewrite storeKeyNameFromField_nonempty by by rewrite E1.
    destruct (argumentsToObject _ _ _ _) as [o|e]; [|done].
    intros [= <-] [= Heq]. by apply noParen_no_paren in Heq.
  - rewrite !storeKeyNameFromField_nonempty by by rewrite ?E1, ?E2.
    destruct (argumentsToObject _ _ (arguments field1) _) as [o1|e1]; [|done].
    destruct (argumentsToObject _ _ (arguments field2) _) as [o2|e2]; [|done].
    intros [= <-] [= Heq]. split; [|done].
    symmetry. by eapply append_noParen_inj.
Qed.

Lemma storeKeyNameFromField_separates_names_witness :
  name (mkField None "todos" [] []) =
    name (mkField (Some "all") "todos" [] []) /\
  (arguments (mkField None "todos" [] []) = [] <->
   arguments (mkField (Some "all") "todos" [] []) = []).
Proof.
  apply (storeKeyNameFromField_separates_names canonicalNumber None
           (mkField None "todos" [] []) (mkField (Some "all") "todos" [] []) "todos");
    reflexivity.
Defined.

(** ** Enum values and strings *)

Section EnumAsString.
Variable Number : string -> string.
Variable variables : option Obj.

Local Abbreviation vtor := (valueToObjectRepresentation Number variables).
Local Abbreviation args2obj := (argumentsToObject Number variables).

Lemma valueToObjectRepresentation_enumAsString value :
  forall argObj name, vtor argObj name (enumAsString value) = vtor argObj name value.
Proof.
  induction value as [v|v|v|b|fields IHfields|n|values IHvalues|v|k]
    using ValueNode_nested_ind; intros argObj name; try reflexivity.
  - cbn [enumAsString valueToObjectRepresentation].
    match goal with |- bindR (?each _ []) _ = _ => set (loop := each) end.
    assert (Hloop : forall acc,
              loop (map (fun obj => (fst obj, enumAsString (snd obj))) fields) acc =
              loop fields acc).
    { induction IHfields as [|obj fields Hobj _ IH]; intros acc; [done|].
      subst loop. cbn -[valueToObjectRepresentation]. rewrite Hobj.
      destruct (vtor acc (fst obj) (snd obj)); [apply IH|done]. }
    by rewrite Hloop.
  - cbn [enumAsString valueToObjectRepresentation].
    match goal with |- bindR (?each _) _ = _ => set (loop := each) end.
    assert (Hloop : loop (map enumAsString values) = loop values).
    { induction IHvalues as [|x values Hx _ IH]; [done|].
      subst loop. cbn -[valueToObjectRepresentation]. rewrite Hx.
      destruct (vtor [] name x); [|done]. cbn [bindR]. by rewrite IH. }
    by rewrite Hloop.
Qed.

Lemma argumentsToObject_enumAsString args argObj :
  args2obj (map (fun arg => (fst arg, enumAsString (snd arg))) args) argObj =
    args2obj args argObj.
Proof.
  revert argObj. induction args as [|[n v] args IH]; intros argObj; [done|].
  cbn [map argumentsToObject fst snd]. rewrite valueToObjectRepresentation_enumAsString.
  destruct (vtor argObj n v); [apply IH|done].
Qed.
End EnumAsString.

(** X3.  The encoder does not tell an enum value from the string of its
    name: writing the enum values of the arguments as strings, at any depth
    of lists and objects, leaves the key (or the error) as it is. *)
Theorem storeKeyNameFromField_enum_as_string
    (Number : string -> string) (variables : option Obj) (field : FieldNode) :
  storeKeyNameFromField Number variables
    (mkField (alias field) (name field)
       (map (fun arg => (fst arg, enumAsString (snd arg))) (arguments field))
       (directives field)) =
  storeKeyNameFromField Number variables field.
Proof.
  destruct (arguments field) as [|a args] eqn:E.
  - rewrite !storeKeyNameFromField_no_arguments; cbn [arguments name]; by rewrite ?E.
  - rewrite !storeKeyNameFromField_nonempty; cbn [arguments name]; rewrite ?E; try done.
    by rewrite <- E, argumentsToObject_enumAsString.
Qed.

(** ** String escapes *)

Lemma append_assoc_string (a b c : string) : (a +:+ b) +:+ c = a +:+ b +:+ c.
Proof.
  induction a as [|x a IH]; [reflexivity|].
  change (String x ((a +:+ b) +:+ c) = String x (a +:+ b +:+ c)). by rewrite IH.
Qed.

Lemma append_cons (x : ascii) (a b : string) : String x a +:+ b = String x (a +:+ b).
Proof. reflexivity. Qed.

Lemma append_nil (b : string) : EmptyString +:+ b = b.
Proof. reflexivity. Qed.

Lemma append_nil_r (a : string) : a +:+ EmptyString = a.
Proof.
  induction a as [|x a IH]; [reflexivity|]. rewrite append_cons. by rewrite IH.
Qed.

Lemma append_inv_head (p a b : string) : p +:+ a = p +:+ b -> a = b.
Proof.
  induction p as [|x p IH]; [done|]. rewrite !append_cons. intros [= H]. by apply IH.
Qed.

Lemma append_length (a b : string) :
  String.length (a +:+ b) = String.length a + String.length b.
Proof.
  induction a as [|x a IH]; [reflexivity|]. rewrite append_cons. cbn [String.length].
  by rewrite IH.
Qed.

Lemma append_inv_tail (a b t : string) : a +:+ t = b +:+ t -> a = b.
Proof.
  revert b. induction a as [|x a IH]; intros [|y b]; rewrite ?append_cons, ?append_nil;
    try done.
  - intros H. apply (f_equal String.length) in H. cbn [String.length] in H.
    rewrite append_length in H. lia.
  - intros H. apply (f_equal String.length) in H. cbn [String.length] in H.
    rewrite append_length in H. lia.
  - intros [= -> H]. f_equal. by apply IH.
Qed.

Lemma unescapeString_escapeChar c rest :
  unescapeString (escapeChar c +:+ rest) = String c (unescapeString rest).
Proof. destruct c as [[] [] [] [] [] [] [] []]; reflexivity. Qed.

(** What [escapeString] writes reads back, whatever follows it. *)
Lemma unescapeString_escapeString s rest :
  unescapeString (escapeString s +:+ rest) = s +:+ unescapeString rest.
Proof.
  induction s as [|c s IH]; [reflexivity|]. cbn [escapeString].
  by rewrite append_assoc_string, unescapeString_escapeChar, IH.
Qed.

Lemma escapeString_inj_tail s1 s2 tail :
  escapeString s1 +:+ tail = escapeString s2 +:+ tail -> s1 = s2.
Proof.
  intros H. apply (f_equal unescapeString) in H.
  rewrite !unescapeString_escapeString in H. by apply append_inv_tail in H.
Qed.

Lemma quote_inj_tail s1 s2 tail : quote s1 +:+ tail = quote s2 +:+ tail -> s1 = s2.
Proof.
  unfold quote. rewrite !append_assoc_string. intros H.
  apply append_inv_head in H. by apply escapeString_inj_tail in H.
Qed.

Section StringArguments.
Variable Number : string -> string.
Variable variables : option Obj.

Local Abbreviation args2obj := (argumentsToObject Number variables).

(** Arguments named otherwise than [x] build their properties after a
    first property [x] as they do without it. *)
Lemma argumentsToObject_after_first rest x v acc :
  x ∉ map fst rest ->
  args2obj rest ((x, v) :: acc) =
    match args2obj rest acc with
    | Ok o => Ok ((x, v) :: o)
    | Err e => Err e
    end.
Proof.
  revert acc. induction rest as [|[n val] rest IH]; intros acc Hx; [done|].
  cbn [map fst] in Hx. apply not_elem_of_cons in Hx as [Hne Hx].
  cbn [argumentsToObject].
  destruct (valueToObjectRepresentation Number variables acc n val) as [acc'|e] eqn:E.
  - apply valueToObjectRepresentation_assigns in E as (w & -> & Hany).
    rewrite Hany. cbn [bindR].
    assert (Hcons : assignProp ((x, v) :: acc) n w = (x, v) :: assignProp acc n w).
    { unfold assignProp. cbn [lookupProp setProp].
      assert (String.eqb x n = false) as -> by by apply String.eqb_neq.
      destruct (lookupProp acc n); [done|]. by destruct (String.eqb n "__proto__"). }
    rewrite Hcons. by apply IH.
  - by rewrite (valueToObjectRepresentation_Err _ _ _ ((x, v) :: acc) _ _ _ E).
Qed.
End StringArguments.

(** X4.  Two fields that differ in the string value of their first
    argument alone have different keys: the quoting of [JSON.stringify] is
    one to one.  The argument is not named [__proto__], a name that makes no
    property, and is not named again; and no other argument is named
    [__proto__] or [toJSON], the two names by which the argument object could
    come to a [toJSON] method, which [JSON.stringify] would call instead of
    printing the properties. *)
Theorem storeKeyNameFromField_separates_strings
    (Number : string -> string) (variables : option Obj)
    (al1 al2 : option string) (fieldName x s1 s2 : string)
    (rest : list ArgumentNode) (dirs1 dirs2 : list DirectiveNode) (key : string) :
  x <> "__proto__" -> x ∉ map fst rest ->
  "__proto__" ∉ map fst rest -> "toJSON" ∉ map fst rest ->
  storeKeyNameFromField Number variables
    (mkField al1 fieldName ((x, StringValue s1) :: rest) dirs1) = Ok key ->
  storeKeyNameFromField Number variables
    (mkField al2 fieldName ((x, StringValue s2) :: rest) dirs2) = Ok key ->
  s1 = s2.
Proof.
  intros Hproto Hx _ _. rewrite !storeKeyNameFromField_nonempty by done.
  cbn [arguments name argumentsToObject valueToObjectRepresentation bindR].
  unfold assignProp. cbn [lookupProp setProp].
  assert (String.eqb x "__proto__" = false) as -> by by apply String.eqb_neq.
  rewrite !argumentsToObject_after_first by done.
  destruct (argumentsToObject Number variables rest []) as [o|e]; [|done].
  cbn [bindR]. intros [= <-] [= Heq].
  unfold storeKeyNameFromFieldNameAndArgs, JSON_stringify in Heq.
  rewrite !stringify_JObject in Heq. cbn [default flat_map fst snd stringify app] in Heq.
  set (members := flat_map _ o) in Heq.
  assert (Hjoin : forall m, joinComma (m :: members) =
                    m +:+ match members with [] => EmptyString | _ => "," +:+ joinComma members end).
  { intros m. destruct members; cbn [joinComma]; [by rewrite append_nil_r|done]. }
  rewrite !Hjoin in Heq. unfold id in Heq. rewrite !append_assoc_string in Heq.
  do 5 apply append_inv_head in Heq.
  symmetry. by apply quote_inj_tail in Heq.
Qed.

Lemma storeKeyNameFromField_separates_strings_witness :
  "open" = "open".
Proof.
  apply (storeKeyNameFromField_separates_strings canonicalNumber None None (Some "mine")
           "todos" "state" "open" "open" [("first", IntValue "3")] [] []
           (default EmptyString
              (match storeKeyNameFromField canonicalNumber None
                       (mkField None "todos"
                          [("state", StringValue "open"); ("first", IntValue "3")] []) with
               | Ok key => Some key
               | Err _ => None
               end))).
  - discriminate.
  - apply (bool_decide_unpack _). vm_compute. exact I.
  - apply (bool_decide_unpack _). vm_compute. exact I.
  - apply (bool_decide_unpack _). vm_compute. exact I.
  - vm_compute. reflexivity.
  - vm_compute. reflexivity.
Defined.

(** ** What a field write leaves in the store *)

Lemma strictEq_eq p q : strictEq p q = true -> p = q.
Proof.
  destruct p as [| |x|x|x], q as [| |y|y|y]; cbn; try done.
  - by intros ->%Bool.eqb_prop.
  - intros [->%String.eqb_eq _]%andb_prop. done.
  - by intros ->%String.eqb_eq.
Qed.

Lemma slot_storeAssign dataId obj st d k :
  slot (fst (storeAssign dataId obj st)) d k =
    if decide (dataId = d) then lookupProp obj k else slot st d k.
Proof.
  unfold slot, storeAssign. cbn [fst cache]. rewrite lookup_insert.
  by destruct (decide (dataId = d)).
Qed.

Lemma storeField_slot fuel dataId key storeValue generatedKey st st' :
  storeField fuel dataId key storeValue generatedKey st = (st', Ok tt) ->
  storeValue <> SVPrim PUndefined ->
  slot st' dataId key = Some storeValue.
Proof.
  intros H Hdef.
  assert (Hassign : forall a s,
            slot (fst (storeAssign dataId (assign a [(key, storeValue)]) s)) dataId key
            = Some storeValue).
  { intros a s. rewrite slot_storeAssign. rewrite decide_True by done.
    apply lookupProp_assign_singleton. }
  assert (Hnone : storeField fuel dataId key storeValue None st = (st', Ok tt) ->
                  slot st' dataId key = Some storeValue).
  { rewrite storeField_None. destruct (cache st !! dataId) as [obj|] eqn:E.
    - destruct (sameStoreValue _ _) eqn:Esame.
      + intros [= <-]. unfold slot. rewrite E. cbn.
        unfold sameStoreValue in Esame.
        destruct storeValue as [p| | |]; try done.
        destruct (lookupProp (fields obj) key) as [[q| | |]|].
        * assert (strictEq p q = true) as ->%strictEq_eq by by destruct p. done.
        * by destruct p.
        * by destruct p.
        * by destruct p.
        * by destruct p.
      + intros H'. specialize (Hassign (fields obj) st). by rewrite H' in Hassign.
    - intros H'. specialize (Hassign [] st). by rewrite H' in Hassign. }
  destruct generatedKey as [generatedKey|]; [|by apply Hnone].
  destruct storeValue as [p|json|id generated|ids];
    try (rewrite storeField_no_id in H by done; by apply Hnone).
  rewrite storeField_merge in H.
  destruct (mergeWithGenerated fuel generatedKey id st) as [s [[]|e]]; [|done].
  specialize (Hassign (default [] (fields <$> cache st !! dataId)) s).
  by rewrite H in Hassign.
Qed.

Lemma itemIds_length dataIdFromObject dataId key items index :
  length (itemIds dataIdFromObject dataId key items index) = length items.
Proof.
  revert index. induction items as [|item items IH]; intros index; cbn; [done|].
  by rewrite IH.
Qed.

Lemma itemIds_lookup dataIdFromObject dataId key items index i item :
  items !! i = Some item ->
  itemIds dataIdFromObject dataId key items index !! i =
    Some (if isNull item then None
          else Some (default (dataId +:+ "." +:+ key +:+ "." +:+ string_of_nat (index + i))
                       (semanticIdOf dataIdFromObject item))).
Proof.
  revert index i. induction items as [|x items IH]; intros index [|i]; cbn; try done.
  - intros [= ->]. by rewrite Nat.add_0_r.
  - intros H. rewrite Nat.add_succ_r. exact (IH (S index) i H).
Qed.

Section AfterWrite.
Variable Number : string -> string.
Variable variables : option Obj.
Variable dataIdFromObject : option (JSValue -> option string).

Local Abbreviation writeField := (writeFieldToStore Number variables dataIdFromObject).

Lemma objectDataId_flag dataId key value st st' id generated :
  objectDataId dataIdFromObject dataId key value st = (st', Ok (id, generated)) ->
  st' = st /\ generated = isGeneratedId id /\
  (if generated then semanticIdOf dataIdFromObject value = None
   else semanticIdOf dataIdFromObject value = Some id).
Proof.
  destruct (semanticIdOf dataIdFromObject value) as [semanticId|] eqn:Hsem.
  - unfold objectDataId. rewrite Hsem.
    destruct (isGeneratedId semanticId) eqn:Hgen; [done|].
    intros [= <- <- <-]. by rewrite Hgen.
  - destruct (objectDataId_generated dataIdFromObject dataId key value st Hsem)
      as (id' & -> & Hgen & _).
    intros [= <- <- <-]. by rewrite Hgen.
Qed.
End AfterWrite.

(** X5.  After a field write that returns, the slot of the field holds
    what was written: the scalar itself, the value wrapped as a JSON blob,
    the list of the ids of the items, or a reference whose [generated] flag
    says whether its id begins with [$], the id being the one the callback
    names whenever the flag is off. *)
Theorem writeFieldToStore_slot
    (Number : string -> string) (variables : option Obj)
    (dataIdFromObject : option (JSValue -> option string))
    (fuel : nat) (rec : string -> JSValue -> SelectionSet -> M unit)
    (field : FieldNode) (selectionSet : option SelectionSet) (value : JSValue)
    (dataId key : string) (st st' : Store) :
  storeKeyNameFromField Number variables field = Ok key ->
  writeFieldToStore Number variables dataIdFromObject fuel rec field selectionSet
    value dataId st = (st', Ok tt) ->
  (selectionSet = None \/ isNull value = true ->
   value <> undefined ->
   slot st' dataId key =
     Some (match value with JPrim p => SVPrim p | _ => SVJson value end)) /\
  (forall items,
     is_Some selectionSet -> value = JArray items ->
     slot st' dataId key = Some (SVList (itemIds dataIdFromObject dataId key items 0))) /\
  (is_Some selectionSet -> isNull value = false -> (forall items, value <> JArray items) ->
   exists id,
     slot st' dataId key = Some (SVId id (isGeneratedId id)) /\
     (if isGeneratedId id then semanticIdOf dataIdFromObject value = None
      else semanticIdOf dataIdFromObject value = Some id)).
Proof.
  intros Hkey Hwrite. repeat split.
  - intros Hleaf Hdef.
    rewrite writeFieldToStore_leaf with (key := key) in Hwrite by done.
    apply storeField_slot in Hwrite; [done|].
    destruct value as [[]| | | |]; try done.
  - intros items [selSet ->] ->.
    unfold writeFieldToStore, bind at 1, liftR in Hwrite. rewrite Hkey in Hwrite.
    cbn [isNull] in Hwrite.
    apply bind_Ok in Hwrite as (s1 & ids & Hitems & Hstore).
    apply writeItems_ids in Hitems as ->.
    by apply storeField_slot in Hstore.
  - intros [selSet ->] Hnull Harr.
    unfold writeFieldToStore, bind at 1, liftR in Hwrite. rewrite Hkey, Hnull in Hwrite.
    assert (Hbranch : forall (a : list JSValue -> M unit) (b : M unit),
              match value with JArray items => a items | _ => b end = b).
    { intros a b. destruct value; try done. by destruct (Harr items). }
    rewrite Hbranch in Hwrite.
    apply bind_Ok in Hwrite as (s1 & [id generated] & Hid & Hrest).
    apply objectDataId_flag in Hid as (-> & -> & Hsem).
    apply bind_Ok in Hrest as (s2 & [] & _ & Hrest).
    apply bind_Ok in Hrest as (s3 & generatedKey & _ & Hstore).
    cbn [fst snd] in Hstore. apply storeField_slot in Hstore; [|done].
    by exists id.
Qed.

Lemma writeFieldToStore_slot_witness :
  slot (fst (writeBlob emptyStore)) "ROOT_QUERY" "settings" = Some (SVJson blobValue).
Proof.
  assert (Hkey : storeKeyNameFromField canonicalNumber None blobField = Ok "settings")
    by reflexivity.
  assert (Hwrite : writeBlob emptyStore = (fst (writeBlob emptyStore), Ok tt))
    by (vm_compute; reflexivity).
  apply (proj1 (writeFieldToStore_slot canonicalNumber None None 1
                  (writeSelectionSetToStore objectMembers canonicalNumber includeAll None None ∅ 1)
                  blobField None blobValue "ROOT_QUERY" "settings" emptyStore _ Hkey Hwrite)).
  - by left.
  - discriminate.
Defined.

(** X6.  A leaf write (no selection set, or a [null] value) always
    returns once the key is computed, leaves every other entity as it was,
    and leaves the other fields of its entity as they were (the keys of the
    entity being distinct). *)
Theorem writeFieldToStore_leaf_frame
    (Number : string -> string) (variables : option Obj)
    (dataIdFromObject : option (JSValue -> option string))
    (fuel : nat) (rec : string -> JSValue -> SelectionSet -> M unit)
    (field : FieldNode) (selectionSet : option SelectionSet) (value : JSValue)
    (dataId key : string) (st : Store) :
  storeKeyNameFromField Number variables field = Ok key ->
  selectionSet = None \/ isNull value = true ->
  exists st',
    writeFieldToStore Number variables dataIdFromObject fuel rec field selectionSet
      value dataId st = (st', Ok tt) /\
    (forall other, other <> dataId -> cache st' !! other = cache st !! other) /\
    (forall obj otherKey,
       cache st !! dataId = Some obj -> NoDup (keys (fields obj)) -> otherKey <> key ->
       slot st' dataId otherKey = lookupProp (fields obj) otherKey).
Proof.
  intros Hkey Hleaf. rewrite writeFieldToStore_leaf with (key := key) by done.
  set (storeValue := match value with JPrim p => SVPrim p | _ => SVJson value end).
  rewrite storeField_None.
  assert (Hassign : forall a,
            exists st',
              storeAssign dataId (assign a [(key, storeValue)]) st = (st', Ok tt) /\
              (forall other, other <> dataId -> cache st' !! other = cache st !! other) /\
              (forall otherKey, NoDup (keys a) -> otherKey <> key ->
                 slot st' dataId otherKey = lookupProp a otherKey)).
  { intros a. eexists. split; [reflexivity|]. split.
    - intros other Hother. cbn [cache]. by rewrite lookup_insert_ne.
    - intros otherKey Hnd Hother. unfold slot. cbn [cache]. rewrite lookup_insert_eq.
      cbn. unfold assign. rewrite assignInto_singleton.
      rewrite lookupProp_setProp_ne by done.
      by rewrite (assignInto_NoDup []). }
  destruct (cache st !! dataId) as [obj|] eqn:E.
  - destruct (sameStoreValue _ _).
    + exists st. split; [done|]. split; [done|].
      intros obj' otherKey [= <-] _ _. unfold slot. by rewrite E.
    + destruct (Hassign (fields obj)) as (st' & H1 & H2 & H3).
      exists st'. split; [done|]. split; [done|].
      intros obj' otherKey [= <-]. apply H3.
  - destruct (Hassign []) as (st' & H1 & H2 & H3).
    exists st'. split; [done|]. split; [done|]. intros obj' otherKey [=].
Qed.

Lemma writeFieldToStore_leaf_frame_witness :
  exists st',
    writeFieldToStore canonicalNumber None None 1 (fun _ _ _ => ret tt)
      (mkField None "age" [] []) None (JPrim (PNumber "36")) "ROOT_QUERY"
      (fst (writeName emptyStore)) = (st', Ok tt) /\
    slot st' "ROOT_QUERY" "name" = Some (SVPrim (PString "A")).
Proof.
  destruct (writeFieldToStore_leaf_frame canonicalNumber None None 1 (fun _ _ _ => ret tt)
              (mkField None "age" [] []) None (JPrim (PNumber "36")) "ROOT_QUERY" "age"
              (fst (writeName emptyStore)) eq_refl (or_introl eq_refl))
    as (st' & Hwrite & _ & Hframe).
  exists st'. split; [exact Hwrite|].
  apply (Hframe (mkEntity 0 [("name", SVPrim (PString "A"))]) "name").
  - vm_compute. reflexivity.
  - apply (bool_decide_unpack _). vm_compute. exact I.
  - discriminate.
Defined.

(** X7.  The list the array branch stores has one entry for every item,
    in order: [null] for a [null] item, the id the callback names for the
    item when it names one, and [dataId.fieldKey.index] otherwise. *)
Theorem writeItems_shape
    (dataIdFromObject : option (JSValue -> option string))
    (rec : string -> JSValue -> SelectionSet -> M unit)
    (dataId key : string) (selectionSet : SelectionSet) (items : list JSValue)
    (st st' : Store) (thisIdList : list (option string)) :
  writeItems dataIdFromObject rec dataId key selectionSet items 0 st = (st', Ok thisIdList) ->
  length thisIdList = length items /\
  (forall i item,
     items !! i = Some item ->
     thisIdList !! i =
       Some (if isNull item then None
             else Some (default (dataId +:+ "." +:+ key +:+ "." +:+ string_of_nat i)
                          (semanticIdOf dataIdFromObject item)))).
Proof.
  intros H. apply writeItems_ids in H as ->. split.
  - apply itemIds_length.
  - intros i item Hi. by rewrite (itemIds_lookup _ _ _ _ 0 i item Hi).
Qed.

Lemma writeItems_shape_witness :
  length [Some "Todo3"; None] = 2 /\
  [Some "Todo3"; (None : option string)] !! 1 = Some None.
Proof.
  pose (items := [JObject [("id", str "3"); ("__typename", str "Todo")]; null]).
  assert (H : writeItems (Some typenameAndId) (fun _ _ _ => ret tt) "ROOT_QUERY" "todos" []
                items 0 emptyStore = (emptyStore, Ok [Some "Todo3"; None]))
    by (vm_compute; reflexivity).
  destruct (writeItems_shape (Some typenameAndId) (fun _ _ _ => ret tt) "ROOT_QUERY" "todos"
              [] items emptyStore emptyStore [Some "Todo3"; None] H) as [Hlen Hat].
  split; [exact Hlen|]. exact (Hat 1 null eq_refl).
Defined.

(** ** Fragments in the store writer *)

Lemma forEach_skip {S E A : Type} (pre post : list A) (x : A)
    (f : A -> StateM S E unit) (st : S) :
  (forall s, f x s = (s, Ok tt)) ->
  forEach (pre ++ x :: post) f st = forEach (pre ++ post) f st.
Proof.
  intros Hx. rewrite !forEach_app.
  destruct (forEach pre f st) as [st' [[]|e]]; [|done].
  cbn [forEach]. unfold bind at 1. by rewrite Hx.
Qed.

Lemma forEach_stops {S E A : Type} (pre post : list A) (x : A)
    (f : A -> StateM S E unit) (st st1 : S) (e : E) :
  forEach pre f st = (st1, Ok tt) -> f x st1 = (st1, Err e) ->
  forEach (pre ++ x :: post) f st = (st1, Err e).
Proof.
  intros Hpre Hx. rewrite forEach_app, Hpre. cbn [forEach]. unfold bind. by rewrite Hx.
Qed.



(** X9.  A fragment the directives exclude writes nothing: an inline
    fragment, or a spread of a fragment that is in the map, can be struck
    from the selection set without changing the write. *)
Theorem excluded_fragment_skipped
    (builtinMember : JSValue -> string -> JSValue)
    (Number : string -> string) (shouldInclude : SelectionNode -> option Obj -> bool)
    (variables : option Obj) (dataIdFromObject : option (JSValue -> option string))
    (fragmentMap : gmap string SelectionSet)
    (fuel : nat) (dataId : string) (result : JSValue) (selection : SelectionNode)
    (pre post : SelectionSet) (st : Store) :
  shouldInclude selection variables = false ->
  match selection with
  | Field _ _ => False
  | InlineFragment _ _ => True
  | FragmentSpread fragmentName _ => is_Some (fragmentMap !! fragmentName)
  end ->
  writeSelectionSetToStore builtinMember Number shouldInclude variables dataIdFromObject fragmentMap
    fuel dataId result (pre ++ selection :: post) st =
  writeSelectionSetToStore builtinMember Number shouldInclude variables dataIdFromObject fragmentMap
    fuel dataId result (pre ++ post) st.
Proof.
  intros Hexcluded Hkind. destruct fuel as [|fuel]; [done|].
  cbn [writeSelectionSetToStore]. apply forEach_skip. intros s.
  unfold writeSelection. rewrite Hexcluded.
  destruct selection as [field ss|dirs ss|fragmentName dirs]; [done|done|].
  by destruct Hkind as [fragment ->].
Qed.

Lemma excluded_fragment_skipped_witness :
  writeSelectionSetToStore objectMembers canonicalNumber (fun _ _ => false) None None ∅ 2 "ROOT_QUERY"
    (JObject [("name", str "A")]) ([] ++ InlineFragment [] [scalarField "name"] :: [])
    emptyStore =
  writeSelectionSetToStore objectMembers canonicalNumber (fun _ _ => false) None None ∅ 2 "ROOT_QUERY"
    (JObject [("name", str "A")]) ([] ++ []) emptyStore.
Proof.
  apply (excluded_fragment_skipped objectMembers canonicalNumber (fun _ _ => false) None None ∅ 2
           "ROOT_QUERY" (JObject [("name", str "A")]) (InlineFragment [] [scalarField "name"])
           [] [] emptyStore).
  - reflexivity.
  - exact I.
Defined.

(** ** The edges of mergeWithGenerated *)

(** X10.  A merge from an id the store has no entity for throws a
    [TypeError]; so does a merge into an id the store has no entity for, as
    soon as the generated entity has a field; and the merge of a generated
    entity without fields does nothing, not even delete it.  In all three the
    store is left as it was. *)
Theorem mergeWithGenerated_edges
    (fuel : nat) (generatedKey realKey : string) (st : Store) :
  (cache st !! generatedKey = None ->
   mergeWithGenerated (S fuel) generatedKey realKey st = (st, Err TypeError)) /\
  (forall generated,
     cache st !! generatedKey = Some generated -> fields generated = [] ->
     mergeWithGenerated (S fuel) generatedKey realKey st = (st, Ok tt)) /\
  (forall generated,
     cache st !! generatedKey = Some generated -> fields generated <> [] ->
     cache st !! realKey = None ->
     mergeWithGenerated (S fuel) generatedKey realKey st = (st, Err TypeError)).
Proof.
  rewrite mergeWithGenerated_S. repeat split.
  - by intros ->.
  - intros generated -> ->. done.
  - intros generated -> Hne ->. by destruct (fields generated) as [|[k v] o].
Qed.

Lemma mergeWithGenerated_edges_witness :
  mergeWithGenerated 1 "$ROOT_QUERY.user" "User42" emptyStore = (emptyStore, Err TypeError).
Proof.
  apply (proj1 (mergeWithGenerated_edges 0 "$ROOT_QUERY.user" "User42" emptyStore)).
  reflexivity.
Defined.

Lemma merge_step_cache (generatedKey realKey : string) (e e' : Entity)
    (c : NormalizedCache) :
  <[realKey := e']> (delete generatedKey (<[realKey := e]> (delete generatedKey c))) =
    <[realKey := e']> (delete generatedKey c).
Proof.
  apply map_eq. intros i.
  rewrite !lookup_insert, !lookup_delete, !lookup_insert, !lookup_delete.
  repeat case_decide; done.
Qed.

(** X11.  The merge of a generated entity that has a field, into a real
    entity, when no field of the generated entity is a generated reference
    that the real entity answers with a reference: it returns on any fuel but
    none, and the cache it leaves is the cache it found with the generated
    entity deleted and the real id bound to [assign({}, generated, real)];
    no other entity is touched. *)
Theorem mergeWithGenerated_flat_effect
    (fuel : nat) (generatedKey realKey : string) (st : Store) (generated real : Entity) :
  cache st !! generatedKey = Some generated ->
  cache st !! realKey = Some real ->
  fields generated <> [] ->
  (forall key id g realId rg,
     lookupProp (fields generated) key = Some (SVId id g) ->
     lookupProp (fields real) key = Some (SVId realId rg) ->
     isGeneratedId id = false) ->
  exists st' n,
    mergeWithGenerated (S fuel) generatedKey realKey st = (st', Ok tt) /\
    cache st' =
      <[realKey := mkEntity n (assign (fields generated) (fields real))]>
        (delete generatedKey (cache st)).
Proof.
  intros Hg Hr Hne Hflat. rewrite mergeWithGenerated_S, Hg, Hr.
  set (merged := assign (fields generated) (fields real)).
  set (step := fun key : string => _).
  assert (Hstep : forall key s,
            step key s =
              (mkStore (<[realKey := mkEntity (nextRef s) merged]>
                          (delete generatedKey (cache s))) (S (nextRef s)), Ok tt)).
  { intros key s. subst step. cbv beta.
    assert (Hsub : (match lookupProp (fields generated) key,
                          lookupProp (fields real) key with
                    | Some (SVId id _), Some (SVId realId _) =>
                        if isGeneratedId id then mergeWithGenerated fuel id realId else ret tt
                    | _, _ => ret tt
                    end) s = (s, Ok tt)).
    { destruct (lookupProp (fields generated) key) as [[| |id g|]|] eqn:Hv; try done.
      destruct (lookupProp (fields real) key) as [[| |realId rg|]|] eqn:Hrv; try done.
      by rewrite (Hflat key id g realId rg). }
    unfold bind at 1. by rewrite Hsub. }
  assert (Hloop : forall l s,
            l <> [] ->
            (cache s = cache st \/
             exists e, cache s = <[realKey := e]> (delete generatedKey (cache st))) ->
            exists s' n,
              forEach l step s = (s', Ok tt) /\
              cache s' = <[realKey := mkEntity n merged]> (delete generatedKey (cache st))).
  { induction l as [|key l IH]; intros s Hl Hs; [done|].
    cbn [forEach]. unfold bind. rewrite Hstep.
    set (s1 := mkStore _ _).
    assert (Hs1 : cache s1 =
                    <[realKey := mkEntity (nextRef s) merged]> (delete generatedKey (cache st))).
    { subst s1. cbn [cache]. destruct Hs as [->|[e ->]]; [done|apply merge_step_cache]. }
    destruct l as [|key' l].
    - exists s1, (nextRef s). by split.
    - apply IH; [done|]. right. by eexists. }
  apply Hloop; [|by left].
  unfold keys. by destruct (fields generated).
Qed.

Lemma mergeWithGenerated_flat_effect_witness :
  exists st' n,
    mergeWithGenerated 1 "$ROOT_QUERY.user.friend" "$ROOT_QUERY.user" storeWithGeneratedUser
      = (st', Ok tt) /\
    cache st' =
      <["$ROOT_QUERY.user" :=
          mkEntity n (assign [("name", SVPrim (PString "Bob"))]
                        [("name", SVPrim (PString "Ada"));
                         ("friend", SVId "$ROOT_QUERY.user.friend" true)])]>
        (delete "$ROOT_QUERY.user.friend" (cache storeWithGeneratedUser)).
Proof.
  apply (mergeWithGenerated_flat_effect 0 "$ROOT_QUERY.user.friend" "$ROOT_QUERY.user"
           storeWithGeneratedUser
           (mkEntity 1 [("name", SVPrim (PString "Bob"))])
           (mkEntity 2 [("name", SVPrim (PString "Ada"));
                        ("friend", SVId "$ROOT_QUERY.user.friend" true)])).
  - vm_compute. reflexivity.
  - vm_compute. reflexivity.
  - discriminate.
  - intros key id g realId rg. cbn [fields lookupProp].
    destruct (String.eqb "name" key); discriminate.
Defined.

(** ** Fuel, and fragments written in place *)

Lemma bind_agree {S A B : Type} (m m' : StateM S Error A) (k k' : A -> StateM S Error B)
    (st : S) :
  snd (bind m k st) <> Err OutOfFuel ->
  (snd (m st) <> Err OutOfFuel -> m' st = m st) ->
  (forall s a, m st = (s, Ok a) -> snd (k a s) <> Err OutOfFuel -> k' a s = k a s) ->
  bind m' k' st = bind m k st.
Proof.
  unfold bind. intros Hs Hm Hk.
  destruct (m st) as [s [a|e]] eqn:E.
  - rewrite Hm by (cbn; discriminate). by apply Hk.
  - rewrite Hm; [reflexivity|]. cbn in *. intros [= ->]. by apply Hs.
Qed.

Lemma forEach_agree {S A : Type} (l : list A) (f g : A -> StateM S Error unit) (st : S) :
  (forall x s, snd (f x s) <> Err OutOfFuel -> g x s = f x s) ->
  snd (forEach l f st) <> Err OutOfFuel ->
  forEach l g st = forEach l f st.
Proof.
  intros Hfg. revert st. induction l as [|x l IH]; intros st Hs; [done|].
  cbn [forEach] in *. apply bind_agree; [done|apply Hfg|].
  intros s [] _ Hrest. by apply IH.
Qed.

Lemma forEach_cons {S E A : Type} (x : A) (l : list A) (f : A -> StateM S E unit) (st : S) :
  forEach (x :: l) f st =
    match f x st with
    | (st', Ok _) => forEach l f st'
    | (st', Err e) => (st', Err e)
    end.
Proof. reflexivity. Qed.

(** A merge that does not run out of fuel does the same on more fuel. *)
Lemma mergeWithGenerated_more_fuel fuel generatedKey realKey st :
  settled (mergeWithGenerated fuel generatedKey realKey st) ->
  mergeWithGenerated (S fuel) generatedKey realKey st =
    mergeWithGenerated fuel generatedKey realKey st.
Proof.
  unfold settled. revert generatedKey realKey st.
  induction fuel as [|fuel IH]; intros generatedKey realKey st; [done|].
  rewrite (mergeWithGenerated_S (S fuel)), (mergeWithGenerated_S fuel).
  destruct (cache st !! generatedKey) as [generated|]; [|done].
  apply forEach_agree. intros key s.
  destruct (cache st !! realKey) as [real|]; [|done].
  intros Hs. apply bind_agree; [done| |done].
  destruct (lookupProp (fields generated) key) as [[| |id g|]|]; try done.
  destruct (lookupProp (fields real) key) as [[| |realId rg|]|]; try done.
  destruct (isGeneratedId id); [apply IH|done].
Qed.

Lemma storeField_more_fuel fuel dataId key storeValue generatedKey st :
  settled (storeField fuel dataId key storeValue generatedKey st) ->
  storeField (S fuel) dataId key storeValue generatedKey st =
    storeField fuel dataId key storeValue generatedKey st.
Proof.
  unfold settled.
  assert (Hnone : storeField (S fuel) dataId key storeValue None st =
                  storeField fuel dataId key storeValue None st)
    by by rewrite !storeField_None.
  destruct generatedKey as [generatedKey|]; [|done].
  destruct storeValue as [p|json|id generated|ids];
    try (by rewrite !(storeField_no_id _ _ _ _ (Some generatedKey))).
  rewrite !storeField_merge. intros Hs.
  rewrite mergeWithGenerated_more_fuel; [done|].
  unfold settled. intros Hout. apply Hs.
  by destruct (mergeWithGenerated fuel generatedKey id st) as [s [[]|e]]; cbn in *; subst.
Qed.

Section MoreFuel.
Variable builtinMember : JSValue -> string -> JSValue.
Variable Number : string -> string.
Variable shouldInclude : SelectionNode -> option Obj -> bool.
Variable variables : option Obj.
Variable dataIdFromObject : option (JSValue -> option string).
Variable fragmentMap : gmap string SelectionSet.

Local Abbreviation writeSet :=
  (writeSelectionSetToStore builtinMember Number shouldInclude variables dataIdFromObject fragmentMap).
Local Abbreviation writeSel :=
  (writeSelection builtinMember Number shouldInclude variables dataIdFromObject fragmentMap).
Local Abbreviation writeField := (writeFieldToStore Number variables dataIdFromObject).

Variables rec rec' : string -> JSValue -> SelectionSet -> M unit.
Hypothesis rec_agree :
  forall dataId result selectionSet st,
    settled (rec dataId result selectionSet st) ->
    rec' dataId result selectionSet st = rec dataId result selectionSet st.

Lemma writeItems_agree dataId key selectionSet items index st :
  settled (writeItems dataIdFromObject rec dataId key selectionSet items index st) ->
  writeItems dataIdFromObject rec' dataId key selectionSet items index st =
    writeItems dataIdFromObject rec dataId key selectionSet items index st.
Proof.
  unfold settled. revert index st.
  induction items as [|item items IH]; intros index st Hs; [done|].
  cbn [writeItems] in *. apply bind_agree; [done| |].
  - destruct (isNull item); [done|]. intros Hitem.
    apply bind_agree; [done|apply rec_agree|done].
  - intros s pushed _ Hrest. apply bind_agree; [done|apply IH|done].
Qed.

Lemma writeFieldToStore_agree fuel field selectionSet value dataId st :
  settled (writeField fuel rec field selectionSet value dataId st) ->
  writeField (S fuel) rec' field selectionSet value dataId st =
    writeField fuel rec field selectionSet value dataId st.
Proof.
  unfold settled, writeFieldToStore. intros Hs.
  apply bind_agree; [done|done|]. intros s key _. cbv zeta.
  assert (Hleaf : forall storeValue,
            snd (storeField fuel dataId key storeValue None s) <> Err OutOfFuel ->
            storeField (S fuel) dataId key storeValue None s =
              storeField fuel dataId key storeValue None s)
    by (intros; by apply storeField_more_fuel).
  destruct selectionSet as [selSet|]; [|destruct value; apply Hleaf].
  destruct (isNull value); [destruct value; apply Hleaf|].
  assert (Hobject :
            snd ((letM valueId := objectDataId dataIdFromObject dataId key value in
                  rec (fst valueId) value selSet;;
                  letM generatedKey := checkOverwrite dataId key (snd valueId) in
                  storeField fuel dataId key (SVId (fst valueId) (snd valueId)) generatedKey)
                   s) <> Err OutOfFuel ->
            (letM valueId := objectDataId dataIdFromObject dataId key value in
             rec' (fst valueId) value selSet;;
             letM generatedKey := checkOverwrite dataId key (snd valueId) in
             storeField (S fuel) dataId key (SVId (fst valueId) (snd valueId)) generatedKey) s
            = (letM valueId := objectDataId dataIdFromObject dataId key value in
               rec (fst valueId) value selSet;;
               letM generatedKey := checkOverwrite dataId key (snd valueId) in
               storeField fuel dataId key (SVId (fst valueId) (snd valueId)) generatedKey) s).
  { intros Hobj. apply bind_agree; [done|done|]. intros s1 valueId _ H1.
    apply bind_agree; [done|apply rec_agree|]. intros s2 [] _ H2.
    apply bind_agree; [done|done|]. intros s3 generatedKey _ H3.
    by apply storeField_more_fuel. }
  destruct value as [p|items|props|f|]; [apply Hobject| |apply Hobject..].
  intros Harr. apply bind_agree; [done|apply writeItems_agree|].
  intros s1 ids _ H1. by apply storeField_more_fuel.
Qed.

Lemma writeSelection_agree fuel dataId result selection st :
  settled (writeSel fuel rec dataId result selection st) ->
  writeSel (S fuel) rec' dataId result selection st =
    writeSel fuel rec dataId result selection st.
Proof.
  unfold settled, writeSelection.
  destruct selection as [field selSet|dirs selSet|fragmentName dirs].
  - intros Hs. apply bind_agree; [done|done|]. intros s value _.
    destruct (negb (isUndefined value)); [apply writeFieldToStore_agree|done].
  - destruct (shouldInclude _ _); [apply rec_agree|done].
  - destruct (fragmentMap !! fragmentName); [|done].
    destruct (shouldInclude _ _); [apply rec_agree|done].
Qed.
End MoreFuel.

(** A write that does not run out of fuel does the same on more fuel. *)
Lemma writeSelectionSetToStore_more_fuel
    builtinMember Number shouldInclude variables dataIdFromObject fragmentMap
    fuel dataId result selectionSet st :
  settled (writeSelectionSetToStore builtinMember Number shouldInclude variables dataIdFromObject
             fragmentMap fuel dataId result selectionSet st) ->
  writeSelectionSetToStore builtinMember Number shouldInclude variables dataIdFromObject fragmentMap
    (S fuel) dataId result selectionSet st =
  writeSelectionSetToStore builtinMember Number shouldInclude variables dataIdFromObject fragmentMap
    fuel dataId result selectionSet st.
Proof.
  revert dataId result selectionSet st.
  induction fuel as [|fuel IH]; intros dataId result selectionSet st; [by intros []|].
  intros Hs. cbn [writeSelectionSetToStore] in *.
  apply forEach_agree; [|done]. intros selection s.
  by apply writeSelection_agree.
Qed.

(** X12.  A fragment the directives include is written in place: the
    write of a selection set with an inline fragment, or with a spread of a
    fragment of the map, is the write of the selection set with the
    selections of the fragment in its place (for a write that ends). *)
Theorem included_fragment_in_place
    (builtinMember : JSValue -> string -> JSValue)
    (Number : string -> string) (shouldInclude : SelectionNode -> option Obj -> bool)
    (variables : option Obj) (dataIdFromObject : option (JSValue -> option string))
    (fragmentMap : gmap string SelectionSet)
    (fuel : nat) (dataId : string) (result : JSValue) (selection : SelectionNode)
    (fragment pre post : SelectionSet) (st : Store) :
  shouldInclude selection variables = true ->
  match selection with
  | Field _ _ => False
  | InlineFragment _ selectionSet => selectionSet = fragment
  | FragmentSpread fragmentName _ => fragmentMap !! fragmentName = Some fragment
  end ->
  settled (writeSelectionSetToStore builtinMember Number shouldInclude variables dataIdFromObject
             fragmentMap fuel dataId result (pre ++ selection :: post) st) ->
  writeSelectionSetToStore builtinMember Number shouldInclude variables dataIdFromObject fragmentMap
    fuel dataId result (pre ++ fragment ++ post) st =
  writeSelectionSetToStore builtinMember Number shouldInclude variables dataIdFromObject fragmentMap
    fuel dataId result (pre ++ selection :: post) st.
Proof.
  intros Hincluded Hkind. unfold settled. destruct fuel as [|fuel]; [done|].
  cbn [writeSelectionSetToStore]. rewrite !forEach_app.
  destruct (forEach pre _ st) as [s [[]|e]]; [|done].
  rewrite forEach_app, forEach_cons.
  assert (Hsel : writeSelection builtinMember Number shouldInclude variables dataIdFromObject fragmentMap
                   fuel (writeSelectionSetToStore builtinMember Number shouldInclude variables
                           dataIdFromObject fragmentMap fuel)
                   dataId result selection s =
                 writeSelectionSetToStore builtinMember Number shouldInclude variables dataIdFromObject
                   fragmentMap fuel dataId result fragment s).
  { unfold writeSelection. rewrite Hincluded.
    destruct selection as [field ss|dirs ss|fragmentName dirs]; [done|by subst|].
    by rewrite Hkind. }
  rewrite Hsel.
  destruct (writeSelectionSetToStore _ _ _ _ _ _ fuel dataId result fragment s)
    as [s1 [[]|e]] eqn:Hfragment.
  - intros _.
    assert (Hmore : writeSelectionSetToStore builtinMember Number shouldInclude variables dataIdFromObject
                      fragmentMap (S fuel) dataId result fragment s = (s1, Ok tt)).
    { rewrite writeSelectionSetToStore_more_fuel; [done|].
      unfold settled. by rewrite Hfragment. }
    cbn [writeSelectionSetToStore] in Hmore. by rewrite Hmore.
  - cbn [snd]. intros He.
    assert (Hmore : writeSelectionSetToStore builtinMember Number shouldInclude variables dataIdFromObject
                      fragmentMap (S fuel) dataId result fragment s = (s1, Err e)).
    { rewrite writeSelectionSetToStore_more_fuel; [done|].
      unfold settled. by rewrite Hfragment. }
    cbn [writeSelectionSetToStore] in Hmore. by rewrite Hmore.
Qed.

Lemma included_fragment_in_place_witness :
  writeSelectionSetToStore objectMembers canonicalNumber includeAll None None ∅ 3 "ROOT_QUERY"
    (JObject [("name", str "A"); ("age", str "36")])
    ([] ++ [scalarField "name"] ++ [scalarField "age"]) emptyStore =
  writeSelectionSetToStore objectMembers canonicalNumber includeAll None None ∅ 3 "ROOT_QUERY"
    (JObject [("name", str "A"); ("age", str "36")])
    ([] ++ InlineFragment [] [scalarField "name"] :: [scalarField "age"]) emptyStore.
Proof.
  apply (included_fragment_in_place objectMembers canonicalNumber includeAll None None ∅ 3 "ROOT_QUERY"
           (JObject [("name", str "A"); ("age", str "36")])
           (InlineFragment [] [scalarField "name"]) [scalarField "name"] []
           [scalarField "age"] emptyStore).
  - reflexivity.
  - reflexivity.
  - unfold settled. vm_compute. discriminate.
Defined.

(** ** The graph writer: what it keeps *)

Section Keeps.
Variable R : relation (gmap string Graph.GraphDataNode).
Hypothesis R_refl : forall g, R g g.
Hypothesis R_trans : forall g1 g2 g3, R g1 g2 -> R g2 g3 -> R g1 g3.

Lemma keeps_ret {A : Type} (a : A) : keeps R (ret a).
Proof. intros g g' r [= <- _]. apply R_refl. Qed.

Lemma keeps_throw {A : Type} (e : Graph.GraphError) : keeps R (@throw _ _ A e).
Proof. intros g g' r [= <- _]. apply R_refl. Qed.

Lemma keeps_bind {A B : Type} (m : Graph.G A) (k : A -> Graph.G B) :
  keeps R m -> (forall a, keeps R (k a)) -> keeps R (bind m k).
Proof.
  intros Hm Hk g g' r. unfold bind. destruct (m g) as [g1 [a|e]] eqn:E.
  - intros H. eapply R_trans; [by eapply Hm|by eapply Hk].
  - intros [= <- _]. by eapply Hm.
Qed.

Lemma keeps_catch {A : Type} (body : Graph.G A) (otherwise : A) :
  keeps R body -> keeps R (Graph.catchPartialWrite body otherwise).
Proof.
  intros Hbody g g' r. unfold Graph.catchPartialWrite.
  destruct (body g) as [g1 [a|e]] eqn:E.
  - intros [= <- _]. by eapply Hbody.
  - destruct (Graph._partialWrite e); intros [= <- _]; by eapply Hbody.
Qed.

Lemma keeps_mapIndexed {A B : Type} (l : list A) (i : nat) (f : nat -> A -> Graph.G B) :
  (forall i x, keeps R (f i x)) -> keeps R (Graph.mapIndexed l i f).
Proof.
  intros Hf. revert i. induction l as [|x l IH]; intros i; cbn [Graph.mapIndexed].
  - apply keeps_ret.
  - apply keeps_bind; [apply Hf|]. intros y.
    apply keeps_bind; [apply IH|]. intros ys. apply keeps_ret.
Qed.

Lemma keeps_foldSelections {A B : Type} (l : list A) (acc : B) (f : B -> A -> Graph.G B) :
  (forall acc x, keeps R (f acc x)) -> keeps R (Graph.foldSelections l acc f).
Proof.
  intros Hf. revert acc. induction l as [|x l IH]; intros acc; cbn [Graph.foldSelections].
  - apply keeps_ret.
  - apply keeps_bind; [apply Hf|]. intros acc'. apply IH.
Qed.
End Keeps.

Lemma nodeGrows_refl node : nodeGrows node node.
Proof. by split. Qed.

Lemma graphGrows_refl graph : graphGrows graph graph.
Proof. intros id node H. exists node. split; [done|apply nodeGrows_refl]. Qed.

Lemma graphGrows_trans g1 g2 g3 : graphGrows g1 g2 -> graphGrows g2 g3 -> graphGrows g1 g3.
Proof.
  intros H12 H23 id n1 H1. destruct (H12 id n1 H1) as (n2 & H2 & [Hs12 Hr12]).
  destruct (H23 id n2 H2) as (n3 & H3 & [Hs23 Hr23]).
  exists n3. split; [done|]. split; intros k Hk; auto.
Qed.

Lemma keeps_grows_initNode id : keeps graphGrows (Graph.initNode id).
Proof.
  intros g g' r. unfold Graph.initNode. destruct id as [id|].
  - destruct (g !! id) as [node|] eqn:E; intros [= <- _]; [apply graphGrows_refl|].
    intros i n Hi. exists n. split; [|apply nodeGrows_refl].
    rewrite lookup_insert_ne; [done|]. intros ->. congruence.
  - intros [= <- _]. apply graphGrows_refl.
Qed.

Lemma graphGrows_alter (f : Graph.GraphDataNode -> Graph.GraphDataNode) id g :
  (forall node, nodeGrows node (f node)) -> graphGrows g (alter f id g).
Proof.
  intros Hf i n Hi. destruct (decide (id = i)) as [->|Hne].
  - exists (f n). split; [|apply Hf]. by rewrite lookup_alter_eq, Hi.
  - exists n. split; [|apply nodeGrows_refl]. by rewrite lookup_alter_ne.
Qed.

Lemma keeps_grows_setScalar id key v : keeps graphGrows (Graph.setScalar id key v).
Proof.
  intros g g' r. unfold Graph.setScalar. destruct id as [id|]; intros [= <- _];
    [|apply graphGrows_refl].
  apply graphGrows_alter. intros node. split; cbn; [|done].
  intros k Hk. rewrite lookup_insert. by case_decide.
Qed.

Lemma keeps_grows_setReference id key v : keeps graphGrows (Graph.setReference id key v).
Proof.
  intros g g' r. unfold Graph.setReference. destruct id as [id|]; intros [= <- _];
    [|apply graphGrows_refl].
  apply graphGrows_alter. intros node. split; cbn; [done|].
  intros k Hk. rewrite lookup_insert. by case_decide.
Qed.

Section GraphGrows.
Variable getFieldKey : FieldNode -> string.
Variable getDataID : JSValue -> option string.
Variable fragments : gmap string SelectionSet.

Local Abbreviation writeGraph := (Graph.writeToGraph getFieldKey getDataID fragments).
Local Abbreviation writeArray := (Graph.writeArrayToStore getDataID).
Local Abbreviation writeSel := (Graph.writeSelection getFieldKey getDataID fragments).

Lemma keeps_writeArrayToStore R W fuel id data selectionSet :
  (forall g, R g g) -> (forall g1 g2 g3, R g1 g2 -> R g2 g3 -> R g1 g3) ->
  (forall id data selectionSet, keeps R (W id data selectionSet)) ->
  keeps R (writeArray W fuel id data selectionSet).
Proof.
  intros Hrefl Htrans HW. revert id data.
  induction fuel as [|fuel IH]; intros id data; cbn [Graph.writeArrayToStore].
  - by apply keeps_throw.
  - apply keeps_bind; [done| |intros; by apply keeps_ret].
    apply keeps_mapIndexed; [done|done|]. intros i [p|items|props|f|].
    + destruct p; by (apply keeps_ret || apply keeps_throw).
    + apply IH.
    + apply keeps_bind; [done|apply HW|intros; by apply keeps_ret].
    + by apply keeps_throw.
    + apply keeps_bind; [done|apply HW|intros; by apply keeps_ret].
Qed.

Lemma keeps_grows_writeSelection fuel W id data nextData selection :
  (forall id data selectionSet, keeps graphGrows (W id data selectionSet)) ->
  keeps graphGrows (writeSel fuel W id data nextData selection).
Proof.
  intros HW.
  pose proof graphGrows_refl as Hrefl. pose proof graphGrows_trans as Htrans.
  assert (Hfragment : forall selectionSet,
            keeps graphGrows
              (Graph.catchPartialWrite
                 (letM fragmentData := W id data selectionSet in
                  match fragmentData with
                  | Graph.NextObject _ props => ret (assignInto nextData props)
                  | _ => ret nextData
                  end) nextData)).
  { intros selectionSet. apply keeps_catch. apply keeps_bind; [done|apply HW|].
    intros [v|items|idKey props]; by apply keeps_ret. }
  unfold Graph.writeSelection.
  destruct selection as [field [fieldSelectionSet|]|dirs selectionSet|fragmentName dirs].
  - destruct (isUndefined _); [by apply keeps_throw|].
    destruct (default undefined _) as [p|items|props|f|].
    + destruct p; try by apply keeps_throw.
      apply keeps_bind; [done|apply keeps_grows_setReference|intros; by apply keeps_ret].
    + apply keeps_bind; [done|by apply keeps_writeArrayToStore|]. intros written.
      apply keeps_bind; [done|apply keeps_grows_setReference|intros; by apply keeps_ret].
    + apply keeps_bind; [done|apply keeps_grows_setReference|]. intros _.
      apply keeps_bind; [done|apply HW|intros; by apply keeps_ret].
    + by apply keeps_throw.
    + apply keeps_bind; [done|apply keeps_grows_setReference|]. intros _.
      apply keeps_bind; [done|apply HW|intros; by apply keeps_ret].
  - destruct (isUndefined _); [by apply keeps_throw|].
    apply keeps_bind; [done|apply keeps_grows_setScalar|intros; by apply keeps_ret].
  - apply Hfragment.
  - destruct (fragments !! fragmentName); [apply Hfragment|by apply keeps_throw].
Qed.

Lemma keeps_grows_writeToGraph fuel id data selectionSet :
  keeps graphGrows (writeGraph fuel id data selectionSet).
Proof.
  pose proof graphGrows_refl as Hrefl. pose proof graphGrows_trans as Htrans.
  revert id data selectionSet.
  induction fuel as [|fuel IH]; intros id data selectionSet; cbn [Graph.writeToGraph].
  - by apply keeps_throw.
  - apply keeps_bind; [done|apply keeps_grows_initNode|]. intros _.
    apply keeps_bind; [done| |intros; by apply keeps_ret].
    apply keeps_foldSelections; [done|done|]. intros acc selection.
    by apply keeps_grows_writeSelection.
Qed.
End GraphGrows.

(** X13.  The graph writer only adds: whatever the outcome of a write,
    every node the graph had is still there with every scalar key and
    reference key it had; and once the write has begun, the graph has a node
    for the id written at, even when the write throws. *)
Theorem writeToGraph_only_adds
    (getFieldKey : FieldNode -> string) (getDataID : JSValue -> option string)
    (fragments : gmap string SelectionSet)
    (fuel : nat) (id : option string) (data : Obj) (selectionSet : SelectionSet)
    (graph graph' : gmap string Graph.GraphDataNode)
    (outcome : Result Graph.GraphError Graph.NextData) :
  Graph.writeToGraph getFieldKey getDataID fragments fuel id data selectionSet graph
    = (graph', outcome) ->
  graphGrows graph graph' /\
  (forall i, id = Some i -> fuel <> 0 -> is_Some (graph' !! i)).
Proof.
  intros H. split; [by eapply keeps_grows_writeToGraph|].
  intros i -> Hfuel. destruct fuel as [|fuel]; [done|].
  cbn [Graph.writeToGraph] in H. unfold bind at 1 in H.
  destruct (Graph.initNode (Some i) graph) as [g1 [[]|e]] eqn:Hinit.
  - assert (Hnode : is_Some (g1 !! i)).
    { unfold Graph.initNode in Hinit. destruct (graph !! i) as [node|] eqn:E;
        injection Hinit as <-; [by rewrite E|by rewrite lookup_insert_eq]. }
    destruct Hnode as [node Hnode].
    assert (Hrest : graphGrows g1 graph').
    { revert H. apply keeps_bind; [apply graphGrows_trans| |].
      - apply keeps_foldSelections; [apply graphGrows_refl|apply graphGrows_trans|].
        intros acc selection. apply keeps_grows_writeSelection.
        intros. apply keeps_grows_writeToGraph.
      - intros. apply keeps_ret. apply graphGrows_refl. }
    destruct (Hrest i node Hnode) as (node' & Hnode' & _). by eexists.
  - unfold Graph.initNode in Hinit. by destruct (graph !! i).
Qed.

Lemma writeToGraph_only_adds_witness :
  is_Some (fst (Graph.writeToGraph fieldNameKey noDataID ∅ 3 (Some "ROOT") partialData
                  [scalarField "b"] ∅) !! "ROOT").
Proof.
  apply (proj2 (writeToGraph_only_adds fieldNameKey noDataID ∅ 3 (Some "ROOT") partialData
                  [scalarField "b"] ∅ _ _
                  (surjective_pairing _)) "ROOT" eq_refl).
  discriminate.
Defined.

(** ** The graph writer: writes without an id, and what the outcome
    depends on *)

Section NullId.
Variable getFieldKey : FieldNode -> string.
Variable getDataID : JSValue -> option string.
Variable fragments : gmap string SelectionSet.
Hypothesis no_data_id : forall data, getDataID data = None.

Local Abbreviation writeGraph := (Graph.writeToGraph getFieldKey getDataID fragments).

Lemma objectID_None path data props : Graph.objectID getDataID None path data props = None.
Proof. unfold Graph.objectID. by rewrite no_data_id. Qed.

Lemma keeps_eq_writeSelection fuel W data nextData selection :
  (forall data selectionSet, keeps eq (W None data selectionSet)) ->
  keeps eq (Graph.writeSelection getFieldKey getDataID fragments fuel W None data nextData
              selection).
Proof.
  intros HW.
  assert (Htrans : forall g1 g2 g3 : gmap string Graph.GraphDataNode,
            g1 = g2 -> g2 = g3 -> g1 = g3) by (intros; congruence).
  assert (Hfragment : forall selectionSet,
            keeps eq
              (Graph.catchPartialWrite
                 (letM fragmentData := W None data selectionSet in
                  match fragmentData with
                  | Graph.NextObject _ props => ret (assignInto nextData props)
                  | _ => ret nextData
                  end) nextData)).
  { intros selectionSet. apply keeps_catch. apply keeps_bind; [done|apply HW|].
    intros [v|items|idKey props]; by apply keeps_ret. }
  assert (Harray : forall items selectionSet,
            keeps eq (Graph.writeArrayToStore getDataID W fuel None items selectionSet)).
  { induction fuel as [|fuel' IH]; intros items selectionSet; cbn [Graph.writeArrayToStore].
    - by apply keeps_throw.
    - apply keeps_bind; [done| |intros; by apply keeps_ret].
      apply keeps_mapIndexed; [done|done|]. intros i [p|items'|props|f|].
      + destruct p; by (apply keeps_ret || apply keeps_throw).
      + apply IH.
      + rewrite objectID_None.
        apply keeps_bind; [done|apply HW|intros; by apply keeps_ret].
      + by apply keeps_throw.
      + rewrite objectID_None.
        apply keeps_bind; [done|apply HW|intros; by apply keeps_ret]. }
  unfold Graph.writeSelection.
  destruct selection as [field [fieldSelectionSet|]|dirs selectionSet|fragmentName dirs].
  - destruct (isUndefined _); [by apply keeps_throw|].
    destruct (default undefined _) as [p|items|props|f|].
    + destruct p; try by apply keeps_throw.
      apply keeps_bind; [done|by intros g g' r [= <- _]|intros; by apply keeps_ret].
    + apply keeps_bind; [done|apply Harray|]. intros written.
      apply keeps_bind; [done|by intros g g' r [= <- _]|intros; by apply keeps_ret].
    + rewrite objectID_None.
      apply keeps_bind; [done|by intros g g' r [= <- _]|]. intros _.
      apply keeps_bind; [done|apply HW|intros; by apply keeps_ret].
    + by apply keeps_throw.
    + rewrite objectID_None.
      apply keeps_bind; [done|by intros g g' r [= <- _]|]. intros _.
      apply keeps_bind; [done|apply HW|intros; by apply keeps_ret].
  - destruct (isUndefined _); [by apply keeps_throw|].
    apply keeps_bind; [done|by intros g g' r [= <- _]|intros; by apply keeps_ret].
  - apply Hfragment.
  - destruct (fragments !! fragmentName); [apply Hfragment|by apply keeps_throw].
Qed.

Lemma keeps_eq_writeToGraph fuel data selectionSet :
  keeps eq (writeGraph fuel None data selectionSet).
Proof.
  assert (Htrans : forall g1 g2 g3 : gmap string Graph.GraphDataNode,
            g1 = g2 -> g2 = g3 -> g1 = g3) by (intros; congruence).
  revert data selectionSet.
  induction fuel as [|fuel IH]; intros data selectionSet; cbn [Graph.writeToGraph].
  - by apply keeps_throw.
  - apply keeps_bind; [done|by intros g g' r [= <- _]|]. intros _.
    apply keeps_bind; [done| |intros; by apply keeps_ret].
    apply keeps_foldSelections; [done|done|]. intros acc selection.
    by apply keeps_eq_writeSelection.
Qed.
End NullId.

(** X14.  A write at the [null] id, with a [getDataID] that names no id
    for any object, leaves the graph exactly as it was, whatever the data
    and the selection set and whether it returns or throws: it only builds
    the data it returns. *)
Theorem writeToGraph_null_id_leaves_graph
    (getFieldKey : FieldNode -> string) (getDataID : JSValue -> option string)
    (fragments : gmap string SelectionSet)
    (fuel : nat) (data : Obj) (selectionSet : SelectionSet)
    (graph : gmap string Graph.GraphDataNode) :
  (forall value, getDataID value = None) ->
  fst (Graph.writeToGraph getFieldKey getDataID fragments fuel None data selectionSet graph)
    = graph.
Proof.
  intros Hno. symmetry.
  eapply (keeps_eq_writeToGraph getFieldKey getDataID fragments Hno fuel data selectionSet).
  apply surjective_pairing.
Qed.

Lemma writeToGraph_null_id_leaves_graph_witness :
  fst (Graph.writeToGraph fieldNameKey noDataID ∅ 3 None partialData partialSelectionSet ∅)
    = ∅.
Proof.
  apply (writeToGraph_null_id_leaves_graph fieldNameKey noDataID ∅ 3 partialData
           partialSelectionSet ∅).
  reflexivity.
Defined.

Section Oblivious.

Lemma oblivious_ret {A : Type} (a : A) : oblivious (ret a).
Proof. by intros g1 g2. Qed.

Lemma oblivious_throw {A : Type} (e : Graph.GraphError) : oblivious (@throw _ _ A e).
Proof. by intros g1 g2. Qed.

Lemma oblivious_bind {A B : Type} (m : Graph.G A) (k : A -> Graph.G B) :
  oblivious m -> (forall a, oblivious (k a)) -> oblivious (bind m k).
Proof.
  intros Hm Hk g1 g2. unfold bind. specialize (Hm g1 g2).
  destruct (m g1) as [s1 [a1|e1]], (m g2) as [s2 [a2|e2]]; cbn in Hm; try done.
  - injection Hm as ->. apply Hk.
  - by injection Hm as ->.
Qed.

Lemma oblivious_catch {A : Type} (body : Graph.G A) (otherwise : A) :
  oblivious body -> oblivious (Graph.catchPartialWrite body otherwise).
Proof.
  intros Hbody g1 g2. unfold Graph.catchPartialWrite. specialize (Hbody g1 g2).
  destruct (body g1) as [s1 [a1|e1]], (body g2) as [s2 [a2|e2]]; cbn in Hbody; try done.
  injection Hbody as ->. by destruct (Graph._partialWrite e2).
Qed.

Lemma oblivious_mapIndexed {A B : Type} (l : list A) (i : nat) (f : nat -> A -> Graph.G B) :
  (forall i x, oblivious (f i x)) -> oblivious (Graph.mapIndexed l i f).
Proof.
  intros Hf. revert i. induction l as [|x l IH]; intros i; cbn [Graph.mapIndexed].
  - apply oblivious_ret.
  - apply oblivious_bind; [apply Hf|]. intros y.
    apply oblivious_bind; [apply IH|]. intros ys. apply oblivious_ret.
Qed.

Lemma oblivious_foldSelections {A B : Type} (l : list A) (acc : B)
    (f : B -> A -> Graph.G B) :
  (forall acc x, oblivious (f acc x)) -> oblivious (Graph.foldSelections l acc f).
Proof.
  intros Hf. revert acc. induction l as [|x l IH]; intros acc; cbn [Graph.foldSelections].
  - apply oblivious_ret.
  - apply oblivious_bind; [apply Hf|]. intros acc'. apply IH.
Qed.

Lemma oblivious_initNode id : oblivious (Graph.initNode id).
Proof.
  intros g1 g2. unfold Graph.initNode. destruct id as [id|]; [|done].
  by destruct (g1 !! id), (g2 !! id).
Qed.

Lemma oblivious_setScalar id key v : oblivious (Graph.setScalar id key v).
Proof. intros g1 g2. unfold Graph.setScalar. by destruct id. Qed.

Lemma oblivious_setReference id key v : oblivious (Graph.setReference id key v).
Proof. intros g1 g2. unfold Graph.setReference. by destruct id. Qed.

Variable getFieldKey : FieldNode -> string.
Variable getDataID : JSValue -> option string.
Variable fragments : gmap string SelectionSet.

Lemma oblivious_writeArrayToStore W fuel id data selectionSet :
  (forall id data selectionSet, oblivious (W id data selectionSet)) ->
  oblivious (Graph.writeArrayToStore getDataID W fuel id data selectionSet).
Proof.
  intros HW. revert id data.
  induction fuel as [|fuel IH]; intros id data; cbn [Graph.writeArrayToStore].
  - apply oblivious_throw.
  - apply oblivious_bind; [|intros; apply oblivious_ret].
    apply oblivious_mapIndexed. intros i [p|items|props|f|].
    + destruct p; (apply oblivious_ret || apply oblivious_throw).
    + apply IH.
    + apply oblivious_bind; [apply HW|intros; apply oblivious_ret].
    + apply oblivious_throw.
    + apply oblivious_bind; [apply HW|intros; apply oblivious_ret].
Qed.

Lemma oblivious_writeSelection fuel W id data nextData selection :
  (forall id data selectionSet, oblivious (W id data selectionSet)) ->
  oblivious (Graph.writeSelection getFieldKey getDataID fragments fuel W id data nextData
               selection).
Proof.
  intros HW.
  assert (Hfragment : forall selectionSet,
            oblivious
              (Graph.catchPartialWrite
                 (letM fragmentData := W id data selectionSet in
                  match fragmentData with
                  | Graph.NextObject _ props => ret (assignInto nextData props)
                  | _ => ret nextData
                  end) nextData)).
  { intros selectionSet. apply oblivious_catch. apply oblivious_bind; [apply HW|].
    intros [v|items|idKey props]; apply oblivious_ret. }
  unfold Graph.writeSelection.
  destruct selection as [field [fieldSelectionSet|]|dirs selectionSet|fragmentName dirs].
  - destruct (isUndefined _); [apply oblivious_throw|].
    destruct (default undefined _) as [p|items|props|f|].
    + destruct p; try apply oblivious_throw.
      apply oblivious_bind; [apply oblivious_setReference|intros; apply oblivious_ret].
    + apply oblivious_bind; [by apply oblivious_writeArrayToStore|]. intros written.
      apply oblivious_bind; [apply oblivious_setReference|intros; apply oblivious_ret].
    + apply oblivious_bind; [apply oblivious_setReference|]. intros _.
      apply oblivious_bind; [apply HW|intros; apply oblivious_ret].
    + apply oblivious_throw.
    + apply oblivious_bind; [apply oblivious_setReference|]. intros _.
      apply oblivious_bind; [apply HW|intros; apply oblivious_ret].
  - destruct (isUndefined _); [apply oblivious_throw|].
    apply oblivious_bind; [apply oblivious_setScalar|intros; apply oblivious_ret].
  - apply Hfragment.
  - destruct (fragments !! fragmentName); [apply Hfragment|apply oblivious_throw].
Qed.

Lemma oblivious_writeToGraph fuel id data selectionSet :
  oblivious (Graph.writeToGraph getFieldKey getDataID fragments fuel id data selectionSet).
Proof.
  revert id data selectionSet.
  induction fuel as [|fuel IH]; intros id data selectionSet; cbn [Graph.writeToGraph].
  - apply oblivious_throw.
  - apply oblivious_bind; [apply oblivious_initNode|]. intros _.
    apply oblivious_bind; [|intros; apply oblivious_ret].
    apply oblivious_foldSelections. intros acc selection.
    by apply oblivious_writeSelection.
Qed.
End Oblivious.

(** X15.  What a write to the graph returns, data or error, does not
    depend on what the graph holds: the writer never reads the graph to
    decide anything but whether to make the node. *)
Theorem writeToGraph_outcome_ignores_graph
    (getFieldKey : FieldNode -> string) (getDataID : JSValue -> option string)
    (fragments : gmap string SelectionSet)
    (fuel : nat) (id : option string) (data : Obj) (selectionSet : SelectionSet)
    (graph1 graph2 : gmap string Graph.GraphDataNode) :
  snd (Graph.writeToGraph getFieldKey getDataID fragments fuel id data selectionSet graph1) =
  snd (Graph.writeToGraph getFieldKey getDataID fragments fuel id data selectionSet graph2).
Proof. apply oblivious_writeToGraph. Qed.

(** ** The graph writer: lists, and the field written last *)

Lemma graph_bind_Ok {A B : Type} (m : Graph.G A) (k : A -> Graph.G B) g g' b :
  bind m k g = (g', Ok b) -> exists g1 a, m g = (g1, Ok a) /\ k a g1 = (g', Ok b).
Proof.
  unfold bind. destruct (m g) as [g1 [a|e]]; [|discriminate]. intros H. by exists g1, a.
Qed.

Lemma mapIndexed_Ok {A B : Type} (l : list A) (i : nat) (f : nat -> A -> Graph.G B)
    g g' (ys : list B) :
  Graph.mapIndexed l i f g = (g', Ok ys) ->
  length ys = length l /\
  (forall j x, l !! j = Some x ->
     exists s s' y, f (i + j) x s = (s', Ok y) /\ ys !! j = Some y).
Proof.
  revert i g g' ys. induction l as [|x l IH]; intros i g g' ys; cbn [Graph.mapIndexed].
  - intros [= _ <-]. split; [done|]. intros j x Hj. by destruct j.
  - intros H. apply graph_bind_Ok in H as (g1 & y & Hy & H).
    apply graph_bind_Ok in H as (g2 & ys' & Hys & Hret). injection Hret as _ <-.
    apply IH in Hys as [Hlen Hat]. split; [cbn; by rewrite Hlen|].
    intros [|j] x' Hj.
    + injection Hj as <-. exists g, g1, y. by rewrite Nat.add_0_r.
    + destruct (Hat j x' Hj) as (s & s' & y' & Hf & Hy').
      exists s, s', y'. split; [|done]. by rewrite Nat.add_succ_r.
Qed.

Section ArrayShape.
Variable getDataID : JSValue -> option string.
Variable W : option string -> Obj -> SelectionSet -> Graph.G Graph.NextData.

Lemma writeArrayToStore_written fuel id data selectionSet g g' reference nextData :
  Graph.writeArrayToStore getDataID W fuel id data selectionSet g
    = (g', Ok (reference, nextData)) ->
  exists refs outs,
    reference = Graph.RefList refs /\ nextData = Graph.NextArray outs /\
    length refs = length data /\ length outs = length data.
Proof.
  destruct fuel as [|fuel]; [discriminate|]. cbn [Graph.writeArrayToStore].
  intros H. apply graph_bind_Ok in H as (g1 & written & Hwritten & Hret).
  injection Hret as _ <- <-. apply mapIndexed_Ok in Hwritten as [Hlen _].
  eexists _, _. repeat split; by rewrite length_map.
Qed.
End ArrayShape.

(** X16.  The reference and the data [writeArrayToStore] returns for a
    list are lists of the length of the list; at the place of a [null] item
    they hold [null], at the place of a nested list a list of its length, and
    at the place of an object the reference holds the id written for it. *)
Theorem writeArrayToStore_shape
    (getDataID : JSValue -> option string)
    (W : option string -> Obj -> SelectionSet -> Graph.G Graph.NextData)
    (fuel : nat) (id : option string) (data : list JSValue) (selectionSet : SelectionSet)
    (g g' : gmap string Graph.GraphDataNode)
    (reference : Graph.GraphReference) (nextData : Graph.NextData) :
  Graph.writeArrayToStore getDataID W fuel id data selectionSet g
    = (g', Ok (reference, nextData)) ->
  exists refs outs,
    reference = Graph.RefList refs /\ nextData = Graph.NextArray outs /\
    length refs = length data /\ length outs = length data /\
    (forall i, data !! i = Some null ->
       refs !! i = Some (Graph.RefId None) /\ outs !! i = Some (Graph.Raw null)) /\
    (forall i items, data !! i = Some (JArray items) ->
       exists refs' outs',
         refs !! i = Some (Graph.RefList refs') /\ outs !! i = Some (Graph.NextArray outs') /\
         length refs' = length items /\ length outs' = length items) /\
    (forall i props, data !! i = Some (JObject props) ->
       refs !! i =
         Some (Graph.RefId (Graph.objectID getDataID id ("[" +:+ string_of_nat i +:+ "]")
                              (JObject props) props))).
Proof.
  destruct fuel as [|fuel]; [discriminate|]. cbn [Graph.writeArrayToStore].
  intros H. apply graph_bind_Ok in H as (g1 & written & Hwritten & Hret).
  injection Hret as _ <- <-. apply mapIndexed_Ok in Hwritten as [Hlen Hat].
  exists (map fst written), (map snd written).
  split; [done|]. split; [done|]. rewrite !length_map. split; [done|]. split; [done|].
  assert (Hmaps : forall i y, written !! i = Some y ->
            map fst written !! i = Some (fst y) /\ map snd written !! i = Some (snd y)).
  { intros i y Hy. by rewrite !list_lookup_fmap, Hy. }
  repeat split.
  - destruct (Hat i null H) as (s & s' & y & Hf & Hy). cbn in Hf.
    injection Hf as _ <-. by apply Hmaps in Hy as [-> _].
  - destruct (Hat i null H) as (s & s' & y & Hf & Hy). cbn in Hf.
    injection Hf as _ <-. by apply Hmaps in Hy as [_ ->].
  - intros i items Hi. destruct (Hat i _ Hi) as (s & s' & [r o] & Hf & Hy). cbn in Hf.
    apply writeArrayToStore_written in Hf as (refs' & outs' & -> & -> & Hl1 & Hl2).
    apply Hmaps in Hy as [-> ->]. by exists refs', outs'.
  - intros i props Hi. destruct (Hat i _ Hi) as (s & s' & [r o] & Hf & Hy). cbn in Hf.
    apply graph_bind_Ok in Hf as (s1 & nextItemData & _ & Hret).
    injection Hret as _ <- _. by apply Hmaps in Hy as [-> _].
Qed.

Lemma writeArrayToStore_shape_witness :
  exists (refs : list Graph.GraphReference) (outs : list Graph.NextData),
    length refs = 2 /\ length outs = 2 /\
    refs !! 0 = Some (Graph.RefId None) /\
    refs !! 1 = Some (Graph.RefId (Some "ROOT.todos[1]:Todo")).
Proof.
  pose (data := [null; JObject [("__typename", str "Todo"); ("text", str "hi")]]).
  pose (W := Graph.writeToGraph fieldNameKey noDataID ∅ 2).
  pose (run := Graph.writeArrayToStore noDataID W 2 (Some "ROOT.todos") data
                 [scalarField "text"] ∅).
  assert (H : run = (fst run, Ok (fst (default (Graph.RefId None, Graph.Raw null)
                                         (match snd run with Ok x => Some x | _ => None end)),
                                  snd (default (Graph.RefId None, Graph.Raw null)
                                         (match snd run with Ok x => Some x | _ => None end)))))
    by (vm_compute; reflexivity).
  destruct (writeArrayToStore_shape noDataID W 2 (Some "ROOT.todos") data
              [scalarField "text"] ∅ _ _ _ H)
    as (refs & outs & _ & _ & Hl1 & Hl2 & Hnull & _ & Hobj).
  exists refs, outs. split; [exact Hl1|]. split; [exact Hl2|]. split.
  - apply (Hnull 0). reflexivity.
  - apply (Hobj 1 [("__typename", str "Todo"); ("text", str "hi")]). reflexivity.
Defined.

Lemma foldSelections_snoc {A B : Type} (l : list A) (x : A) (acc : B)
    (f : B -> A -> Graph.G B) g :
  Graph.foldSelections (l ++ [x]) acc f g =
    match Graph.foldSelections l acc f g with
    | (g1, Ok acc') => f acc' x g1
    | (g1, Err e) => (g1, Err e)
    end.
Proof.
  revert acc g. induction l as [|y l IH]; intros acc g; cbn [app Graph.foldSelections].
  - unfold bind, ret. destruct (f acc x g) as [g1 [a|e]]; done.
  - unfold bind at 1 2. destruct (f acc y g) as [g1 [a|e]]; [apply IH|done].
Qed.



(** ** Variables and literals *)

Section VariableAsLiteral.
Variable Number : string -> string.
Variable variables : option Obj.

Local Abbreviation vtor := (valueToObjectRepresentation Number variables).
Local Abbreviation args2obj := (argumentsToObject Number variables).

Lemma valueToObjectRepresentation_variable_as_literal literal name v value :
  vtor [] name literal = Ok [(name, value)] ->
  lookupProp (default [] variables) v = Some value ->
  forall argObj, vtor argObj name (Variable_ v) = vtor argObj name literal.
Proof.
  intros Hlit Hv argObj.
  apply valueToObjectRepresentation_assigns in Hlit as (value' & Hset & Hany).
  rewrite Hany. cbn [valueToObjectRepresentation].
  unfold variableValue, getMember. rewrite Hv. cbn [default].
  revert Hset. unfold assignProp. cbn [lookupProp setProp].
  destruct (String.eqb name "__proto__"); [done|]. by intros [= <-].
Qed.
End VariableAsLiteral.

(** X18.  Variables are substituted before the key is made: an argument
    given as a variable and the same argument given as the literal of the
    value the variable is bound to make the same key, whatever the other
    arguments are. *)
Theorem storeKeyNameFromField_variable_as_literal
    (Number : string -> string) (variables : option Obj)
    (al1 al2 : option string) (fieldName x v : string) (literal : ValueNode)
    (value : JSValue) (pre post : list ArgumentNode) (dirs1 dirs2 : list DirectiveNode) :
  valueToObjectRepresentation Number variables [] x literal = Ok [(x, value)] ->
  lookupProp (default [] variables) v = Some value ->
  storeKeyNameFromField Number variables
    (mkField al1 fieldName (pre ++ (x, Variable_ v) :: post) dirs1) =
  storeKeyNameFromField Number variables
    (mkField al2 fieldName (pre ++ (x, literal) :: post) dirs2).
Proof.
  intros Hlit Hv.
  rewrite !storeKeyNameFromField_nonempty by (cbn [arguments]; by destruct pre).
  cbn [arguments name]. rewrite !argumentsToObject_app.
  destruct (argumentsToObject Number variables pre []) as [o|e]; [|done].
  cbn [bindR argumentsToObject].
  by rewrite (valueToObjectRepresentation_variable_as_literal Number variables
                literal x v value Hlit Hv).
Qed.

Lemma storeKeyNameFromField_variable_as_literal_witness :
  storeKeyNameFromField canonicalNumber (Some [("done", JPrim (PBool true))])
    (mkField None "todos" ([] ++ ("completed", Variable_ "done") :: []) []) =
  storeKeyNameFromField canonicalNumber (Some [("done", JPrim (PBool true))])
    (mkField (Some "filteredTodos") "todos" ([] ++ ("completed", BooleanValue true) :: []) []).
Proof.
  apply (storeKeyNameFromField_variable_as_literal canonicalNumber
           (Some [("done", JPrim (PBool true))]) None (Some "filteredTodos") "todos"
           "completed" "done" (BooleanValue true) (JPrim (PBool true)) [] [] [] []);
    reflexivity.
Defined.

(** ** A generated reference with no entity behind it *)



(** ** Fields named as members of Object.prototype *)

Lemma inheritedMember_function k :
  k ∈ Object_prototype_functions -> inheritedMember k = JFunction k.
Proof.
  intros Hk. unfold inheritedMember.
  assert (existsb (String.eqb k) Object_prototype_functions = true) as Hex.
  { apply existsb_exists. exists k. split; [by apply list_elem_of_In|apply String.eqb_refl]. }
  rewrite Hex. destruct (String.eqb k "__proto__") eqn:E; [|done].
  apply String.eqb_eq in E. subst k. vm_compute in Hex. discriminate.
Qed.

(** X20.  A plain object is never without a field named as a function of
    [Object.prototype]: when the result has no property of that name of its
    own, the read gives the function of the prototype, the field is not
    skipped, and written without a selection set it stores the function as a
    JSON blob. *)
Theorem inherited_function_written
    (builtinMember : JSValue -> string -> JSValue)
    (Number : string -> string) (shouldInclude : SelectionNode -> option Obj -> bool)
    (variables : option Obj) (dataIdFromObject : option (JSValue -> option string))
    (fragmentMap : gmap string SelectionSet)
    (fuel : nat) (rec : string -> JSValue -> SelectionSet -> M unit)
    (dataId key : string) (props : Obj) (field : FieldNode) (st : Store) :
  storeKeyNameFromField Number variables field = Ok key ->
  lookupProp props (resultKeyNameFromField field) = None ->
  resultKeyNameFromField field ∈ Object_prototype_functions ->
  getProp builtinMember (JObject props) (resultKeyNameFromField field) =
    Ok (JFunction (resultKeyNameFromField field)) /\
  exists st',
    writeSelection builtinMember Number shouldInclude variables dataIdFromObject fragmentMap
      fuel rec dataId (JObject props) (Field field None) st = (st', Ok tt) /\
    slot st' dataId key = Some (SVJson (JFunction (resultKeyNameFromField field))).
Proof.
  intros Hkey Hown Hmember.
  assert (Hread : getProp builtinMember (JObject props) (resultKeyNameFromField field) =
                    Ok (JFunction (resultKeyNameFromField field))).
  { cbn [getProp]. unfold getMember. rewrite Hown. cbn [default].
    by rewrite inheritedMember_function. }
  split; [exact Hread|].
  unfold writeSelection, bind at 1, liftR. rewrite Hread. cbn [isUndefined negb].
  rewrite writeFieldToStore_leaf with (key := key) by (done || by left).
  destruct (storeField fuel dataId key (SVJson (JFunction (resultKeyNameFromField field)))
              None st) as [st' [[]|e]] eqn:Hstore.
  - exists st'. split; [done|]. by apply storeField_slot in Hstore.
  - rewrite storeField_None in Hstore.
    destruct (cache st !! dataId); [destruct (sameStoreValue _ _)|]; discriminate.
Qed.

Lemma inherited_function_written_witness :
  exists st',
    writeSelection objectMembers canonicalNumber includeAll None None ∅ 1
      (writeSelectionSetToStore objectMembers canonicalNumber includeAll None None ∅ 1)
      "ROOT_QUERY" (JObject [("name", str "A")]) (scalarField "toString") emptyStore =
      (st', Ok tt) /\
    slot st' "ROOT_QUERY" "toString" = Some (SVJson (JFunction "toString")).
Proof.
  apply (inherited_function_written objectMembers canonicalNumber includeAll None None ∅ 1
           (writeSelectionSetToStore objectMembers canonicalNumber includeAll None None ∅ 1)
           "ROOT_QUERY" "toString" [("name", str "A")] (mkField None "toString" [] [])
           emptyStore).
  - reflexivity.
  - reflexivity.
  - apply (bool_decide_unpack _). vm_compute. exact I.
Defined.
